(** * Sonic Room Explorer: modal response simulator and parametric EQ generator

    A shallow embedding of [src/utils/roomModeCalculations.ts] and the
    properties its specification states about it.

    Numbers.  A JavaScript [number] is modelled as a real number, so the
    rounding of IEEE-754 arithmetic is not part of the model: a statement
    below describes the formula the code evaluates, not its last digit, and
    a comparison that is a tie over the real numbers may be decided either
    way by the rounding.
    Overflow is modelled where the code tests for it.  The filter bank checks
    the level of a band with [isFinite], and the one value there that leaves
    the range of a double for ordinary arguments is the linear gain
    [10 ** (gain / 20)], which is [Infinity] from about 6165 dB on; that
    value is a [Number], a real number or [Infinity] or [NaN].
    Every division the embedded code performs is guarded by the code itself
    (a dimension, a centre frequency or a count is tested before it divides),
    so no result below depends on the value of a division by zero.  The mode
    order and the number of bands, which the code only ever uses as counts,
    are natural numbers; band budgets, which the code subtracts from one
    another, are integers.

    State.  The only shared mutable object is the module-level
    [responseCache].  Arrays live in a heap of locations, the cache maps a
    key to a location, and [simulateRoomResponse] threads that state
    explicitly, so that handing the same array to two callers is visible.

    Effects left out.  Console output and timing calls do not influence any
    returned value.  [generateOptimalEQ] returns a promise; the embedding
    gives the value it resolves to, and the pauses between the passes have
    no counterpart here. *)

From Stdlib Require Import Reals Lra Lia List ZArith Bool Permutation Sorted.
Import ListNotations.
Open Scope R_scope.

(** ** The host language's numeric primitives *)

Definition Rltb (a b : R) : bool := if Rlt_dec a b then true else false.
Definition Rleb (a b : R) : bool := if Rle_dec a b then true else false.
Definition Rgtb (a b : R) : bool := Rltb b a.
Definition Rgeb (a b : R) : bool := Rleb b a.
(** [a === b] on numbers. *)
Definition Rseq (a b : R) : bool := if Req_dec_T a b then true else false.

Definition Math_abs (a : R) : R := Rabs a.
Definition Math_max (a b : R) : R := Rmax a b.
Definition Math_min (a b : R) : R := Rmin a b.
Definition Math_sqrt (a : R) : R := sqrt a.
Definition Math_cos (a : R) : R := cos a.
Definition Math_sin (a : R) : R := sin a.
Definition Math_PI : R := PI.
Definition Math_log10 (a : R) : R := ln a / ln 10.
Definition Math_log2 (a : R) : R := ln a / ln 2.
Definition Math_pow (a b : R) : R := Rpower a b.
(** [Math.round] rounds half-way cases towards +infinity. *)
Definition Math_round (a : R) : R := IZR (Zfloor (a + 1 / 2)).

(** [Math.atan2(y, x)]: the angle of the point [(x, y)], in (-PI, PI]. *)
Definition Math_atan2 (b a : R) : R :=
  if Rlt_dec 0 a then atan (b / a)
  else if Rlt_dec a 0 then
    (if Rle_dec 0 b then atan (b / a) + PI else atan (b / a) - PI)
  else if Rlt_dec 0 b then PI / 2
  else if Rlt_dec b 0 then - (PI / 2)
  else 0.

(** The result of an operation that can overflow: a real number within the
    range of a double, or one of the two values that are not numbers of the
    model.  [Number.MAX_VALUE] is [(2^53 - 1) * 2^971], about 1.797e308. *)
Inductive Number := finite (v : R) | Infinity | NaN.

Definition MAX_VALUE : R := (2 ^ 53 - 1) * 2 ^ 971.

(** [Math.pow(a, b)] for a positive base, with its overflow. *)
Definition Math_pow_overflow (a b : R) : Number :=
  if Rleb (Math_pow a b) MAX_VALUE then finite (Math_pow a b) else Infinity.

(** An increasing function of a [Number], and the comparison [a <= c], which
    is false when [a] is [Infinity] or [NaN]. *)
Definition Number_map (f : R -> R) (a : Number) : Number :=
  match a with
  | finite v => finite (f v)
  | Infinity => Infinity
  | NaN => NaN
  end.

Definition Number_leb (a : Number) (c : R) : bool :=
  match a with
  | finite v => Rleb v c
  | Infinity | NaN => false
  end.

Definition isFinite (a : Number) : bool :=
  match a with
  | finite _ => true
  | Infinity | NaN => false
  end.

Definition isNaN (a : Number) : bool :=
  match a with
  | NaN => true
  | finite _ | Infinity => false
  end.

(** [Array.prototype.some], [find] and a stable [sort] with a comparator
    ([cmp a b < 0] puts [a] first; equal elements keep their order). *)
Definition some {A} (p : A -> bool) (l : list A) : bool := existsb p l.

Fixpoint sort_insert {A} (cmp : A -> A -> R) (a : A) (l : list A) : list A :=
  match l with
  | [] => [a]
  | b :: l' => if Rleb (cmp a b) 0 then a :: b :: l'
               else b :: sort_insert cmp a l'
  end.

Definition sort {A} (cmp : A -> A -> R) (l : list A) : list A :=
  fold_right (sort_insert cmp) [] l.

(** The values of [i] in [for (i = lo; i <= hi; i += step)], for integers
    and a positive step. *)
Definition range (lo hi step : Z) : list Z :=
  map (fun k => (lo + Z.of_nat k * step)%Z)
      (seq 0 (Z.to_nat ((hi - lo) / step + 1))).

(** ** Data model *)

Definition SPEED_OF_SOUND : R := 343.
Definition DEFAULT_Q_FACTOR : R := 10.
Definition FREQUENCY_MIN_HZ : Z := 20.
Definition FREQUENCY_MAX_HZ : Z := 300.
Definition FREQUENCY_STEP_HZ : Z := 1.

Record Point := { x : R; y : R; z : R }.

Record RoomDimensions := { L : R; W : R; H : R }.

Record ModeResponse := { freq : R; db : R }.

Inductive FilterType := peak | highpass | lowpass | shelf.

Definition FilterType_eqb (a b : FilterType) : bool :=
  match a, b with
  | peak, peak | highpass, highpass | lowpass, lowpass | shelf, shelf => true
  | _, _ => false
  end.

Record EQBand := { frequency : R; gain : R; q : R; type : FilterType }.

Record EQSettings := {
  bands : list EQBand;
  enabled : bool;
  maxBoost : R;
  maxCut : R;
  smoothing : R
}.

(** ** Modal response simulator *)

(** The cache key: the object that [generateCacheKey] serialises.  Two keys
    are the same string exactly when these eleven numbers agree. *)
Record CacheKey := {
  key_sub : Point;
  key_listener : Point;
  key_room : RoomDimensions;
  key_maxModeOrder : nat;
  key_baseQFactor : R
}.

Definition generateCacheKey (subPos listenerPos : Point) (L W H : R)
    (maxModeOrder : nat) (baseQFactor : R) : CacheKey :=
  {| key_sub := {| x := Math_round (x subPos * 1000) / 1000;
                   y := Math_round (y subPos * 1000) / 1000;
                   z := Math_round (z subPos * 1000) / 1000 |};
     key_listener := {| x := Math_round (x listenerPos * 1000) / 1000;
                        y := Math_round (y listenerPos * 1000) / 1000;
                        z := Math_round (z listenerPos * 1000) / 1000 |};
     key_room := {| L := Math_round (L * 1000) / 1000;
                    W := Math_round (W * 1000) / 1000;
                    H := Math_round (H * 1000) / 1000 |};
     key_maxModeOrder := maxModeOrder;
     key_baseQFactor := Math_round (baseQFactor * 100) / 100 |}.

Definition Point_eqb (a b : Point) : bool :=
  Rseq (x a) (x b) && Rseq (y a) (y b) && Rseq (z a) (z b).

Definition CacheKey_eqb (a b : CacheKey) : bool :=
  Point_eqb (key_sub a) (key_sub b)
  && Point_eqb (key_listener a) (key_listener b)
  && Rseq (L (key_room a)) (L (key_room b))
  && Rseq (W (key_room a)) (W (key_room b))
  && Rseq (H (key_room a)) (H (key_room b))
  && Nat.eqb (key_maxModeOrder a) (key_maxModeOrder b)
  && Rseq (key_baseQFactor a) (key_baseQFactor b).

Definition calculateModePressure (n m l : nat) (pos : Point)
    (dim : RoomDimensions) : R :=
  let Lx := if Rseq (L dim) 0 then 1e-6 else L dim in
  let Wy := if Rseq (W dim) 0 then 1e-6 else W dim in
  let Hz := if Rseq (H dim) 0 then 1e-6 else H dim in
  let effectiveX := Lx - x pos in
  Math_cos ((INR n * Math_PI * effectiveX) / Lx)
  * Math_cos ((INR m * Math_PI * y pos) / Wy)
  * Math_cos ((INR l * Math_PI * z pos) / Hz).

(** One pass through the body of the innermost loop: [None] is [continue],
    [Some (re, im)] is what the pass adds to [totalReal] and [totalImag]. *)
Definition modeContribution (subPos listenerPos : Point) (L W H : R)
    (baseQFactor : R) (f : Z) (n m l : nat) : option (R * R) :=
  if Nat.eqb n 0 && Nat.eqb m 0 && Nat.eqb l 0
     && negb (Rseq L 0 && Rseq W 0 && Rseq H 0) then None
  else if Rseq L 0 && negb (Nat.eqb n 0) then None
  else if Rseq W 0 && negb (Nat.eqb m 0) then None
  else if Rseq H 0 && negb (Nat.eqb l 0) then None
  else
    let termL := if Rseq L 0 then 0 else INR n / L in
    let termW := if Rseq W 0 then 0 else INR m / W in
    let termH := if Rseq H 0 then 0 else INR l / H in
    let fMode := (SPEED_OF_SOUND / 2)
                 * Math_sqrt (termL ^ 2 + termW ^ 2 + termH ^ 2) in
    if Rseq fMode 0 && Rgtb (IZR f) 0 then None
    else if Rgtb fMode (IZR FREQUENCY_MAX_HZ * 1.5) && Rgtb fMode 0
            && (Nat.ltb 3 n && Nat.ltb 3 m && Nat.ltb 3 l) then None
    else
      let subPressureTerm :=
        calculateModePressure n m l subPos {| L := L; W := W; H := H |} in
      let listenerPressureTerm :=
        calculateModePressure n m l listenerPos {| L := L; W := W; H := H |} in
      let coupling := subPressureTerm * listenerPressureTerm in
      if Rltb (Math_abs coupling) 1e-9 then None
      else
        let qMultiplier :=
          if Rgtb fMode 0 && Rltb fMode 80 then 2.0
          else if Rgeb fMode 80 && Rltb fMode 150 then 1.5
          else 1.0 in
        let q := Math_max 1 (baseQFactor * qMultiplier) in
        let finish (modeAmplitudeResponse modePhaseResponse : R) :=
          let effectiveMagnitude := coupling * modeAmplitudeResponse in
          Some (effectiveMagnitude * Math_cos modePhaseResponse,
                effectiveMagnitude * Math_sin modePhaseResponse) in
        if Rseq fMode 0 && Rseq (IZR f) 0 then finish 1 0
        else if Rgtb fMode 0 then
          let fRatio := IZR f / fMode in
          let denominatorTerm := fRatio / q in
          finish
            (1 / Math_sqrt ((1 - fRatio ^ 2) ^ 2 + denominatorTerm ^ 2))
            (Math_atan2 (- denominatorTerm) (1 - fRatio ^ 2))
        else None.

(** The three nested loops over [n], [m], [l] at one frequency, followed by
    the magnitude of the complex sum. *)
Definition modeIndices (maxModeOrder : nat) : list (nat * nat * nat) :=
  flat_map (fun n =>
    flat_map (fun m =>
      map (fun l => (n, m, l)) (seq 0 (S maxModeOrder)))
      (seq 0 (S maxModeOrder)))
    (seq 0 (S maxModeOrder)).

Definition magnitudeAt (subPos listenerPos : Point) (L W H : R)
    (maxModeOrder : nat) (baseQFactor : R) (f : Z) : R :=
  let '(totalReal, totalImag) :=
    fold_left (fun (tot : R * R) '(n, m, l) =>
      match modeContribution subPos listenerPos L W H baseQFactor f n m l with
      | None => tot
      | Some (re, im) => (fst tot + re, snd tot + im)
      end) (modeIndices maxModeOrder) (0, 0) in
  Math_sqrt (totalReal ^ 2 + totalImag ^ 2).

Definition MIN_DB_VALUE : R := -100.

(** The part of [simulateRoomResponse] that runs on a cache miss.  The
    running maximum [maxOverallMagnitude] is written but never read by the
    source and is left out. *)
Definition calculateResponse (subPos listenerPos : Point) (L W H : R)
    (maxModeOrder : nat) (baseQFactor : R) : list ModeResponse :=
  let intermediateResponse :=
    map (fun f => (IZR f,
                   magnitudeAt subPos listenerPos L W H maxModeOrder
                               baseQFactor f))
        (range FREQUENCY_MIN_HZ FREQUENCY_MAX_HZ FREQUENCY_STEP_HZ) in
  map (fun '(pfreq, magnitude) =>
         let dbValue :=
           if Rleb magnitude 1e-9 then MIN_DB_VALUE
           else 20 * Math_log10 magnitude in
         {| freq := pfreq; db := Math_max MIN_DB_VALUE dbValue |})
      intermediateResponse.

(** The heap of arrays and the module-level cache.  A [Map] keeps its keys
    in insertion order, so the cache is an association list, oldest first. *)
Definition Loc := nat.

Record State := {
  heap : list (list ModeResponse);
  responseCache : list (CacheKey * Loc)
}.

Definition emptyState : State := {| heap := []; responseCache := [] |}.

Definition CACHE_SIZE_LIMIT : nat := 50.

Definition cache_get (k : CacheKey) (c : list (CacheKey * Loc)) : option Loc :=
  option_map snd (find (fun e => CacheKey_eqb (fst e) k) c).

Definition cache_delete (k : CacheKey) (c : list (CacheKey * Loc))
    : list (CacheKey * Loc) :=
  filter (fun e => negb (CacheKey_eqb (fst e) k)) c.

(** What a caller sees behind an array reference, and what it can do to it. *)
Definition deref (st : State) (a : Loc) : list ModeResponse :=
  nth a (heap st) [].

Fixpoint list_set {A} (l : list A) (i : nat) (v : A) : list A :=
  match l, i with
  | [], _ => []
  | _ :: l', O => v :: l'
  | a :: l', S i' => a :: list_set l' i' v
  end.

Definition mutate (st : State) (a : Loc) (v : list ModeResponse) : State :=
  {| heap := list_set (heap st) a v; responseCache := responseCache st |}.

Definition simulateRoomResponse (subPos listenerPos : Point) (L W H : R)
    (maxModeOrder : nat) (baseQFactor : R) (st : State) : Loc * State :=
  let cacheKey :=
    generateCacheKey subPos listenerPos L W H maxModeOrder baseQFactor in
  match cache_get cacheKey (responseCache st) with
  | Some a => (a, st)
  | None =>
    let cache1 :=
      if Nat.leb CACHE_SIZE_LIMIT (length (responseCache st)) then
        let keysToDelete :=
          firstn (Nat.div CACHE_SIZE_LIMIT 2) (map fst (responseCache st)) in
        fold_left (fun c k => cache_delete k c) keysToDelete (responseCache st)
      else responseCache st in
    let finalResponse :=
      calculateResponse subPos listenerPos L W H maxModeOrder baseQFactor in
    let a := length (heap st) in
    (a, {| heap := heap st ++ [finalResponse];
           responseCache := cache1 ++ [(cacheKey, a)] |})
  end.

(** ** Target curve *)

(** Truthiness of an optional number: present and not zero. *)
Definition truthy (o : option R) : bool :=
  match o with
  | Some r => negb (Rseq r 0)
  | None => false
  end.

Definition getHarmanTargetDB (freq : R)
    (bassRolloffFreq bassRolloffSlope : option R) : R :=
  let baseDb :=
    if Rleb freq 20 then 7
    else if Rltb freq 60 then 7 - ((freq - 20) / (60 - 20)) * 3
    else if Rltb freq 200 then 4 - ((freq - 60) / (200 - 60)) * 4
    else if Rleb freq 300 then 0 - ((freq - 200) / (300 - 200)) * 1
    else -1 in
  match bassRolloffFreq, bassRolloffSlope with
  | Some rolloffFreq, Some rolloffSlope =>
    if truthy bassRolloffFreq && truthy bassRolloffSlope
       && Rltb freq rolloffFreq then
      let octavesBelow := Math_log2 (rolloffFreq / Math_max freq 1) in
      let rolloffDb := - octavesBelow * rolloffSlope in
      baseDb + rolloffDb
    else baseDb
  | _, _ => baseDb
  end.

(** ** EQ application (filter bank) *)

(** The denominator is a real number of at least 1, so with a linear gain of
    [Infinity] the response [1 + (linearGain - 1) / denominator] and its
    level are [Infinity] as well, and the safety check returns 0; the last
    [match] only unpacks a level that the check has found finite. *)
Definition calculateBandResponse (freq : R) (band : EQBand) : R :=
  if negb (FilterType_eqb (type band) peak) then 0
  else
    let f0 := frequency band in
    let gain := gain band in
    let q := q band in
    if Rleb freq 0 || Rleb f0 0 || Rleb q 0 || Rltb (Math_abs gain) 0.01
    then 0
    else
      let freqRatio := freq / f0 in
      let qTerm := q * (freqRatio - 1 / freqRatio) in
      let denominator := 1 + qTerm * qTerm in
      if Rleb denominator 0 then 0
      else
        let linearGain := Math_pow_overflow 10 (gain / 20) in
        let response :=
          Number_map (fun linearGain => 1 + (linearGain - 1) / denominator)
                     linearGain in
        if Number_leb response 1e-10 then -200
        else
          let responseDb :=
            Number_map (fun response => 20 * Math_log10 response) response in
          if negb (isFinite responseDb) || isNaN responseDb then 0
          else
            match responseDb with
            | finite responseDb => Math_max (-50) (Math_min 20 responseDb)
            | Infinity | NaN => 0
            end.

(** The sum of the band contributions at one frequency, as the loop over
    [eqSettings.bands] accumulates it. *)
Definition totalGainAt (pfreq : R) (bs : list EQBand) : R :=
  let totalGain :=
    fold_left (fun totalGain band =>
      let gain := calculateBandResponse pfreq band in
      if isNaN (finite gain) || negb (isFinite (finite gain)) then totalGain
      else totalGain + gain) bs 0 in
  if isNaN (finite totalGain) || negb (isFinite (finite totalGain)) then 0
  else totalGain.

Definition applyEQToResponse (originalResponse : list ModeResponse)
    (eqSettings : EQSettings) : list ModeResponse :=
  if negb (enabled eqSettings) || Nat.eqb (length (bands eqSettings)) 0
  then originalResponse
  else
    map (fun point =>
           let totalGain := totalGainAt (freq point) (bands eqSettings) in
           let finalDb := db point + totalGain in
           let clampedDb := Math_max (-80) (Math_min 130 finalDb) in
           {| freq := freq point; db := clampedDb |})
        originalResponse.

(** ** Error analysis *)

Module Err.
Record t := { freq : R; error : R; currentDb : R; targetDb : R }.
End Err.

Record ErrorAnalysis := {
  rmsError : R;
  maxError : R;
  avgError : R;
  errorByFrequency : list Err.t
}.

(** The loop variables of [analyzeTargetError]. *)
Record ErrorLoop := {
  errors : list Err.t;
  sumSquaredError : R;
  loopMaxError : R;
  sumError : R;
  validPoints : nat
}.

Definition analyzeTargetError_step (targetResponse : list ModeResponse)
    (acc : ErrorLoop) (currentPoint : ModeResponse) : ErrorLoop :=
  match find (fun t => Rltb (Math_abs (freq t - freq currentPoint)) 1)
             targetResponse with
  | Some targetPoint =>
    let error := db currentPoint - db targetPoint in
    let absError := Math_abs error in
    {| errors := errors acc ++ [ {| Err.freq := freq currentPoint;
                                    Err.error := error;
                                    Err.currentDb := db currentPoint;
                                    Err.targetDb := db targetPoint |} ];
       sumSquaredError := sumSquaredError acc + error * error;
       loopMaxError := Math_max (loopMaxError acc) absError;
       sumError := sumError acc + error;
       validPoints := S (validPoints acc) |}
  | None => acc
  end.

Definition analyzeTargetError (currentResponse targetResponse
    : list ModeResponse) : ErrorAnalysis :=
  let final :=
    fold_left (analyzeTargetError_step targetResponse) currentResponse
      {| errors := []; sumSquaredError := 0; loopMaxError := 0;
         sumError := 0; validPoints := 0 |} in
  let rmsError :=
    if Nat.ltb 0 (validPoints final)
    then Math_sqrt (sumSquaredError final / INR (validPoints final))
    else 0 in
  let avgError :=
    if Nat.ltb 0 (validPoints final)
    then sumError final / INR (validPoints final)
    else 0 in
  {| rmsError := rmsError;
     maxError := loopMaxError final;
     avgError := avgError;
     errorByFrequency := errors final |}.

(** ** Multi-pass EQ generator *)

Inductive PassType := broad | targeted | polishing | ultra_fine.

Definition PassType_eqb (a b : PassType) : bool :=
  match a, b with
  | broad, broad | targeted, targeted | polishing, polishing
  | ultra_fine, ultra_fine => true
  | _, _ => false
  end.

(** Array lengths compared with band budgets, which can go below zero. *)
Definition len {A} (l : list A) : Z := Z.of_nat (length l).

Definition getErrorThreshold (passType : PassType) (schroederFreq : R)
    (freq : R) : R :=
  match passType with
  | broad =>
    if Rltb freq 40 then 0.4 else if Rltb freq 80 then 0.5
    else if Rltb freq 150 then 0.7
    else if Rltb freq schroederFreq then 1.0 else 1.5
  | targeted =>
    if Rltb freq 40 then 0.2 else if Rltb freq 80 then 0.3
    else if Rltb freq 150 then 0.4
    else if Rltb freq schroederFreq then 0.5 else 0.7
  | polishing =>
    if Rltb freq 40 then 0.15 else if Rltb freq 80 then 0.2
    else if Rltb freq 150 then 0.25
    else if Rltb freq schroederFreq then 0.3 else 0.4
  | ultra_fine =>
    if Rltb freq 40 then 0.1 else if Rltb freq 80 then 0.15
    else if Rltb freq 150 then 0.2
    else if Rltb freq schroederFreq then 0.25 else 0.3
  end.

(** The weight the comparator of [significantErrors] gives to a point. *)
Definition errorWeight (schroederFreq : R) (a : Err.t) : R :=
  let aWeight := Math_abs (Err.error a) in
  if Rltb (Err.freq a) 60 then aWeight * 3.0
  else if Rltb (Err.freq a) 100 then aWeight * 2.0
  else if Rltb (Err.freq a) schroederFreq then aWeight * 1.5
  else aWeight.

Definition getMinSpacing (passType : PassType) (freq : R) : R :=
  match passType with
  | broad =>
    if Rltb freq 40 then 8 else if Rltb freq 80 then 12
    else if Rltb freq 150 then 18 else 25
  | targeted =>
    if Rltb freq 40 then 5 else if Rltb freq 80 then 8
    else if Rltb freq 150 then 12 else 15
  | polishing =>
    if Rltb freq 40 then 4 else if Rltb freq 80 then 6
    else if Rltb freq 150 then 8 else 10
  | ultra_fine =>
    if Rltb freq 40 then 3 else if Rltb freq 80 then 4
    else if Rltb freq 150 then 5 else 6
  end.

Record Zone := { zone_min : R; zone_max : R; zone_maxBands : Z }.

Definition ceilOf (maxBands : Z) (share : R) : Z :=
  Zceil (IZR maxBands * share).

Definition zonesFor (maxBands : Z) (schroederFreq : R) : list Zone :=
  if (maxBands <=? 12)%Z then
    [ {| zone_min := 20; zone_max := 50;
         zone_maxBands := ceilOf maxBands 0.25 |};
      {| zone_min := 50; zone_max := 100;
         zone_maxBands := ceilOf maxBands 0.30 |};
      {| zone_min := 100; zone_max := 180;
         zone_maxBands := ceilOf maxBands 0.25 |};
      {| zone_min := 180; zone_max := schroederFreq;
         zone_maxBands := ceilOf maxBands 0.12 |};
      {| zone_min := schroederFreq; zone_max := 300;
         zone_maxBands := ceilOf maxBands 0.08 |} ]
  else
    [ {| zone_min := 20; zone_max := 40;
         zone_maxBands := ceilOf maxBands 0.35 |};
      {| zone_min := 40; zone_max := 80;
         zone_maxBands := ceilOf maxBands 0.40 |};
      {| zone_min := 80; zone_max := 150;
         zone_maxBands := ceilOf maxBands 0.15 |};
      {| zone_min := 150; zone_max := schroederFreq;
         zone_maxBands := ceilOf maxBands 0.08 |};
      {| zone_min := schroederFreq; zone_max := 300;
         zone_maxBands := ceilOf maxBands 0.02 |} ].

(** The spacing test shared by the priority pass and the zone pass.
    [usedFrequencies] is a [Set] that is only ever asked [some]. *)
Definition wellSpaced (passType : PassType) (usedFrequencies : list R)
    (distributed : list Err.t) (error : Err.t) : bool :=
  let minSpacing := getMinSpacing passType (Err.freq error) in
  let tooCloseToExisting :=
    some (fun freq => Rltb (Math_abs (freq - Err.freq error)) minSpacing)
         usedFrequencies in
  let tooCloseToDistributed :=
    some (fun d => Rltb (Math_abs (Err.freq d - Err.freq error)) minSpacing)
         distributed in
  negb tooCloseToExisting && negb tooCloseToDistributed.

Fixpoint priorityLoop (passType : PassType) (maxBands : Z)
    (usedFrequencies : list R) (criticalLowFreqErrors : list Err.t)
    (distributed : list Err.t) : list Err.t :=
  match criticalLowFreqErrors with
  | [] => distributed
  | error :: rest =>
    if (len distributed >=? maxBands)%Z then distributed
    else if wellSpaced passType usedFrequencies distributed error
    then priorityLoop passType maxBands usedFrequencies rest
           (distributed ++ [error])
    else priorityLoop passType maxBands usedFrequencies rest distributed
  end.

Fixpoint zoneLoop (passType : PassType) (maxBands : Z)
    (usedFrequencies : list R) (zone : Zone) (zoneErrors : list Err.t)
    (zoneBands : Z) (distributed : list Err.t) : list Err.t :=
  match zoneErrors with
  | [] => distributed
  | error :: rest =>
    if (zoneBands >=? zone_maxBands zone)%Z
       || (len distributed >=? maxBands)%Z then distributed
    else if wellSpaced passType usedFrequencies distributed error
    then zoneLoop passType maxBands usedFrequencies zone rest
           (zoneBands + 1)%Z (distributed ++ [error])
    else zoneLoop passType maxBands usedFrequencies zone rest
           zoneBands distributed
  end.

Definition inZone (zone : Zone) (f : R) : bool :=
  Rgeb f (zone_min zone) && Rleb f (zone_max zone).

Definition zoneStep (passType : PassType) (maxBands : Z)
    (usedFrequencies : list R) (errors : list Err.t)
    (distributed : list Err.t) (zone : Zone) : list Err.t :=
  let zoneErrors :=
    filter (fun e =>
      inZone zone (Err.freq e)
      && negb (some (fun d => Rltb (Math_abs (Err.freq d - Err.freq e)) 1)
                    distributed)) errors in
  let zoneBands :=
    len (filter (fun d => inZone zone (Err.freq d)) distributed) in
  zoneLoop passType maxBands usedFrequencies zone zoneErrors zoneBands
           distributed.

Definition smartFrequencyDistribution (errors : list Err.t) (maxBands : Z)
    (schroederFreq : R) (usedFrequencies : list R) (passType : PassType)
    : list Err.t :=
  if Nat.eqb (length errors) 0 then []
  else
    let zones := zonesFor maxBands schroederFreq in
    let criticalLowFreqErrors :=
      filter (fun e => Rltb (Err.freq e) 80
                       && Rgtb (Math_abs (Err.error e)) 2.5) errors in
    let distributed :=
      priorityLoop passType maxBands usedFrequencies criticalLowFreqErrors []
    in
    fold_left (zoneStep passType maxBands usedFrequencies errors)
              zones distributed.

Definition calculatePassQ (frequency errorMagnitude : R)
    (passType : PassType) (minQ maxQ : R) (maxBands : Z) : R :=
  let isLowBandCount := negb (maxBands =? 0)%Z && (maxBands <=? 12)%Z in
  let qReductionFactor := if isLowBandCount then 0.6 else 1.0 in
  let pick (a b c d e f : R) :=
    if Rltb frequency 30 then a else if Rltb frequency 50 then b
    else if Rltb frequency 80 then c else if Rltb frequency 120 then d
    else if Rltb frequency 200 then e else f in
  let baseQ :=
    match passType with
    | broad => pick 1.8 2.2 2.8 3.2 3.8 4.5
    | targeted => pick 2.8 3.5 4.2 5.0 5.8 6.5
    | polishing => pick 4.0 2.8 3.5 4.5 5.5 7.0
    | ultra_fine => pick 5.0 4.0 4.8 6.0 7.5 9.0
    end in
  let baseQ := baseQ * qReductionFactor in
  let baseQ :=
    if Rgtb errorMagnitude 8 then baseQ * 0.8
    else if Rgtb errorMagnitude 5 then baseQ * 0.95
    else if Rgtb errorMagnitude 2 then baseQ * 1.05
    else baseQ * 1.15 in
  let '(effectiveMinQ, effectiveMaxQ) :=
    if Rltb frequency 40 then
      (Math_max (if isLowBandCount then 0.8 else 1.5) minQ,
       Math_min maxQ (if isLowBandCount then 4.0 else 6.0))
    else if Rltb frequency 80 then
      (Math_max (if isLowBandCount then 1.0 else 2.0) minQ,
       Math_min maxQ (if isLowBandCount then 5.0 else 8.0))
    else if Rltb frequency 200 then
      (Math_max (if isLowBandCount then 1.2 else 2.5) minQ,
       Math_min maxQ (if isLowBandCount then 6.0 else 10.0))
    else
      (Math_max (if isLowBandCount then 1.5 else 3.0) minQ,
       if isLowBandCount then Math_min maxQ 7.0 else maxQ) in
  Math_max effectiveMinQ (Math_min effectiveMaxQ baseQ).

Definition addSpectralBalanceCorrection (existingBands : list EQBand)
    (currentResponse targetResponse : list ModeResponse) (maxBands : Z)
    (maxCut schroederFreq : R) : option EQBand :=
  if (len existingBands >=? maxBands)%Z then None
  else
    let lowFreqCuts :=
      filter (fun band => Rgeb (frequency band) 20
                          && Rleb (frequency band) 120
                          && Rltb (gain band) 0) existingBands in
    if Nat.eqb (length lowFreqCuts) 0 then None
    else
      let totalLowFreqCut :=
        fold_left (fun sum band => sum + Math_abs (gain band)) lowFreqCuts 0 in
      let avgLowFreqCut := totalLowFreqCut / INR (length lowFreqCuts) in
      if Rltb avgLowFreqCut 2.0 then None
      else
        let highFreqRegion :=
          filter (fun p => Rgeb (freq p) 150 && Rleb (freq p) 280)
                 currentResponse in
        let highFreqTargets :=
          filter (fun p => Rgeb (freq p) 150 && Rleb (freq p) 280)
                 targetResponse in
        if Nat.eqb (length highFreqRegion) 0
           || Nat.eqb (length highFreqTargets) 0 then None
        else
          let '(totalHighFreqError, validPoints) :=
            fold_left (fun (acc : R * nat) currentPoint =>
              match find (fun t =>
                            Rltb (Math_abs (freq t - freq currentPoint)) 2)
                         highFreqTargets with
              | Some targetPoint =>
                let error := db currentPoint - db targetPoint in
                (fst acc + error, S (snd acc))
              | None => acc
              end) highFreqRegion (0, O) in
          if Nat.eqb validPoints 0 then None
          else
            let avgHighFreqError := totalHighFreqError / INR validPoints in
            if Rltb avgHighFreqError 1.5 then None
            else
              let compensationFreq := 200 in
              let compensationGain :=
                Math_max (- maxCut * 0.6) (- avgHighFreqError * 0.8) in
              let compensationQ := 0.8 in
              Some {| frequency := compensationFreq;
                      gain := Math_round (compensationGain * 10) / 10;
                      q := compensationQ;
                      type := peak |}.

(** The band that one accepted error point yields, if its gain is audible. *)
Definition bandFor (errorPoint : Err.t) (maxBands : Z) (passType : PassType)
    (maxBoost maxCut minQ maxQ smoothing schroederFreq : R) : option EQBand :=
  let requiredGain := - Err.error errorPoint * (1 - smoothing) in
  let frequencyScaling :=
    if Rltb (Err.freq errorPoint) 40 then 1.2
    else if Rltb (Err.freq errorPoint) 80 then 1.1
    else if Rltb (Err.freq errorPoint) 150 then 1.0
    else if Rltb (Err.freq errorPoint) schroederFreq then 0.9
    else 0.7 in
  let passScaling :=
    match passType with
    | broad => 0.95
    | targeted => 0.9
    | polishing => 0.85
    | ultra_fine => 0.8
    end in
  let requiredGain := requiredGain * (passScaling * frequencyScaling) in
  let requiredGain :=
    if Rgtb requiredGain 0 then Math_min requiredGain maxBoost
    else Math_max requiredGain (- maxCut) in
  if Rgtb (Math_abs requiredGain) 0.2 then
    let q := calculatePassQ (Err.freq errorPoint)
               (Math_abs (Err.error errorPoint)) passType minQ maxQ maxBands in
    Some {| frequency := Math_round (Err.freq errorPoint * 10) / 10;
            gain := Math_round (requiredGain * 10) / 10;
            q := Math_round (q * 10) / 10;
            type := peak |}
  else None.

Fixpoint bandLoop (maxBands : Z) (passType : PassType)
    (maxBoost maxCut minQ maxQ smoothing schroederFreq : R)
    (distributedErrors : list Err.t) (bands : list EQBand) : list EQBand :=
  match distributedErrors with
  | [] => bands
  | errorPoint :: rest =>
    if (len bands >=? maxBands)%Z then bands
    else
      match bandFor errorPoint maxBands passType maxBoost maxCut minQ maxQ
                    smoothing schroederFreq with
      | Some band =>
        bandLoop maxBands passType maxBoost maxCut minQ maxQ smoothing
                 schroederFreq rest (bands ++ [band])
      | None =>
        bandLoop maxBands passType maxBoost maxCut minQ maxQ smoothing
                 schroederFreq rest bands
      end
  end.

Definition generateEQPass (currentResponse targetResponse : list ModeResponse)
    (maxBands : Z) (passType : PassType)
    (maxBoost maxCut minQ maxQ smoothing schroederFreq : R)
    (usedFrequencies : list R) : list EQBand :=
  let errorAnalysis := analyzeTargetError currentResponse targetResponse in
  let significantErrors :=
    sort (fun a b => errorWeight schroederFreq b - errorWeight schroederFreq a)
      (filter (fun e => Rgtb (Math_abs (Err.error e))
                             (getErrorThreshold passType schroederFreq
                                                (Err.freq e)))
        (filter (fun e => Rleb (Err.freq e) 300)
                (errorByFrequency errorAnalysis))) in
  let distributedErrors :=
    smartFrequencyDistribution significantErrors maxBands schroederFreq
      usedFrequencies passType in
  let bands :=
    bandLoop maxBands passType maxBoost maxCut minQ maxQ smoothing
             schroederFreq distributedErrors [] in
  if PassType_eqb passType broad && (maxBands <=? 12)%Z then
    match addSpectralBalanceCorrection bands currentResponse targetResponse
            maxBands maxCut schroederFreq with
    | Some spectralBalanceBand => bands ++ [spectralBalanceBand]
    | None => bands
    end
  else bands.

(** *** Post-EQ analysis *)

Inductive ProblemType := problem_peak | problem_overshoot.

Module Problem.
Record t := { frequency : R; type : ProblemType; severity : R }.
End Problem.

Definition findNear (tol : R) (response : list ModeResponse) (f : R)
    : option ModeResponse :=
  find (fun p => Rltb (Math_abs (freq p - f)) tol) response.

(** The scan around the midpoint of two boost bands: in exact arithmetic the
    loop [for (checkFreq = midFreq - 8; checkFreq <= midFreq + 8;
    checkFreq += 0.5)] visits [midFreq - 8 + k / 2] for [k = 0 .. 32], and
    stops at the first overshoot above 2 dB. *)
Fixpoint scanMidpoint (eqResponse targetResponse : list ModeResponse)
    (checkFreqs : list R) : option Problem.t :=
  match checkFreqs with
  | [] => None
  | checkFreq :: rest =>
    match findNear 0.5 eqResponse checkFreq,
          findNear 0.5 targetResponse checkFreq with
    | Some eqPoint, Some targetPoint =>
      let overshoot := db eqPoint - db targetPoint in
      if Rgtb overshoot 2
      then Some {| Problem.frequency := checkFreq;
                   Problem.type := problem_peak;
                   Problem.severity := overshoot |}
      else scanMidpoint eqResponse targetResponse rest
    | _, _ => scanMidpoint eqResponse targetResponse rest
    end
  end.

Definition interactionProblem (eqResponse targetResponse : list ModeResponse)
    (band1 band2 : EQBand) : option Problem.t :=
  if Rgtb (Math_abs (frequency band2 - frequency band1)) 80 then None
  else
    let startFreq := Math_min (frequency band1) (frequency band2) in
    let endFreq := Math_max (frequency band1) (frequency band2) in
    let midFreq := (startFreq + endFreq) / 2 in
    scanMidpoint eqResponse targetResponse
      (map (fun k => midFreq - 8 + INR k * 0.5) (seq 0 33)).

Definition overcorrectionProblem (eqResponse targetResponse
    : list ModeResponse) (band : EQBand) : option Problem.t :=
  match findNear 1 eqResponse (frequency band),
        findNear 1 targetResponse (frequency band) with
  | Some eqPoint, Some targetPoint =>
    let overshoot := db eqPoint - db targetPoint in
    if Rgtb overshoot 3
    then Some {| Problem.frequency := frequency band;
                 Problem.type := problem_overshoot;
                 Problem.severity := overshoot |}
    else None
  | _, _ => None
  end.

Fixpoint optionals {A} (l : list (option A)) : list A :=
  match l with
  | [] => []
  | Some a :: l' => a :: optionals l'
  | None :: l' => optionals l'
  end.

(** Consecutive pairs [(l[i], l[i+1])]. *)
Fixpoint adjacentPairs {A} (l : list A) : list (A * A) :=
  match l with
  | a :: (b :: _) as l' => (a, b) :: adjacentPairs l'
  | _ => []
  end.

Definition analyzePostEQProblems (eqResponse targetResponse
    : list ModeResponse) (appliedBands : list EQBand) (schroederFreq : R)
    : list Problem.t :=
  let boostBands := filter (fun band => Rgtb (gain band) 0) appliedBands in
  if Nat.ltb (length boostBands) 2 then []
  else
    optionals
      (map (fun '(band1, band2) =>
              interactionProblem eqResponse targetResponse band1 band2)
           (adjacentPairs boostBands))
    ++ optionals
         (map (overcorrectionProblem eqResponse targetResponse) boostBands).

Definition generateCorrectiveBands (problems : list Problem.t)
    (maxCorrectiveBands : Z) : list EQBand :=
  let sortedProblems :=
    sort (fun a b => Problem.severity b - Problem.severity a) problems in
  map (fun problem =>
         let correctionGain := - Problem.severity problem * 0.95 in
         let correctionQ :=
           match Problem.type problem with
           | problem_peak => 3.5
           | problem_overshoot => 2.5
           end in
         {| frequency := Math_round (Problem.frequency problem * 10) / 10;
            gain := Math_round (correctionGain * 10) / 10;
            q := correctionQ;
            type := peak |})
      (firstn (Z.to_nat (Z.min (len sortedProblems) maxCorrectiveBands))
              sortedProblems).

(** *** The four passes *)

(** The options object of [generateOptimalEQ]; an absent field takes the
    default of the destructuring pattern.  The fields [subPos],
    [listenerPos], [roomDimensions] and [baseQFactor] are destructured but
    never read. *)
Module Opt.
Record t := {
  numBands : option nat;
  maxBoost : option R;
  maxCut : option R;
  smoothing : option R;
  minQ : option R;
  maxQ : option R;
  schroederFreq : option R;
  subPos : option Point;
  listenerPos : option Point;
  roomDimensions : option RoomDimensions;
  baseQFactor : option R
}.
End Opt.

Definition orDefault {A} (o : option A) (d : A) : A :=
  match o with Some a => a | None => d end.

Definition byFrequency (a b : EQBand) : R := frequency a - frequency b.

(** The value the returned promise resolves to.  [responseAfterPass1] is
    computed before the corrective bands are pushed onto [pass1Bands], so
    the second pass analyses the response without them. *)
Definition generateOptimalEQ (roomResponseWithTilt targetResponse
    : list ModeResponse) (options : Opt.t) : EQSettings :=
  let numBands := Z.of_nat (orDefault (Opt.numBands options) 20%nat) in
  let maxBoost := orDefault (Opt.maxBoost options) 12.0 in
  let maxCut := orDefault (Opt.maxCut options) 18.0 in
  let smoothing := orDefault (Opt.smoothing options) 0.02 in
  let minQ := orDefault (Opt.minQ options) 0.7 in
  let maxQ := orDefault (Opt.maxQ options) 10.0 in
  let schroederFreq := orDefault (Opt.schroederFreq options) 200 in
  let settings (bs : list EQBand) (on : bool) :=
    {| bands := bs; enabled := on; maxBoost := maxBoost; maxCut := maxCut;
       smoothing := smoothing |} in
  if Nat.eqb (length roomResponseWithTilt) 0
     || Nat.eqb (length targetResponse) 0
  then settings [] false
  else
    let analysisResponse := roomResponseWithTilt in
    (* PASS 1 *)
    let pass1MaxBands := Zceil (IZR numBands * 0.3) in
    let pass1Bands :=
      generateEQPass analysisResponse targetResponse pass1MaxBands broad
        (maxBoost * 0.95) (maxCut * 0.95) minQ (Math_min maxQ 6.0)
        (smoothing * 0.8) schroederFreq [] in
    let responseAfterPass1 :=
      applyEQToResponse analysisResponse (settings pass1Bands true) in
    let newProblems :=
      analyzePostEQProblems responseAfterPass1 targetResponse pass1Bands
                            schroederFreq in
    let pass1Bands :=
      if Nat.ltb 0 (length newProblems) then
        let correctiveBands :=
          generateCorrectiveBands newProblems
            (pass1MaxBands - len pass1Bands) in
        pass1Bands ++ correctiveBands
      else pass1Bands in
    (* PASS 2 *)
    let pass2MaxBands := Zceil (IZR numBands * 0.3) in
    let remainingAfterPass1 := (numBands - len pass1Bands)%Z in
    let pass2ActualBands := Z.min pass2MaxBands remainingAfterPass1 in
    let pass2Bands :=
      generateEQPass responseAfterPass1 targetResponse pass2ActualBands
        targeted (maxBoost * 0.9) (maxCut * 0.9) (minQ * 1.05) maxQ
        (smoothing * 0.7) schroederFreq (map frequency pass1Bands) in
    let responseAfterPass2 :=
      applyEQToResponse analysisResponse
        (settings (pass1Bands ++ pass2Bands) true) in
    (* PASS 3 *)
    let pass3MaxBands := Zceil (IZR numBands * 0.25) in
    let remainingAfterPass2 :=
      (numBands - len pass1Bands - len pass2Bands)%Z in
    let pass3ActualBands := Z.min pass3MaxBands remainingAfterPass2 in
    if (pass3ActualBands >? 0)%Z then
      let pass3Bands :=
        generateEQPass responseAfterPass2 targetResponse pass3ActualBands
          polishing (maxBoost * 0.8) (maxCut * 0.8) (minQ * 1.2) maxQ
          (smoothing * 0.4) schroederFreq
          (map frequency (pass1Bands ++ pass2Bands)) in
      let responseAfterPass3 :=
        applyEQToResponse analysisResponse
          (settings (pass1Bands ++ pass2Bands ++ pass3Bands) true) in
      (* PASS 4 *)
      let remainingAfterPass3 :=
        (numBands - len pass1Bands - len pass2Bands - len pass3Bands)%Z in
      if (remainingAfterPass3 >? 0)%Z then
        let pass4Bands :=
          generateEQPass responseAfterPass3 targetResponse
            remainingAfterPass3 ultra_fine (maxBoost * 0.7) (maxCut * 0.7)
            (minQ * 1.4) maxQ (smoothing * 0.2) schroederFreq
            (map frequency (pass1Bands ++ pass2Bands ++ pass3Bands)) in
        let allBands := pass1Bands ++ pass2Bands ++ pass3Bands ++ pass4Bands in
        settings (sort byFrequency allBands) true
      else
        let allBands := pass1Bands ++ pass2Bands ++ pass3Bands in
        settings (sort byFrequency allBands) true
    else
      let allBands := pass1Bands ++ pass2Bands in
      settings (sort byFrequency allBands) true.

(** ** What the specification says, in its own words *)

(** The straight line through [(x0, y0)] and [(x1, y1)]. *)
Definition lerp (x0 y0 x1 y1 t : R) : R :=
  y0 + (y1 - y0) * ((t - x0) / (x1 - x0)).

(** The piecewise-linear preference curve through (20, +7), (60, +4),
    (200, 0) and (300, -1), flat outside 20-300 Hz. *)
Definition harmanReference (f : R) : R :=
  if Rleb f 20 then 7
  else if Rleb f 60 then lerp 20 7 60 4 f
  else if Rleb f 200 then lerp 60 4 200 0 f
  else if Rleb f 300 then lerp 200 0 300 (-1) f
  else -1.

(** The bell transfer function [H(f)] of one band and its level in dB. *)
Definition bellTransfer (f : R) (band : EQBand) : R :=
  1 + (Rpower 10 (gain band / 20) - 1)
      / (1 + (q band * (f / frequency band - frequency band / f)) ^ 2).

Definition clamp (lo hi v : R) : R := Rmax lo (Rmin hi v).

Definition bellDb (f : R) (band : EQBand) : R :=
  clamp (-50) 20 (20 * (ln (bellTransfer f band) / ln 10)).

(** A band whose linear gain [10^(gain/20)] is beyond the largest double. *)
Definition gainOverflows (band : EQBand) : Prop :=
  MAX_VALUE < Rpower 10 (gain band / 20).

(** The bands the filter bank leaves out. *)
Definition ignoredBand (f : R) (band : EQBand) : Prop :=
  type band <> peak \/ f <= 0 \/ frequency band <= 0 \/ q band <= 0
  \/ Rabs (gain band) < 0.01.

Definition Rsum (l : list R) : R := fold_right Rplus 0 l.

(** The level the specification gives below the roll-off frequency. *)
Definition claimedRolloffDb (f rolloffFreq slope : R) : R :=
  harmanReference f - slope * (ln (rolloffFreq / f) / ln 2).


(** Matching of a current point to a target point.  [firstWithin1Hz] is the
    first target point, in sequence order, less than 1 Hz away;
    [nearestWithin1Hz] is the closest of the target points less than 1 Hz
    away (the earliest of them on a tie). *)
Definition firstWithin1Hz (targetResponse : list ModeResponse) (f : R)
    : option ModeResponse :=
  find (fun t => Rltb (Rabs (freq t - f)) 1) targetResponse.

Definition nearestWithin1Hz (targetResponse : list ModeResponse) (f : R)
    : option ModeResponse :=
  fold_left (fun best t =>
    if Rltb (Rabs (freq t - f)) 1 then
      match best with
      | None => Some t
      | Some b =>
        if Rltb (Rabs (freq t - f)) (Rabs (freq b - f)) then Some t else best
      end
    else best) targetResponse None.

Definition matchedPairs (currentResponse targetResponse : list ModeResponse)
    : list (ModeResponse * ModeResponse) :=
  flat_map (fun c =>
    match firstWithin1Hz targetResponse (freq c) with
    | Some t => [(c, t)]
    | None => []
    end) currentResponse.

Definition pairError (ct : ModeResponse * ModeResponse) : R :=
  db (fst ct) - db (snd ct).

Definition pairEntry (ct : ModeResponse * ModeResponse) : Err.t :=
  {| Err.freq := freq (fst ct); Err.error := pairError ct;
     Err.currentDb := db (fst ct); Err.targetDb := db (snd ct) |}.

(** A well-formed simulator result: 281 points on the grid 20, 21, ...,
    300 Hz, none below -100 dB. *)
Definition gridResponse (r : list ModeResponse) : Prop :=
  length r = 281%nat
  /\ map freq r = map (fun k => 20 + INR k) (seq 0 281)
  /\ Forall (fun p => -100 <= db p) r.

(** Every array the cache refers to is still a simulator result: no caller
    has written to it. *)
Definition cacheIntact (st : State) : Prop :=
  forall k a, In (k, a) (responseCache st) -> gridResponse (deref st a).

(** Every entry the cache holds under the key [k] refers to the array [r]:
    the entry, if there is one, is not stale for a call that computes [r]. *)
Definition cacheAgrees (st : State) (k : CacheKey) (r : list ModeResponse)
    : Prop :=
  forall k' a, In (k', a) (responseCache st) -> CacheKey_eqb k' k = true ->
               deref st a = r.

(** Every array the cache refers to is allocated. *)
Definition cacheAllocated (st : State) : Prop :=
  forall k a, In (k, a) (responseCache st) -> (a < length (heap st))%nat.

(** The bands the first pass generates, before the post-EQ analysis. *)
Definition pass1BandsOf (roomResponse targetResponse : list ModeResponse)
    (options : Opt.t) : list EQBand :=
  let numBands := Z.of_nat (orDefault (Opt.numBands options) 20%nat) in
  let maxBoost := orDefault (Opt.maxBoost options) 12.0 in
  let maxCut := orDefault (Opt.maxCut options) 18.0 in
  let smoothing := orDefault (Opt.smoothing options) 0.02 in
  let minQ := orDefault (Opt.minQ options) 0.7 in
  let maxQ := orDefault (Opt.maxQ options) 10.0 in
  let schroederFreq := orDefault (Opt.schroederFreq options) 200 in
  generateEQPass roomResponse targetResponse (Zceil (IZR numBands * 0.3))
    broad (maxBoost * 0.95) (maxCut * 0.95) minQ (Math_min maxQ 6.0)
    (smoothing * 0.8) schroederFreq [].

(** The corrective bands that the post-EQ analysis of the first pass appends
    to it (none when the analysis finds no problem). *)
Definition correctiveBandsOf (roomResponse targetResponse : list ModeResponse)
    (options : Opt.t) : list EQBand :=
  let numBands := Z.of_nat (orDefault (Opt.numBands options) 20%nat) in
  let maxBoost := orDefault (Opt.maxBoost options) 12.0 in
  let maxCut := orDefault (Opt.maxCut options) 18.0 in
  let smoothing := orDefault (Opt.smoothing options) 0.02 in
  let schroederFreq := orDefault (Opt.schroederFreq options) 200 in
  let pass1MaxBands := Zceil (IZR numBands * 0.3) in
  let pass1Bands := pass1BandsOf roomResponse targetResponse options in
  let responseAfterPass1 :=
    applyEQToResponse roomResponse
      {| bands := pass1Bands; enabled := true; maxBoost := maxBoost;
         maxCut := maxCut; smoothing := smoothing |} in
  let newProblems :=
    analyzePostEQProblems responseAfterPass1 targetResponse pass1Bands
                          schroederFreq in
  if Nat.ltb 0 (length newProblems) then
    generateCorrectiveBands newProblems (pass1MaxBands - len pass1Bands)
  else [].

(** The bound the specification puts on the gain of a band. *)
Definition gainCap (options : Opt.t) : R :=
  0.95 * Rmax (orDefault (Opt.maxBoost options) 12.0)
              (orDefault (Opt.maxCut options) 18.0).

(** What a later pass with budget [M] and limits scaled by [k] returns. *)
Definition withinPass (options : Opt.t) (M : Z) (k : R) (bs : list EQBand)
    : Prop :=
  (len bs <= Z.max 0 M)%Z
  /\ (0 <= orDefault (Opt.maxBoost options) 12.0 ->
      0 <= orDefault (Opt.maxCut options) 18.0 ->
      Forall (fun band =>
        Rabs (gain band)
        <= Rmax (orDefault (Opt.maxBoost options) 12.0 * k)
                (orDefault (Opt.maxCut options) 18.0 * k) + 0.05) bs).

(** ** Two concrete runs of the generator *)

(** A single point 25 dB below a flat target, one band, limits of 12.5 dB. *)
Definition singlePointRoom : list ModeResponse :=
  [ {| freq := 30; db := -25 |} ].

Definition singlePointTarget : list ModeResponse :=
  [ {| freq := 30; db := 0 |} ].

Definition oneBandOptions : Opt.t :=
  {| Opt.numBands := Some 1%nat; Opt.maxBoost := Some 12.5;
     Opt.maxCut := Some 12.5; Opt.smoothing := None; Opt.minQ := None;
     Opt.maxQ := None; Opt.schroederFreq := None; Opt.subPos := None;
     Opt.listenerPos := None; Opt.roomDimensions := None;
     Opt.baseQFactor := None |}.

(** The band the first pass produces for it. *)
Definition roundedBoost : EQBand :=
  {| frequency := 30; gain := 11.9; q := 1.1; type := peak |}.

Definition lowError : Err.t :=
  {| Err.freq := 30; Err.error := -25 - 0; Err.currentDb := -25;
     Err.targetDb := 0 |}.

(** Two deep dips at 30 and 46 Hz around a 24 dB peak at 37 Hz, against a
    flat target, with seven bands and the default limits (12 and 18 dB). *)
Definition threePointRoom : list ModeResponse :=
  [ {| freq := 30; db := -25 |}; {| freq := 37; db := 24 |};
    {| freq := 46; db := -25 |} ].

Definition threePointTarget : list ModeResponse :=
  [ {| freq := 30; db := 0 |}; {| freq := 37; db := 0 |};
    {| freq := 46; db := 0 |} ].

Definition sevenBandOptions : Opt.t :=
  {| Opt.numBands := Some 7%nat; Opt.maxBoost := None; Opt.maxCut := None;
     Opt.smoothing := None; Opt.minQ := None; Opt.maxQ := None;
     Opt.schroederFreq := None; Opt.subPos := None; Opt.listenerPos := None;
     Opt.roomDimensions := None; Opt.baseQFactor := None |}.

Definition error30 : Err.t :=
  {| Err.freq := 30; Err.error := -25 - 0; Err.currentDb := -25;
     Err.targetDb := 0 |}.

Definition error37 : Err.t :=
  {| Err.freq := 37; Err.error := 24 - 0; Err.currentDb := 24;
     Err.targetDb := 0 |}.

Definition error46 : Err.t :=
  {| Err.freq := 46; Err.error := -25 - 0; Err.currentDb := -25;
     Err.targetDb := 0 |}.

Definition boost30 : EQBand :=
  {| frequency := 30; gain := 11.4; q := 1.1; type := peak |}.

Definition boost46 : EQBand :=
  {| frequency := 46; gain := 11.4; q := 1.1; type := peak |}.

(** A response on the three frequencies of [threePointRoom]. *)
Definition threePointResponse (d30 d37 d46 : R) : list ModeResponse :=
  [ {| freq := 30; db := d30 |}; {| freq := 37; db := d37 |};
    {| freq := 46; db := d46 |} ].

(** * The rest of the module *)

(** ** Room geometry *)

Definition clampToRoom (point : Point) (room : RoomDimensions) : Point :=
  {| x := Math_min (Math_max 0 (x point)) (L room);
     y := Math_min (Math_max 0 (y point)) (W room);
     z := Math_min (Math_max 0 (z point)) (H room) |}.

(** [averageAbsorption] is an optional argument with default 0.15.  The
    division by [totalAbsorption] is the one the source does not guard: the
    surface term can only vanish when two of the dimensions are negative. *)
Definition calculateSchroederFrequency (room : RoomDimensions)
    (averageAbsorption : option R) : R :=
  let averageAbsorption := orDefault averageAbsorption 0.15 in
  let volume := L room * W room * H room in
  if Rleb volume 0 then 0
  else
    let surfaceArea :=
      2 * (L room * W room + L room * H room + W room * H room) in
    let totalAbsorption := Math_max 0.01 averageAbsorption * surfaceArea in
    let rt60 := 0.161 * volume / totalAbsorption in
    let clampedRT60 := Math_max 0.2 (Math_min 1.5 rt60) in
    let schroederFreq := 2000 * Math_sqrt (clampedRT60 / volume) in
    Math_round (schroederFreq * 10) / 10.

(** ** Speaker data *)

(** Of the [responses] object only the [ListeningWindow] curve is ever read;
    [None] stands for a missing object or a missing curve. *)
Record SpeakerData := {
  freqs : list R;
  ListeningWindow : option (list R)
}.

Definition dBToLinear (db : R) : R := Math_pow 10 (db / 20).

Definition interpolate (x x1 x2 y1 y2 : R) : R :=
  if Rseq x1 x2 then y1
  else
    let t := (x - x1) / (x2 - x1) in
    y1 + t * (y2 - y1).

(** The linear scan of [findBracket], from index [i] on. *)
Fixpoint findBracket_scan (arr : list R) (value : R) (i : nat)
    : option (nat * nat) :=
  match arr with
  | a :: (b :: _) as rest =>
    if Rgeb value a && Rltb value b then Some (i, S i)
    else findBracket_scan rest value (S i)
  | _ => None
  end.

Definition findBracket (arr : list R) (value : R) : nat * nat :=
  if Nat.eqb (length arr) 0 then (O, O)
  else if Nat.eqb (length arr) 1 || Rleb value (nth 0 arr 0) then (O, O)
  else if Rgeb value (nth (length arr - 1) arr 0)
  then ((length arr - 1)%nat, (length arr - 1)%nat)
  else
    match findBracket_scan arr value 0 with
    | Some bracket => bracket
    | None => ((length arr - 2)%nat, (length arr - 1)%nat)
    end.

Definition speakerGainLinear (speaker : option SpeakerData) (freq : R) : R :=
  match speaker with
  | None => 1
  | Some speaker =>
    match ListeningWindow speaker with
    | None => 1
    | Some listeningWindowCurve =>
      if Nat.eqb (length listeningWindowCurve) 0 then 1
      else if negb (Nat.eqb (length (freqs speaker))
                            (length listeningWindowCurve)) then 1
      else if Nat.eqb (length (freqs speaker)) 0 then 1
      else
        let '(loF, hiF) := findBracket (freqs speaker) freq in
        let dbAtLoF := nth loF listeningWindowCurve 0 in
        let dbAtHiF := nth hiF listeningWindowCurve 0 in
        let interpolatedDb :=
          interpolate freq (nth loF (freqs speaker) 0)
                      (nth hiF (freqs speaker) 0) dbAtLoF dbAtHiF in
        dBToLinear interpolatedDb
    end
  end.

(** ** Feature detection *)

Inductive FeatureType := feature_mode | feature_resonance | feature_dip.

Module Feature.
Record t := {
  frequency : R;
  amplitude : R;
  prominence : R;
  width : R;
  type : FeatureType
}.
End Feature.

Definition interpolateFrequencyForDbLevel (targetDb freq1 db1 freq2 db2 : R)
    : R :=
  if Rseq db1 db2 then freq2
  else
    let interpolatedFreq :=
      freq1 + (freq2 - freq1) * (targetDb - db1) / (db2 - db1) in
    let minFreq := Math_min freq1 freq2 in
    let maxFreq := Math_max freq1 freq2 in
    Math_max minFreq (Math_min maxFreq interpolatedFreq).

(** One of the two searches of [estimatePeakWidth].  [outward] holds the
    points on one side of the centre, nearest first, and [prevPoint] is the
    point one step closer to the centre.  The search stops at the first
    point that has crossed [targetLevel], and at the edge of the data
    otherwise; [None] means that the loop body never ran. *)
Fixpoint searchEdge (isPositivePeak : bool) (targetLevel : R)
    (prevPoint : ModeResponse) (outward : list ModeResponse) : option R :=
  match outward with
  | [] => None
  | currentPoint :: rest =>
    if (isPositivePeak && Rleb (db currentPoint) targetLevel)
       || (negb isPositivePeak && Rgeb (db currentPoint) targetLevel)
    then
      if negb (Rseq (db prevPoint) (db currentPoint)) then
        if (isPositivePeak && Rgtb (db prevPoint) targetLevel
            && Rleb (db currentPoint) targetLevel)
           || (negb isPositivePeak && Rltb (db prevPoint) targetLevel
               && Rgeb (db currentPoint) targetLevel)
        then Some (interpolateFrequencyForDbLevel targetLevel
                     (freq prevPoint) (db prevPoint)
                     (freq currentPoint) (db currentPoint))
        else Some (freq currentPoint)
      else Some (freq currentPoint)
    else
      match rest with
      | [] => Some (freq currentPoint)
      | _ :: _ => searchEdge isPositivePeak targetLevel currentPoint rest
      end
  end.

Definition estimatePeakWidth (response : list ModeResponse)
    (centerIndex : nat) : R :=
  match nth_error response centerIndex with
  | None => 0
  | Some center =>
    let centerDb := db center in
    let centerFreq := freq center in
    let isPositivePeak :=
      Nat.ltb 0 centerIndex && Nat.ltb centerIndex (length response - 1)
      && Rgtb (db center) (db (nth (centerIndex - 1) response center))
      && Rgtb (db center) (db (nth (centerIndex + 1) response center)) in
    let targetLevel := if isPositivePeak then centerDb - 3 else centerDb + 3 in
    let leftFreq :=
      match searchEdge isPositivePeak targetLevel center
              (rev (firstn centerIndex response)) with
      | Some f => f
      | None => freq (nth 0 response center)
      end in
    let rightFreq :=
      match searchEdge isPositivePeak targetLevel center
              (skipn (S centerIndex) response) with
      | Some f => f
      | None => freq (nth (length response - 1) response center)
      end in
    let width := rightFreq - leftFreq in
    if Rgtb width 0 then width else 0
  end.

(** The moving average over up to seven points that precedes the search. *)
Definition smoothResponse (roomResponse : list ModeResponse)
    : list ModeResponse :=
  let smoothingWindow := 3%nat in
  map (fun i =>
         let point := nth i roomResponse {| freq := 0; db := 0 |} in
         let start := (i - smoothingWindow)%nat in
         let end_ := Nat.min (length roomResponse - 1) (i + smoothingWindow) in
         let sum :=
           fold_left (fun acc p => acc + db p)
                     (firstn (end_ + 1 - start) (skipn start roomResponse))
                     0 in
         {| freq := freq point; db := sum / INR (end_ - start + 1) |})
      (seq 0 (length roomResponse)).

(** What one index of the main loop pushes onto [features]. *)
Definition featuresAt (smoothedResponse : list ModeResponse)
    (schroederFreq : R) (i : nat) : list Feature.t :=
  let at_ k := nth k smoothedResponse {| freq := 0; db := 0 |} in
  let current := at_ i in
  let prev3 := at_ (i - 3)%nat in
  let prev2 := at_ (i - 2)%nat in
  let prev1 := at_ (i - 1)%nat in
  let next1 := at_ (i + 1)%nat in
  let next2 := at_ (i + 2)%nat in
  let next3 := at_ (i + 3)%nat in
  let peaks :=
    if Rgtb (db current) (db prev3) && Rgtb (db current) (db prev2)
       && Rgtb (db current) (db prev1) && Rgtb (db current) (db next1)
       && Rgtb (db current) (db next2) && Rgtb (db current) (db next3)
    then
      let localMin :=
        Math_min (db prev3) (Math_min (db prev2) (Math_min (db prev1)
          (Math_min (db next1) (Math_min (db next2) (db next3))))) in
      let prominence := db current - localMin in
      let minProminence :=
        if Rltb (freq current) schroederFreq then 1.0 else 0.8 in
      if Rgtb prominence minProminence then
        let width := estimatePeakWidth smoothedResponse i in
        [ {| Feature.frequency := freq current;
             Feature.amplitude := db current;
             Feature.prominence := prominence;
             Feature.width := width;
             Feature.type :=
               if Rltb (freq current) schroederFreq
               then feature_mode else feature_resonance |} ]
      else []
    else [] in
  let dips :=
    if Rltb (db current) (db prev3) && Rltb (db current) (db prev2)
       && Rltb (db current) (db prev1) && Rltb (db current) (db next1)
       && Rltb (db current) (db next2) && Rltb (db current) (db next3)
    then
      let localMax :=
        Math_max (db prev3) (Math_max (db prev2) (Math_max (db prev1)
          (Math_max (db next1) (Math_max (db next2) (db next3))))) in
      let prominence := localMax - db current in
      let minProminence :=
        if Rltb (freq current) schroederFreq then 1.5 else 1.0 in
      if Rgtb prominence minProminence then
        let width := estimatePeakWidth smoothedResponse i in
        [ {| Feature.frequency := freq current;
             Feature.amplitude := db current;
             Feature.prominence := prominence;
             Feature.width := width;
             Feature.type := feature_dip |} ]
      else []
    else [] in
  peaks ++ dips.

Definition detectResponseFeatures (roomResponse : list ModeResponse)
    (schroederFreq : R) : list Feature.t :=
  let smoothedResponse := smoothResponse roomResponse in
  let features :=
    flat_map (featuresAt smoothedResponse schroederFreq)
             (seq 3 (length smoothedResponse - 6)) in
  sort (fun a b => Feature.prominence b - Feature.prominence a) features.

(** What the main loop of [detectResponseFeatures] can push at index [i]. *)
Definition featureAt (smoothedResponse : list ModeResponse) (i : nat)
    (f : Feature.t) : Prop :=
  0.8 < Feature.prominence f
  /\ 0 <= Feature.width f
  /\ (Feature.type f = feature_dip -> 1 < Feature.prominence f)
  /\ Feature.frequency f
     = freq (nth i smoothedResponse {| freq := 0; db := 0 |}).

(** ** The simulator's cache, seen from outside *)

Definition clearResponseCache (st : State) : State :=
  {| heap := heap st; responseCache := [] |}.

(** [size] and [keys] of the statistics object. *)
Definition getCacheStats (st : State) : nat * list CacheKey :=
  (length (responseCache st), map fst (responseCache st)).

Definition simulateRoomResponseForEQ (subPos listenerPos : Point)
    (L W H : R) (maxModeOrder : nat) (baseQFactor : R) (st : State)
    : Loc * State :=
  simulateRoomResponse subPos listenerPos L W H maxModeOrder baseQFactor st.

(** What a client of the module can do to its state: call the simulator,
    clear the cache, or write into an array it was handed. *)
Inductive CacheOp :=
| op_simulate (subPos listenerPos : Point) (L W H : R) (maxModeOrder : nat)
              (baseQFactor : R)
| op_clear
| op_write (a : Loc) (v : list ModeResponse).

Definition runOp (st : State) (op : CacheOp) : State :=
  match op with
  | op_simulate subPos listenerPos L W H maxModeOrder baseQFactor =>
    snd (simulateRoomResponse subPos listenerPos L W H maxModeOrder
                              baseQFactor st)
  | op_clear => clearResponseCache st
  | op_write a v => mutate st a v
  end.

(** A client that only calls the module and never writes into an array it
    was handed. *)
Definition neverWrites (ops : list CacheOp) : Prop :=
  Forall (fun op => match op with op_write _ _ => False | _ => True end) ops.

(** A module state whose cache is full: fifty entries that differ in the
    mode order of their keys. *)
Definition keyOfOrder (maxModeOrder : nat) : CacheKey :=
  {| key_sub := {| x := 0; y := 0; z := 0 |};
     key_listener := {| x := 0; y := 0; z := 0 |};
     key_room := {| L := 5; W := 4; H := 3 |};
     key_maxModeOrder := maxModeOrder;
     key_baseQFactor := 10 |}.

Definition fullCache : State :=
  {| heap := repeat [] 50;
     responseCache := map (fun k => (keyOfOrder k, k)) (seq 0 50) |}.

(** A selection of error points keeps its spacing when every selected point
    is at least its own minimum spacing away from every frequency already in
    use and from every point selected before it. *)
Definition keepsSpacing (passType : PassType) (usedFrequencies : list R)
    (selected : list Err.t) : Prop :=
  Forall (fun e => forall u, In u usedFrequencies ->
            getMinSpacing passType (Err.freq e) <= Rabs (u - Err.freq e))
         selected
  /\ forall i j d, (i < j < length selected)%nat ->
       getMinSpacing passType (Err.freq (nth j selected d))
       <= Rabs (Err.freq (nth i selected d) - Err.freq (nth j selected d)).

(** The form of every band the generators emit: a peak filter whose
    frequency and gain are whole tenths. *)
Definition tenth (v : R) : Prop := exists n : Z, v = IZR n / 10.

Definition peakOnGrid (band : EQBand) : Prop :=
  type band = peak /\ tenth (frequency band) /\ tenth (gain band).

(** ** Target alignment *)

Definition calculateOptimalHarmanOffset (roomResponse harmanTargetData
    : list ModeResponse) : R :=
  if Nat.eqb (length roomResponse) 0 || Nat.eqb (length harmanTargetData) 0
  then 0
  else
    let ANALYSIS_FREQ_MIN := 80 in
    let ANALYSIS_FREQ_MAX := 200 in
    let roomMidband :=
      filter (fun p => Rgeb (freq p) ANALYSIS_FREQ_MIN
                       && Rleb (freq p) ANALYSIS_FREQ_MAX) roomResponse in
    let harmanMidband :=
      filter (fun p => Rgeb (freq p) ANALYSIS_FREQ_MIN
                       && Rleb (freq p) ANALYSIS_FREQ_MAX)
             harmanTargetData in
    if Nat.ltb (length roomMidband) 3 || Nat.ltb (length harmanMidband) 3
    then 0
    else
      let roomAverage :=
        fold_left (fun sum p => sum + db p) roomMidband 0
        / INR (length roomMidband) in
      let harmanAverage :=
        fold_left (fun sum p => sum + db p) harmanMidband 0
        / INR (length harmanMidband) in
      let initialOffset := roomAverage - harmanAverage in
      let MIN_OFFSET := 60 in
      let MAX_OFFSET := 95 in
      let clampedOffset :=
        Math_max MIN_OFFSET (Math_min MAX_OFFSET initialOffset) in
      Math_round (clampedOffset * 2) / 2.

(** ** Correction EQ and merging *)

Definition calculateAdaptiveQ (frequency prominence correctionGain
    minQ maxQ : R) : R :=
  let baseQ :=
    if Rltb frequency 60 then 1.5
    else if Rltb frequency 120 then 2.0
    else if Rltb frequency 200 then 2.5
    else 3.0 in
  let baseQ :=
    if Rgtb prominence 6 then baseQ * 1.3
    else if Rltb prominence 2 then baseQ * 0.7
    else baseQ in
  let absGain := Math_abs correctionGain in
  let baseQ :=
    if Rgtb absGain 8 then baseQ * 1.2
    else if Rltb absGain 3 then baseQ * 0.8
    else baseQ in
  Math_max minQ (Math_min maxQ baseQ).

(** The options object of [generateCorrectionEQ]. *)
Module CorrOpt.
Record t := {
  numBands : option nat;
  maxBoost : option R;
  maxCut : option R;
  smoothing : option R;
  minQ : option R;
  maxQ : option R;
  schroederFreq : option R;
  learningRate : option R;
  iteration : option R
}.
End CorrOpt.

(** The band for one significant error, unless the correction is too
    small. *)
Definition correctionBandFor (errorPoint : Err.t)
    (maxBoost maxCut minQ maxQ learningRate iteration : R) : option EQBand :=
  let requiredGain := - Err.error errorPoint * learningRate in
  let iterationScaling := Math_max 0.3 (1.0 - (iteration - 1) * 0.15) in
  let requiredGain := requiredGain * iterationScaling in
  let requiredGain :=
    if Rgtb requiredGain 0 then Math_min requiredGain maxBoost
    else Math_max requiredGain (- maxCut) in
  let minCorrectionThreshold :=
    if Rltb (Err.freq errorPoint) 80 then 0.4
    else if Rltb (Err.freq errorPoint) 200 then 0.3
    else 0.25 in
  if Rltb (Math_abs requiredGain) minCorrectionThreshold then None
  else
    let q := calculateAdaptiveQ (Err.freq errorPoint)
               (Math_abs (Err.error errorPoint)) requiredGain minQ maxQ in
    Some {| frequency := Math_round (Err.freq errorPoint * 10) / 10;
            gain := Math_round (requiredGain * 10) / 10;
            q := Math_round (q * 10) / 10;
            type := peak |}.

(** The band for one distributed frequency, if both responses have a point
    near it and the correction is large enough. *)
Definition distributedBandFor (pfreq : R)
    (currentResponse targetResponse : list ModeResponse)
    (maxBoost maxCut minQ maxQ learningRate iteration : R) : option EQBand :=
  match find (fun r => Rltb (Math_abs (freq r - pfreq)) (pfreq * 0.1))
             currentResponse,
        find (fun t => Rltb (Math_abs (freq t - pfreq)) (pfreq * 0.1))
             targetResponse with
  | Some currentPoint, Some targetPoint =>
    let error := db currentPoint - db targetPoint in
    let requiredGain := - error * learningRate * 0.5 in
    let iterationScaling := Math_max 0.2 (1.0 - (iteration - 1) * 0.2) in
    let requiredGain := requiredGain * iterationScaling in
    let requiredGain :=
      if Rgtb requiredGain 0 then Math_min requiredGain (maxBoost * 0.6)
      else Math_max requiredGain (- maxCut * 0.6) in
    if Rgtb (Math_abs requiredGain) 0.5 then
      let q := calculateAdaptiveQ pfreq (Math_abs error) requiredGain minQ
                                  (Math_min maxQ 4.0) in
      Some {| frequency := Math_round (pfreq * 10) / 10;
              gain := Math_round (requiredGain * 10) / 10;
              q := Math_round (q * 10) / 10;
              type := peak |}
    else None
  | _, _ => None
  end.

(** For [schroederFreq <= -20] the source takes the logarithm of a number
    that is not positive; that case is outside the model. *)
Definition generateCorrectionEQ (currentResponse targetResponse
    : list ModeResponse) (options : CorrOpt.t) : EQSettings :=
  let numBands := orDefault (CorrOpt.numBands options) 15%nat in
  let maxBoost := orDefault (CorrOpt.maxBoost options) 6.0 in
  let maxCut := orDefault (CorrOpt.maxCut options) 12.0 in
  let smoothing := orDefault (CorrOpt.smoothing options) 0.2 in
  let minQ := orDefault (CorrOpt.minQ options) 0.7 in
  let maxQ := orDefault (CorrOpt.maxQ options) 6.0 in
  let schroederFreq := orDefault (CorrOpt.schroederFreq options) 200 in
  let learningRate := orDefault (CorrOpt.learningRate options) 0.7 in
  let iteration := orDefault (CorrOpt.iteration options) 1 in
  let errorAnalysis := analyzeTargetError currentResponse targetResponse in
  let significantErrors :=
    firstn numBands
      (sort (fun a b => Math_abs (Err.error b) - Math_abs (Err.error a))
         (filter (fun e => Rleb (Err.freq e) (schroederFreq + 20))
            (filter (fun e => Rgtb (Math_abs (Err.error e)) 0.5)
                    (errorByFrequency errorAnalysis)))) in
  let remainingBands := (numBands - length significantErrors)%nat in
  let distributedFrequencies :=
    if Nat.ltb 0 remainingBands then
      let minFreq := 20 in
      let maxFreq := Math_min 300 (schroederFreq + 20) in
      let logMin := Math_log10 minFreq in
      let logMax := Math_log10 maxFreq in
      flat_map (fun i =>
        let ratio := INR i / Math_max 1 (INR remainingBands - 1) in
        let logFreq := logMin + ratio * (logMax - logMin) in
        let pfreq := Math_pow 10 logFreq in
        let tooClose :=
          some (fun e => Rltb (Math_abs (Err.freq e - pfreq)) (pfreq * 0.2))
               significantErrors in
        if negb tooClose then [pfreq] else [])
        (seq 0 remainingBands)
    else [] in
  let bands :=
    optionals
      (map (fun errorPoint =>
              correctionBandFor errorPoint maxBoost maxCut minQ maxQ
                                learningRate iteration)
           significantErrors) in
  let bands :=
    bands
    ++ optionals
         (map (fun pfreq =>
                 distributedBandFor pfreq currentResponse targetResponse
                   maxBoost maxCut minQ maxQ learningRate iteration)
              (firstn (numBands - length bands) distributedFrequencies)) in
  {| bands := bands; enabled := true; maxBoost := maxBoost;
     maxCut := maxCut; smoothing := smoothing |}.

(** [findIndex]: the position of the first element that satisfies [p]. *)
Fixpoint findIndex {A} (p : A -> bool) (l : list A) : option nat :=
  match l with
  | [] => None
  | a :: l' => if p a then Some O else option_map S (findIndex p l')
  end.

(** One round of the loop over the correction bands. *)
Definition mergeStep (maxBands : nat) (mergedBands : list EQBand)
    (correctionBand : EQBand) : list EQBand :=
  match findIndex (fun band =>
          Rltb (Math_abs (frequency band - frequency correctionBand))
               (frequency correctionBand * 0.15)) mergedBands with
  | Some existingBandIndex =>
    let existingBand := nth existingBandIndex mergedBands correctionBand in
    let combinedGain := gain existingBand + gain correctionBand * 0.8 in
    let combinedQ := (q existingBand + q correctionBand) / 2 in
    let finalGain := Math_max (-30) (Math_min 15 combinedGain) in
    let finalQ := Math_max 0.5 (Math_min 8 combinedQ) in
    list_set mergedBands existingBandIndex
      {| frequency := frequency existingBand;
         gain := Math_round (finalGain * 10) / 10;
         q := Math_round (finalQ * 10) / 10;
         type := type existingBand |}
  | None =>
    if Nat.ltb (length mergedBands) maxBands
    then mergedBands ++ [correctionBand]
    else mergedBands
  end.

Definition mergeEQSettings (baseEQ correctionEQ : EQSettings)
    (maxBands : nat) : EQSettings :=
  let mergedBands :=
    fold_left (mergeStep maxBands) (bands correctionEQ) (bands baseEQ) in
  let mergedBands := sort byFrequency mergedBands in
  let finalBands := firstn maxBands mergedBands in
  let effectiveBands :=
    filter (fun band => Rgeb (Math_abs (gain band)) 0.2) finalBands in
  {| bands := effectiveBands; enabled := enabled baseEQ;
     maxBoost := maxBoost baseEQ; maxCut := maxCut baseEQ;
     smoothing := smoothing baseEQ |}.

(** Where a band of the merged list comes from. *)
Definition mergedFrom (baseEQ correctionEQ : EQSettings) (band : EQBand)
    : Prop :=
  In band (bands baseEQ) \/ In band (bands correctionEQ)
  \/ (-30 <= gain band <= 15 /\ 0.5 <= q band <= 8
      /\ exists existing,
           In existing (bands baseEQ ++ bands correctionEQ)
           /\ frequency band = frequency existing
           /\ type band = type existing).

(** ** Room mode analysis *)

Inductive ModeType := axial | tangential | oblique.

Module Mode.
Record t := {
  frequency : R;
  amplitude : R;
  nMode : nat;
  mMode : nat;
  lMode : nat;
  coupling : R;
  type : ModeType
}.
End Mode.

(** One pass through the body of the innermost loop of [analyzeRoomModes]:
    the mode it pushes, unless the pass ends in [continue]. *)
Definition analyzeMode (subPos listenerPos : Point) (L W H : R)
    (n m l : nat) : option Mode.t :=
  if Nat.eqb n 0 && Nat.eqb m 0 && Nat.eqb l 0 then None
  else if Rseq L 0 && negb (Nat.eqb n 0) then None
  else if Rseq W 0 && negb (Nat.eqb m 0) then None
  else if Rseq H 0 && negb (Nat.eqb l 0) then None
  else
    let termL := if Rseq L 0 then 0 else INR n / L in
    let termW := if Rseq W 0 then 0 else INR m / W in
    let termH := if Rseq H 0 then 0 else INR l / H in
    let fMode := (SPEED_OF_SOUND / 2)
                 * Math_sqrt (termL ^ 2 + termW ^ 2 + termH ^ 2) in
    if Rleb fMode 0 || Rgtb fMode 300 then None
    else
      let subPressure :=
        calculateModePressure n m l subPos {| L := L; W := W; H := H |} in
      let listenerPressure :=
        calculateModePressure n m l listenerPos {| L := L; W := W; H := H |} in
      let coupling := subPressure * listenerPressure in
      if Rltb (Math_abs coupling) 0.1 then None
      else
        let nonZeroIndices :=
          ((if Nat.ltb 0 n then 1 else 0) + (if Nat.ltb 0 m then 1 else 0)
           + (if Nat.ltb 0 l then 1 else 0))%nat in
        let type :=
          if Nat.eqb nonZeroIndices 1 then axial
          else if Nat.eqb nonZeroIndices 2 then tangential
          else oblique in
        Some {| Mode.frequency := fMode;
                Mode.amplitude := Math_abs coupling;
                Mode.nMode := n; Mode.mMode := m; Mode.lMode := l;
                Mode.coupling := coupling;
                Mode.type := type |}.

Definition analyzeRoomModes (subPos listenerPos : Point) (L W H : R)
    (maxModeOrder : nat) : list Mode.t :=
  let modes :=
    optionals
      (map (fun '(n, m, l) => analyzeMode subPos listenerPos L W H n m l)
           (modeIndices maxModeOrder)) in
  sort (fun a b => Mode.frequency a - Mode.frequency b) modes.

(** The number of indices of a mode that are not zero. *)
Definition nonZeroIndices (mode : Mode.t) : nat :=
  ((if Nat.eqb (Mode.nMode mode) 0 then 0 else 1)
   + (if Nat.eqb (Mode.mMode mode) 0 then 0 else 1)
   + (if Nat.eqb (Mode.lMode mode) 0 then 0 else 1))%nat.

(** What [analyzeRoomModes] reports about a mode it lists. *)
Definition reportedMode (subPos listenerPos : Point) (L W H : R)
    (maxModeOrder : nat) (mode : Mode.t) : Prop :=
  0 < Mode.frequency mode <= 300
  /\ 0.1 <= Mode.amplitude mode <= 1
  /\ Mode.amplitude mode = Rabs (Mode.coupling mode)
  /\ Mode.coupling mode
     = calculateModePressure (Mode.nMode mode) (Mode.mMode mode)
         (Mode.lMode mode) subPos {| L := L; W := W; H := H |}
       * calculateModePressure (Mode.nMode mode) (Mode.mMode mode)
           (Mode.lMode mode) listenerPos {| L := L; W := W; H := H |}
  /\ (Mode.nMode mode <= maxModeOrder /\ Mode.mMode mode <= maxModeOrder
      /\ Mode.lMode mode <= maxModeOrder)%nat
  /\ Mode.type mode
     = match nonZeroIndices mode with
       | 1%nat => axial
       | 2%nat => tangential
       | _ => oblique
       end
  /\ (1 <= nonZeroIndices mode)%nat.

(** ** The passes as separate stages *)

(** The options object of the three stage functions. *)
Module StageOpt.
Record t := {
  numBands : option nat;
  maxBoost : option R;
  maxCut : option R;
  smoothing : option R;
  minQ : option R;
  maxQ : option R;
  schroederFreq : option R
}.
End StageOpt.

(** What a stage resolves to. *)
Record StageResult := {
  eqSettings : EQSettings;
  correctedResponse : list ModeResponse
}.

Definition generateEQPass1 (roomResponse targetResponse : list ModeResponse)
    (options : StageOpt.t) : StageResult :=
  let numBands := Z.of_nat (orDefault (StageOpt.numBands options) 20%nat) in
  let maxBoost := orDefault (StageOpt.maxBoost options) 12.0 in
  let maxCut := orDefault (StageOpt.maxCut options) 18.0 in
  let smoothing := orDefault (StageOpt.smoothing options) 0.02 in
  let minQ := orDefault (StageOpt.minQ options) 0.7 in
  let maxQ := orDefault (StageOpt.maxQ options) 10.0 in
  let schroederFreq := orDefault (StageOpt.schroederFreq options) 200 in
  let pass1MaxBands := Zceil (IZR numBands * 0.4) in
  let pass1Bands :=
    generateEQPass roomResponse targetResponse pass1MaxBands broad
      (maxBoost * 0.95) (maxCut * 0.95) minQ (Math_min maxQ 6.0)
      (smoothing * 0.8) schroederFreq [] in
  let pass1EQSettings :=
    {| bands := pass1Bands; enabled := true; maxBoost := maxBoost;
       maxCut := maxCut; smoothing := smoothing |} in
  let correctedResponse := applyEQToResponse roomResponse pass1EQSettings in
  let newProblems :=
    analyzePostEQProblems correctedResponse targetResponse pass1Bands
                          schroederFreq in
  if Nat.ltb 0 (length newProblems) then
    let correctiveBands :=
      generateCorrectiveBands newProblems (pass1MaxBands - len pass1Bands) in
    let pass1Bands := pass1Bands ++ correctiveBands in
    let finalPass1EQSettings :=
      {| bands := pass1Bands; enabled := true; maxBoost := maxBoost;
         maxCut := maxCut; smoothing := smoothing |} in
    let finalCorrectedResponse :=
      applyEQToResponse roomResponse finalPass1EQSettings in
    {| eqSettings := finalPass1EQSettings;
       correctedResponse := finalCorrectedResponse |}
  else
    {| eqSettings := pass1EQSettings; correctedResponse := correctedResponse |}.

Definition generateEQPass2 (pass1Result : StageResult)
    (originalResponse targetResponse : list ModeResponse)
    (options : StageOpt.t) : StageResult :=
  let numBands := Z.of_nat (orDefault (StageOpt.numBands options) 20%nat) in
  let maxBoost := orDefault (StageOpt.maxBoost options) 12.0 in
  let maxCut := orDefault (StageOpt.maxCut options) 18.0 in
  let smoothing := orDefault (StageOpt.smoothing options) 0.02 in
  let minQ := orDefault (StageOpt.minQ options) 0.7 in
  let maxQ := orDefault (StageOpt.maxQ options) 10.0 in
  let schroederFreq := orDefault (StageOpt.schroederFreq options) 200 in
  let pass2MaxBands := Zceil (IZR numBands * 0.4) in
  let remainingBands :=
    (numBands - len (bands (eqSettings pass1Result)))%Z in
  let pass2ActualBands := Z.min pass2MaxBands remainingBands in
  let pass2Bands :=
    generateEQPass (correctedResponse pass1Result) targetResponse
      pass2ActualBands targeted (maxBoost * 0.9) (maxCut * 0.9)
      (minQ * 1.05) maxQ (smoothing * 0.7) schroederFreq
      (map frequency (bands (eqSettings pass1Result))) in
  let combinedBands := bands (eqSettings pass1Result) ++ pass2Bands in
  let pass2EQSettings :=
    {| bands := combinedBands; enabled := true; maxBoost := maxBoost;
       maxCut := maxCut; smoothing := smoothing |} in
  let correctedResponse :=
    applyEQToResponse originalResponse pass2EQSettings in
  {| eqSettings := pass2EQSettings; correctedResponse := correctedResponse |}.

Definition generateEQPass3 (pass2Result : StageResult)
    (originalResponse targetResponse : list ModeResponse)
    (options : StageOpt.t) : StageResult :=
  let numBands := Z.of_nat (orDefault (StageOpt.numBands options) 20%nat) in
  let maxBoost := orDefault (StageOpt.maxBoost options) 12.0 in
  let maxCut := orDefault (StageOpt.maxCut options) 18.0 in
  let smoothing := orDefault (StageOpt.smoothing options) 0.02 in
  let minQ := orDefault (StageOpt.minQ options) 0.7 in
  let maxQ := orDefault (StageOpt.maxQ options) 10.0 in
  let schroederFreq := orDefault (StageOpt.schroederFreq options) 200 in
  let remainingBands :=
    (numBands - len (bands (eqSettings pass2Result)))%Z in
  if (remainingBands <=? 0)%Z then pass2Result
  else
    let pass3Bands :=
      generateEQPass (correctedResponse pass2Result) targetResponse
        remainingBands polishing (maxBoost * 0.8) (maxCut * 0.8)
        (minQ * 1.2) maxQ (smoothing * 0.4) schroederFreq
        (map frequency (bands (eqSettings pass2Result))) in
    let allBands := bands (eqSettings pass2Result) ++ pass3Bands in
    let finalEQSettings :=
      {| bands := sort byFrequency allBands; enabled := true;
         maxBoost := maxBoost; maxCut := maxCut; smoothing := smoothing |} in
    let finalCorrectedResponse :=
      applyEQToResponse originalResponse finalEQSettings in
    {| eqSettings := finalEQSettings;
       correctedResponse := finalCorrectedResponse |}.

(** * Properties *)

(** ** Comparisons as booleans *)

Lemma Rltb_true a b : Rltb a b = true <-> a < b.
Proof. unfold Rltb; destruct (Rlt_dec a b); split; intros; easy. Qed.

Lemma Rltb_false a b : Rltb a b = false <-> b <= a.
Proof.
  unfold Rltb; destruct (Rlt_dec a b); split; intros; try easy; lra.
Qed.

Lemma Rleb_true a b : Rleb a b = true <-> a <= b.
Proof. unfold Rleb; destruct (Rle_dec a b); split; intros; easy. Qed.

Lemma Rleb_false a b : Rleb a b = false <-> b < a.
Proof.
  unfold Rleb; destruct (Rle_dec a b); split; intros; try easy; lra.
Qed.

Lemma Rseq_true a b : Rseq a b = true <-> a = b.
Proof. unfold Rseq; destruct (Req_dec_T a b); split; intros; easy. Qed.

Lemma Rseq_refl a : Rseq a a = true.
Proof. now apply Rseq_true. Qed.

Lemma Math_round_val v (n : Z) :
  IZR n - 1 / 2 <= v < IZR n + 1 / 2 -> Math_round v = IZR n.
Proof.
  intros Hv. unfold Math_round. f_equal. apply Zfloor_eq. lra.
Qed.

(** Case analysis on every comparison the goal mentions. *)
Ltac rcases :=
  unfold Rgtb, Rgeb in *;
  repeat match goal with
  | |- context [Rltb ?a ?b] =>
    let E := fresh "E" in destruct (Rltb a b) eqn:E;
    [apply Rltb_true in E | apply Rltb_false in E]
  | |- context [Rleb ?a ?b] =>
    let E := fresh "E" in destruct (Rleb a b) eqn:E;
    [apply Rleb_true in E | apply Rleb_false in E]
  end.

(** Evaluation of comparisons, absolute values, minima and maxima between
    numerals. *)
Ltac Rdecide :=
  unfold Rgtb, Rgeb, Math_abs, Math_max, Math_min in *;
  repeat match goal with
  | |- context [Rabs ?a] =>
    first [ rewrite (Rabs_right a) by lra | rewrite (Rabs_left1 a) by lra ]
  | |- context [Rmax ?a ?b] =>
    first [ rewrite (Rmax_left a b) by lra | rewrite (Rmax_right a b) by lra ]
  | |- context [Rmin ?a ?b] =>
    first [ rewrite (Rmin_left a b) by lra | rewrite (Rmin_right a b) by lra ]
  | |- context [Rltb ?a ?b] =>
    first [ rewrite (proj2 (Rltb_true a b)) by lra
          | rewrite (proj2 (Rltb_false a b)) by lra ]
  | |- context [Rleb ?a ?b] =>
    first [ rewrite (proj2 (Rleb_true a b)) by lra
          | rewrite (proj2 (Rleb_false a b)) by lra ]
  end.

(** ** Target curve *)

Lemma getHarmanTargetDB_no_rolloff f :
  getHarmanTargetDB f None None = harmanReference f.
Proof.
  unfold getHarmanTargetDB, harmanReference, lerp; rcases; lra.
Qed.

(** ** Filter bank *)

Lemma FilterType_eqb_peak t : FilterType_eqb t peak = true <-> t = peak.
Proof. destruct t; simpl; split; intros; easy. Qed.

(** C5.  Applying a disabled EQ, or one without bands, gives back the input
    response: the same points with the same [freq] and [db]. *)
Theorem applyEQToResponse_disabled_or_empty :
  forall (response : list ModeResponse) (eqSettings : EQSettings),
    enabled eqSettings = false \/ bands eqSettings = [] ->
    applyEQToResponse response eqSettings = response.
Proof.
  intros response eqSettings [Hoff | Hnone]; unfold applyEQToResponse.
  - now rewrite Hoff.
  - rewrite Hnone; simpl. now rewrite orb_true_r.
Qed.

Lemma applyEQToResponse_disabled_or_empty_witness :
  applyEQToResponse [ {| freq := 20; db := 3 |} ]
    {| bands := []; enabled := true; maxBoost := 12; maxCut := 18;
       smoothing := 0 |}
  = [ {| freq := 20; db := 3 |} ].
Proof.
  apply applyEQToResponse_disabled_or_empty. right. reflexivity.
Defined.

Lemma calculateBandResponse_ignored f band :
  ignoredBand f band -> calculateBandResponse f band = 0.
Proof.
  unfold ignoredBand, calculateBandResponse, Math_abs; intros Hg.
  destruct (FilterType_eqb (type band) peak) eqn:Et; simpl; [|reflexivity].
  apply FilterType_eqb_peak in Et.
  destruct Hg as [Hg | [Hg | [Hg | [Hg | Hg]]]].
  - contradiction.
  - apply Rleb_true in Hg. now rewrite Hg.
  - apply Rleb_true in Hg. rewrite Hg. now rewrite orb_true_r.
  - apply Rleb_true in Hg. rewrite Hg. now rewrite !orb_true_r.
  - apply Rltb_true in Hg. rewrite Hg. now rewrite !orb_true_r.
Qed.

Lemma fold_left_gain_shift f bs acc :
  fold_left (fun totalGain band =>
    let gain := calculateBandResponse f band in
    if isNaN (finite gain) || negb (isFinite (finite gain)) then totalGain
    else totalGain + gain) bs acc
  = acc + Rsum (map (calculateBandResponse f) bs).
Proof.
  revert acc; induction bs as [|b bs IH]; intros acc; simpl.
  - lra.
  - rewrite IH. unfold Rsum; simpl. lra.
Qed.

Lemma totalGainAt_sum f bs :
  totalGainAt f bs = Rsum (map (calculateBandResponse f) bs).
Proof.
  unfold totalGainAt. rewrite fold_left_gain_shift.
  unfold isNaN, isFinite; simpl. lra.
Qed.

(** C10.  A band that is not a peak filter, or whose centre frequency or Q
    is not positive, or whose gain is below 0.01 dB in magnitude, or that is
    evaluated at a frequency that is not positive, contributes exactly 0 dB,
    and the filter bank sums as if the band were not there. *)
Theorem calculateBandResponse_ignored_is_zero :
  forall (f : R) (band : EQBand),
    ignoredBand f band ->
    calculateBandResponse f band = 0
    /\ forall before after : list EQBand,
         totalGainAt f (before ++ band :: after)
         = totalGainAt f (before ++ after).
Proof.
  intros f band Hg; split.
  - now apply calculateBandResponse_ignored.
  - intros before after. rewrite !totalGainAt_sum, !map_app; simpl.
    rewrite (calculateBandResponse_ignored f band Hg).
    unfold Rsum. rewrite !fold_right_app; simpl. now rewrite Rplus_0_l.
Qed.

Lemma calculateBandResponse_ignored_is_zero_witness :
  calculateBandResponse 100
    {| frequency := 100; gain := 6; q := 2; type := shelf |} = 0.
Proof.
  apply (calculateBandResponse_ignored_is_zero 100
           {| frequency := 100; gain := 6; q := 2; type := shelf |}).
  left; simpl; discriminate.
Defined.

Lemma ln2_pos : 0 < ln 2.
Proof. pose proof ln_lt_2. lra. Qed.

Lemma ln10_pos : 0 < ln 10.
Proof. rewrite <- ln_1. apply ln_increasing; lra. Qed.

Lemma ln_le_mono a b : 0 < a -> a <= b -> ln a <= ln b.
Proof.
  intros Ha [Hlt | ->]; [left; now apply ln_increasing | right; reflexivity].
Qed.

Lemma truthy_Some r : truthy (Some r) = negb (Rseq r 0).
Proof. reflexivity. Qed.

Lemma getHarmanTargetDB_rolloff f rf rs :
  0 < rf -> f < rf ->
  getHarmanTargetDB f (Some rf) (Some rs)
  = harmanReference f - rs * Math_log2 (rf / Rmax f 1).
Proof.
  intros Hrf Hlt.
  rewrite <- getHarmanTargetDB_no_rolloff.
  unfold getHarmanTargetDB at 1. cbv zeta. rewrite !truthy_Some.
  assert (Erf : Rseq rf 0 = false).
  { destruct (Rseq rf 0) eqn:E; [apply Rseq_true in E; lra | reflexivity]. }
  rewrite Erf. apply Rltb_true in Hlt. rewrite Hlt.
  destruct (Rseq rs 0) eqn:Ers; simpl.
  - apply Rseq_true in Ers. subst rs. unfold getHarmanTargetDB. lra.
  - unfold getHarmanTargetDB, Math_max. lra.
Qed.

(** C8, as the code has it.  Without roll-off parameters the target is the
    piecewise-linear reference curve (+7 dB up to 20 Hz, +4 dB at 60 Hz, 0 dB
    at 200 Hz, -1 dB from 300 Hz on), so exactly +7, 0 and -1 dB at 20, 200
    and 300 Hz.  With both parameters and a positive roll-off frequency, a
    frequency below it is reduced by slope * log2(rolloffFreq / max(freq, 1)),
    which is slope * log2(rolloffFreq / freq) from 1 Hz up; at or above the
    roll-off frequency nothing is subtracted. *)
Theorem getHarmanTargetDB_curve :
  (forall f, getHarmanTargetDB f None None = harmanReference f)
  /\ getHarmanTargetDB 20 None None = 7
  /\ getHarmanTargetDB 60 None None = 4
  /\ getHarmanTargetDB 200 None None = 0
  /\ getHarmanTargetDB 300 None None = -1
  /\ (forall f rf rs, 0 < rf -> f < rf ->
        getHarmanTargetDB f (Some rf) (Some rs)
        = harmanReference f - rs * Math_log2 (rf / Rmax f 1))
  /\ (forall f rf rs, 1 <= f -> f < rf ->
        getHarmanTargetDB f (Some rf) (Some rs) = claimedRolloffDb f rf rs)
  /\ (forall f rf rs, rf <= f ->
        getHarmanTargetDB f (Some rf) (Some rs) = harmanReference f).
Proof.
  split; [exact getHarmanTargetDB_no_rolloff|].
  repeat split.
  - unfold getHarmanTargetDB; rcases; lra.
  - unfold getHarmanTargetDB; rcases; lra.
  - unfold getHarmanTargetDB; rcases; lra.
  - unfold getHarmanTargetDB; rcases; lra.
  - exact getHarmanTargetDB_rolloff.
  - intros f rf rs H1 Hlt. rewrite getHarmanTargetDB_rolloff by lra.
    unfold claimedRolloffDb, Math_log2. now rewrite Rmax_left by lra.
  - intros f rf rs Hge. rewrite <- getHarmanTargetDB_no_rolloff.
    unfold getHarmanTargetDB at 1. cbv zeta.
    apply Rltb_false in Hge. rewrite Hge. now rewrite andb_false_r.
Qed.

Lemma getHarmanTargetDB_curve_witness :
  getHarmanTargetDB 10 (Some 40) (Some 12) = claimedRolloffDb 10 40 12.
Proof.
  apply (proj1 (proj2 (proj2 (proj2 (proj2 (proj2 (proj2
           getHarmanTargetDB_curve))))))); lra.
Defined.

(** C8 as stated fails below 1 Hz, where the code takes the octaves from
    1 Hz instead of from the frequency: at 0.5 Hz with a roll-off from 2 Hz at
    1 dB per octave the code returns 6 dB, the stated formula 5 dB. *)
Lemma getHarmanTargetDB_below_1Hz :
  getHarmanTargetDB (1 / 2) (Some 2) (Some 1) = 6
  /\ claimedRolloffDb (1 / 2) 2 1 = 5
  /\ getHarmanTargetDB (1 / 2) (Some 2) (Some 1)
     <> claimedRolloffDb (1 / 2) 2 1.
Proof.
  pose proof ln2_pos as Hln.
  assert (Hcode : getHarmanTargetDB (1 / 2) (Some 2) (Some 1) = 6).
  { rewrite getHarmanTargetDB_rolloff by lra.
    rewrite Rmax_right by lra. unfold harmanReference, Math_log2.
    replace (2 / 1) with 2 by lra.
    rcases; try lra. field. lra. }
  assert (Hclaim : claimedRolloffDb (1 / 2) 2 1 = 5).
  { unfold claimedRolloffDb, harmanReference.
    replace (2 / (1 / 2)) with (2 * 2) by lra.
    rewrite ln_mult by lra. rcases; try lra. field. lra. }
  rewrite Hcode, Hclaim. repeat split; lra.
Qed.


Lemma bellTransfer_code f band :
  0 < f -> 0 < frequency band ->
  let freqRatio := f / frequency band in
  let qTerm := q band * (freqRatio - 1 / freqRatio) in
  1 + (Math_pow 10 (gain band / 20) - 1) / (1 + qTerm * qTerm)
  = bellTransfer f band.
Proof.
  intros Hf H0; cbv zeta; unfold bellTransfer, Math_pow.
  replace (1 / (f / frequency band)) with (frequency band / f)
    by (field; lra).
  do 2 f_equal. simpl. ring.
Qed.

Lemma bellTransfer_pos f band : 0 < bellTransfer f band.
Proof.
  unfold bellTransfer.
  set (d := 1 + _ ^ 2). set (g := Rpower 10 _).
  assert (Hd : 1 <= d).
  { unfold d. match goal with |- 1 <= 1 + ?a ^ 2 =>
      pose proof (pow2_ge_0 a) end. lra. }
  assert (Hg : 0 < g) by apply exp_pos.
  replace (1 + (g - 1) / d) with ((d - 1 + g) / d) by (field; lra).
  apply Rdiv_lt_0_compat; lra.
Qed.

(** The range of a double against powers of ten. *)
Lemma MAX_VALUE_IZR : MAX_VALUE = IZR ((2 ^ 53 - 1) * 2 ^ 971).
Proof.
  unfold MAX_VALUE. rewrite !pow_IZR, <- minus_IZR, <- mult_IZR.
  reflexivity.
Qed.

Lemma pow10_308_le_MAX_VALUE : 10 ^ 308 <= MAX_VALUE.
Proof.
  rewrite MAX_VALUE_IZR, pow_IZR. apply IZR_le, Z.leb_le.
  vm_compute. reflexivity.
Qed.


Lemma Rpower_10_nat (n : nat) (z : Z) :
  z = Z.of_nat n -> Rpower 10 (IZR z) = 10 ^ n.
Proof. intros ->. rewrite <- INR_IZR_INZ. apply Rpower_pow. lra. Qed.

Lemma gain_in_range band : gain band <= 6160 -> ~ gainOverflows band.
Proof.
  intros Hg. unfold gainOverflows. apply Rle_not_lt.
  apply Rle_trans with (Rpower 10 308).
  - apply Rle_Rpower; lra.
  - rewrite (Rpower_10_nat 308 308 eq_refl). exact pow10_308_le_MAX_VALUE.
Qed.


Lemma calculateBandResponse_active f band :
  ~ ignoredBand f band ->
  calculateBandResponse f band
  = if Rleb (Rpower 10 (gain band / 20)) MAX_VALUE
    then (if Rleb (bellTransfer f band) 1e-10 then -200 else bellDb f band)
    else 0.
Proof.
  unfold ignoredBand; intros Hg.
  assert (Ht : type band = peak).
  { destruct (type band) eqn:E; try reflexivity;
      exfalso; apply Hg; left; discriminate. }
  assert (Hf : 0 < f) by (apply Rnot_le_lt; tauto).
  assert (H0 : 0 < frequency band) by (apply Rnot_le_lt; tauto).
  assert (Hq : 0 < q band) by (apply Rnot_le_lt; tauto).
  assert (Ha : 0.01 <= Rabs (gain band)) by (apply Rnot_lt_le; tauto).
  unfold calculateBandResponse. rewrite Ht; simpl.
  apply Rleb_false in Hf, H0, Hq. rewrite Hf, H0, Hq.
  apply Rltb_false in Ha. unfold Math_abs. rewrite Ha; simpl.
  apply Rleb_false in Hf, H0.
  set (qTerm := q band * _).
  assert (Hd : Rleb (1 + qTerm * qTerm) 0 = false) by (apply Rleb_false; nra).
  rewrite Hd. unfold Math_pow_overflow.
  change (Math_pow 10 (gain band / 20)) with (Rpower 10 (gain band / 20)).
  destruct (Rleb (Rpower 10 (gain band / 20)) MAX_VALUE);
    cbn [Number_map Number_leb isFinite isNaN negb orb]; [|reflexivity].
  unfold qTerm.
  change (Rpower 10 (gain band / 20)) with (Math_pow 10 (gain band / 20)).
  rewrite (bellTransfer_code f band Hf H0).
  destruct (Rleb (bellTransfer f band) 1e-10); reflexivity.
Qed.

(** Below the overflow of the linear gain, which no gain up to 6160 dB
    reaches, the contribution of an active band is the floor or the clamped
    level of its transfer value. *)
Lemma calculateBandResponse_in_range f band :
  ~ ignoredBand f band -> ~ gainOverflows band ->
  calculateBandResponse f band
  = if Rleb (bellTransfer f band) 1e-10 then -200 else bellDb f band.
Proof.
  intros Hact Hfin. rewrite (calculateBandResponse_active f band Hact).
  replace (Rleb (Rpower 10 (gain band / 20)) MAX_VALUE) with true;
    [reflexivity|].
  symmetry. apply Rleb_true. unfold gainOverflows in Hfin. lra.
Qed.






(** ** Error analysis *)

Lemma Rmax_list_nonneg l : 0 <= fold_right Rmax 0 l.
Proof.
  induction l as [|a l IH]; simpl; [lra|].
  eapply Rle_trans; [exact IH | apply Rmax_r].
Qed.

Lemma analyzeTargetError_step_match target acc c :
  analyzeTargetError_step target acc c
  = match firstWithin1Hz target (freq c) with
    | Some t =>
      {| errors := errors acc ++ [pairEntry (c, t)];
         sumSquaredError :=
           sumSquaredError acc + pairError (c, t) * pairError (c, t);
         loopMaxError := Rmax (loopMaxError acc) (Rabs (pairError (c, t)));
         sumError := sumError acc + pairError (c, t);
         validPoints := S (validPoints acc) |}
    | None => acc
    end.
Proof. reflexivity. Qed.

Lemma analyzeTargetError_loop target current acc :
  0 <= loopMaxError acc ->
  let pairs := matchedPairs current target in
  let es := map pairError pairs in
  fold_left (analyzeTargetError_step target) current acc
  = {| errors := errors acc ++ map pairEntry pairs;
       sumSquaredError :=
         sumSquaredError acc + Rsum (map (fun e => e * e) es);
       loopMaxError :=
         Rmax (loopMaxError acc) (fold_right Rmax 0 (map Rabs es));
       sumError := sumError acc + Rsum es;
       validPoints := validPoints acc + length es |}.
Proof.
  revert acc; induction current as [|c current IH]; intros acc Hmax.
  - destruct acc as [e s m t v]; simpl in *. f_equal.
    + now rewrite app_nil_r.
    + unfold Rsum; simpl; lra.
    + now rewrite Rmax_left.
    + unfold Rsum; simpl; lra.
    + lia.
  - cbn [fold_left]. rewrite analyzeTargetError_step_match.
    unfold matchedPairs; cbn [flat_map].
    destruct (firstWithin1Hz target (freq c)) as [t|].
    + rewrite IH.
      2:{ cbn [loopMaxError]. eapply Rle_trans; [exact Hmax|apply Rmax_l]. }
      cbn [errors sumSquaredError loopMaxError sumError validPoints].
      cbn [app map fold_right length]. fold (matchedPairs current target).
      f_equal.
      * now rewrite <- app_assoc.
      * unfold Rsum; cbn [fold_right]. lra.
      * now rewrite Rmax_assoc.
      * unfold Rsum; cbn [fold_right]. lra.
      * lia.
    + cbn [app]. fold (matchedPairs current target). now apply IH.
Qed.

Lemma analyzeTargetError_entries current target :
  errorByFrequency (analyzeTargetError current target)
  = map pairEntry (matchedPairs current target).
Proof.
  unfold analyzeTargetError.
  rewrite analyzeTargetError_loop by (simpl; lra). reflexivity.
Qed.

Lemma analyzeTargetError_maxError current target :
  maxError (analyzeTargetError current target)
  = fold_right Rmax 0 (map Rabs (map pairError (matchedPairs current target))).
Proof.
  unfold analyzeTargetError.
  rewrite analyzeTargetError_loop by (simpl; lra).
  cbn [maxError loopMaxError]. apply Rmax_right, Rmax_list_nonneg.
Qed.

(** C9, as the code has it.  Each current point is matched to the first
    target point, in sequence order, whose frequency is less than 1 Hz away.
    Over the matched pairs the error is [current.db - target.db], the RMS
    error is the square root of the mean squared error, the maximum error is
    the largest absolute error and the average error is the mean error; with
    no matched pair all three are 0. *)
Theorem analyzeTargetError_first_match :
  forall currentResponse targetResponse : list ModeResponse,
    let result := analyzeTargetError currentResponse targetResponse in
    let pairs := matchedPairs currentResponse targetResponse in
    let es := map pairError pairs in
    errorByFrequency result = map pairEntry pairs
    /\ rmsError result
       = match es with
         | [] => 0
         | _ => sqrt (Rsum (map (fun e => e * e) es) / INR (length es))
         end
    /\ maxError result = fold_right Rmax 0 (map Rabs es)
    /\ avgError result
       = match es with
         | [] => 0
         | _ => Rsum es / INR (length es)
         end.
Proof.
  intros currentResponse targetResponse result pairs es.
  unfold result, analyzeTargetError.
  rewrite analyzeTargetError_loop by (simpl; lra).
  fold pairs. fold es.
  cbn [errors sumSquaredError loopMaxError sumError validPoints
       rmsError maxError avgError errorByFrequency app].
  repeat split.
  - destruct es; cbn [length Nat.add Nat.ltb Nat.leb]; [reflexivity|].
    unfold Math_sqrt. now rewrite Rplus_0_l.
  - apply Rmax_right, Rmax_list_nonneg.
  - destruct es; cbn [length Nat.add Nat.ltb Nat.leb]; [reflexivity|].
    now rewrite Rplus_0_l.
Qed.

(** C9 as stated fails when two target points lie within 1 Hz of a current
    point: the code takes the first, not the nearest.  For the current point
    (100 Hz, 5 dB) and the targets (99.5 Hz, 0 dB), (100 Hz, 5 dB) the nearest
    target is the second, with error 0, and the code reports the error 5. *)
Lemma analyzeTargetError_not_nearest :
  let current := [ {| freq := 100; db := 5 |} ] in
  let target := [ {| freq := 99.5; db := 0 |}; {| freq := 100; db := 5 |} ] in
  nearestWithin1Hz target 100 = Some {| freq := 100; db := 5 |}
  /\ map Err.targetDb (errorByFrequency (analyzeTargetError current target))
     = [0]
  /\ map Err.error (errorByFrequency (analyzeTargetError current target))
     = [5 - 0]
  /\ maxError (analyzeTargetError current target) = 5
  /\ maxError (analyzeTargetError current target) <> Rabs (5 - 5).
Proof.
  intros current target.
  assert (Hfirst : firstWithin1Hz target 100
                   = Some {| freq := 99.5; db := 0 |}).
  { unfold firstWithin1Hz, target; cbn [find freq].
    replace (Rltb (Rabs (99.5 - 100)) 1) with true; [reflexivity|].
    symmetry; apply Rltb_true. rewrite Rabs_left; lra. }
  assert (Hpairs : matchedPairs current target
                   = [ ({| freq := 100; db := 5 |},
                        {| freq := 99.5; db := 0 |}) ]).
  { unfold matchedPairs, current; cbn [flat_map freq].
    now rewrite Hfirst. }
  pose proof (analyzeTargetError_entries current target) as Herr.
  pose proof (analyzeTargetError_maxError current target) as Hmax.
  rewrite Hpairs in Herr, Hmax.
  assert (Hm : maxError (analyzeTargetError current target) = 5).
  { rewrite Hmax. cbn [map fold_right]. unfold pairError. cbn [fst snd db].
    rewrite Rmax_left; [rewrite Rabs_right; lra|].
    rewrite Rabs_right; lra. }
  split; [|split; [|split; [|split]]].
  - unfold nearestWithin1Hz, target; cbn [fold_left freq].
    replace (Rltb (Rabs (99.5 - 100)) 1) with true
      by (symmetry; apply Rltb_true; rewrite Rabs_left; lra).
    replace (Rltb (Rabs (100 - 100)) 1) with true
      by (symmetry; apply Rltb_true; rewrite Rabs_right; lra).
    cbn [freq].
    replace (Rltb (Rabs (100 - 100)) (Rabs (99.5 - 100))) with true;
      [reflexivity|].
    symmetry; apply Rltb_true.
    rewrite (Rabs_right (100 - 100)), (Rabs_left (99.5 - 100)); lra.
  - rewrite Herr. reflexivity.
  - rewrite Herr. reflexivity.
  - exact Hm.
  - rewrite Hm. rewrite Rabs_right; lra.
Qed.

(** ** Modal response simulator *)

Lemma range_grid :
  map IZR (range FREQUENCY_MIN_HZ FREQUENCY_MAX_HZ FREQUENCY_STEP_HZ)
  = map (fun k => 20 + INR k) (seq 0 281).
Proof.
  unfold range, FREQUENCY_MIN_HZ, FREQUENCY_MAX_HZ, FREQUENCY_STEP_HZ.
  replace (Z.to_nat ((300 - 20) / 1 + 1)) with 281%nat by reflexivity.
  rewrite map_map. apply map_ext; intros k.
  rewrite plus_IZR, mult_IZR, <- INR_IZR_INZ. lra.
Qed.

Lemma calculateResponse_grid subPos listenerPos L W H maxModeOrder baseQFactor :
  gridResponse
    (calculateResponse subPos listenerPos L W H maxModeOrder baseQFactor).
Proof.
  unfold gridResponse, calculateResponse.
  set (mag := magnitudeAt _ _ _ _ _ _ _).
  assert (Hfreq : forall l,
    map freq
      (map (fun '(pfreq, magnitude) =>
              {| freq := pfreq;
                 db := Math_max MIN_DB_VALUE
                         (if Rleb magnitude 1e-9 then MIN_DB_VALUE
                          else 20 * Math_log10 magnitude) |})
           (map (fun f : Z => (IZR f, mag f)) l))
    = map IZR l).
  { intros l. rewrite !map_map. now apply map_ext. }
  split; [|split].
  - rewrite <- (length_map freq), Hfreq, range_grid.
    now rewrite length_map, length_seq.
  - now rewrite Hfreq, range_grid.
  - apply Forall_forall; intros p Hin.
    apply in_map_iff in Hin as [[pf m] [<- _]]; simpl.
    unfold Math_max, MIN_DB_VALUE. apply Rmax_l.
Qed.

Lemma gridResponse_not_nil r : gridResponse r -> r <> [].
Proof. intros [Hlen _] ->. discriminate. Qed.

Lemma Point_eqb_refl p : Point_eqb p p = true.
Proof. unfold Point_eqb. now rewrite !Rseq_refl. Qed.

Lemma CacheKey_eqb_refl k : CacheKey_eqb k k = true.
Proof.
  unfold CacheKey_eqb.
  now rewrite !Point_eqb_refl, !Rseq_refl, Nat.eqb_refl.
Qed.

Lemma Point_eqb_eq a b : Point_eqb a b = true -> a = b.
Proof.
  destruct a, b. unfold Point_eqb; simpl. intros E.
  apply andb_prop in E as [E Ez]. apply andb_prop in E as [Ex Ey].
  apply Rseq_true in Ex, Ey, Ez. now subst.
Qed.

Lemma CacheKey_eqb_eq a b : CacheKey_eqb a b = true -> a = b.
Proof.
  destruct a as [s1 l1 [rl1 rw1 rh1] o1 q1], b as [s2 l2 [rl2 rw2 rh2] o2 q2].
  unfold CacheKey_eqb; simpl. intros E.
  apply andb_prop in E as [E Eq]. apply andb_prop in E as [E Eo].
  apply andb_prop in E as [E Eh]. apply andb_prop in E as [E Ew].
  apply andb_prop in E as [E El]. apply andb_prop in E as [Es Eli].
  apply Point_eqb_eq in Es, Eli. apply Rseq_true in El, Ew, Eh, Eq.
  apply Nat.eqb_eq in Eo. now subst.
Qed.

Lemma cache_get_None k c :
  cache_get k c = None <->
  forall e, In e c -> CacheKey_eqb (fst e) k = false.
Proof.
  unfold cache_get; split.
  - intros Hnone e Hin.
    destruct (find _ c) eqn:Ef; [discriminate|].
    exact (find_none _ _ Ef e Hin).
  - intros Hall. induction c as [|e c IH]; [reflexivity|]; simpl.
    rewrite (Hall e (or_introl eq_refl)).
    apply IH. intros e' Hin. apply Hall. now right.
Qed.

Lemma cache_get_In k c a :
  cache_get k c = Some a -> exists k', In (k', a) c.
Proof.
  unfold cache_get; intros Hget.
  destruct (find _ c) as [[k' a']|] eqn:Ef; [|discriminate].
  injection Hget as <-. apply find_some in Ef as [Hin _]. now exists k'.
Qed.

Lemma cache_get_app_new k k' a c :
  cache_get k c = None ->
  cache_get k (c ++ [(k', a)])
  = if CacheKey_eqb k' k then Some a else None.
Proof.
  unfold cache_get; induction c as [|e c IH]; simpl; intros Hnone.
  - now destruct (CacheKey_eqb k' k).
  - destruct (CacheKey_eqb (fst e) k); [discriminate|]. now apply IH.
Qed.

Lemma evict_subset (ks : list CacheKey) c e :
  In e (fold_left (fun c k => cache_delete k c) ks c) -> In e c.
Proof.
  revert c; induction ks as [|k ks IH]; intros c; simpl; [easy|].
  intros Hin. apply IH in Hin. unfold cache_delete in Hin.
  now apply filter_In in Hin.
Qed.

(** The state after a miss: the new array sits at the end of the heap and
    its key at the end of the (possibly evicted) cache. *)
Lemma simulateRoomResponse_miss subPos listenerPos L W H order qf st :
  cache_get (generateCacheKey subPos listenerPos L W H order qf)
            (responseCache st) = None ->
  exists cache1,
    (forall e, In e cache1 -> In e (responseCache st))
    /\ simulateRoomResponse subPos listenerPos L W H order qf st
       = (length (heap st),
          {| heap := heap st
                     ++ [calculateResponse subPos listenerPos L W H order qf];
             responseCache :=
               cache1 ++ [(generateCacheKey subPos listenerPos L W H order qf,
                           length (heap st))] |}).
Proof.
  intros Hmiss. unfold simulateRoomResponse. rewrite Hmiss.
  destruct (Nat.leb CACHE_SIZE_LIMIT (length (responseCache st))).
  - eexists; split; [|reflexivity]. intros e. apply evict_subset.
  - eexists; split; [|reflexivity]. easy.
Qed.

Lemma simulateRoomResponse_hit subPos listenerPos L W H order qf st a :
  cache_get (generateCacheKey subPos listenerPos L W H order qf)
            (responseCache st) = Some a ->
  simulateRoomResponse subPos listenerPos L W H order qf st = (a, st).
Proof. intros Hhit. unfold simulateRoomResponse. now rewrite Hhit. Qed.

Lemma gridResponse_allocated st a :
  gridResponse (deref st a) -> (a < length (heap st))%nat.
Proof.
  intros Hgrid. destruct (Nat.lt_ge_cases a (length (heap st))) as [|Hge];
    [assumption|].
  exfalso. apply (gridResponse_not_nil _ Hgrid).
  unfold deref. now apply nth_overflow.
Qed.

Lemma cache_get_Some k c a :
  cache_get k c = Some a ->
  exists k', In (k', a) c /\ CacheKey_eqb k' k = true.
Proof.
  unfold cache_get; intros Hget.
  destruct (find _ c) as [[k' a']|] eqn:Ef; [|discriminate].
  injection Hget as <-. apply find_some in Ef as [Hin Heq]. now exists k'.
Qed.

(** A call on an intact cache returns a well-formed sequence and leaves the
    cache intact. *)
Lemma simulateRoomResponse_intact subPos listenerPos L W H order qf st :
  cacheIntact st ->
  gridResponse
    (deref (snd (simulateRoomResponse subPos listenerPos L W H order qf st))
           (fst (simulateRoomResponse subPos listenerPos L W H order qf st)))
  /\ cacheIntact
       (snd (simulateRoomResponse subPos listenerPos L W H order qf st)).
Proof.
  intros Hok.
  pose proof (calculateResponse_grid subPos listenerPos L W H order qf)
    as Hnew.
  destruct (cache_get (generateCacheKey subPos listenerPos L W H order qf)
                      (responseCache st)) as [a|] eqn:Hget.
  - rewrite (simulateRoomResponse_hit _ _ _ _ _ _ _ _ _ Hget); simpl.
    split; [|exact Hok].
    destruct (cache_get_In _ _ _ Hget) as [k' Hin]. exact (Hok k' a Hin).
  - destruct (simulateRoomResponse_miss _ _ _ _ _ _ _ _ Hget)
      as [cache1 [Hsub ->]]; simpl.
    split.
    + unfold deref; simpl. now rewrite nth_middle.
    + intros k a Hin; simpl in Hin. unfold deref; simpl.
      apply in_app_or in Hin as [Hin | [Heq | []]].
      * pose proof (Hok k a (Hsub _ Hin)) as Hgrid.
        rewrite app_nth1 by now apply gridResponse_allocated.
        exact Hgrid.
      * injection Heq as _ <-. now rewrite nth_middle.
Qed.

(** Calls of the simulator and clearings of the cache keep the cache
    intact: only a write into a returned array can spoil it. *)
Lemma neverWrites_intact ops st :
  neverWrites ops -> cacheIntact st -> cacheIntact (fold_left runOp ops st).
Proof.
  intros Hops. revert st.
  induction Hops as [|op ops Hop _ IH]; intros st Hok; [exact Hok|].
  cbn [fold_left]. apply IH.
  destruct op as [subPos listenerPos L W H order qf | | a v].
  - cbn [runOp]. now apply simulateRoomResponse_intact.
  - intros k a Hin. cbn in Hin. contradiction.
  - contradiction.
Qed.

(** C1, as the code has it.  Whatever the positions, dimensions, mode order
    and Q factor, the response computed on a cache miss has exactly 281
    points, at 20, 21, ..., 300 Hz in ascending order, none below -100 dB,
    and a call that misses the cache returns it.  A call that hits the cache
    returns the stored array: as long as no caller has written to a cached
    array, every call, hit or miss, returns such a sequence and leaves the
    cache in that state; this is so in every run of a client that calls the
    simulator and clears the cache but never writes into a returned
    array. *)
Theorem simulateRoomResponse_grid :
  forall (subPos listenerPos : Point) (L W H : R) (maxModeOrder : nat)
         (baseQFactor : R),
    let call :=
      simulateRoomResponse subPos listenerPos L W H maxModeOrder baseQFactor in
    gridResponse
      (calculateResponse subPos listenerPos L W H maxModeOrder baseQFactor)
    /\ (forall st,
          cache_get (generateCacheKey subPos listenerPos L W H maxModeOrder
                                      baseQFactor) (responseCache st) = None ->
          deref (snd (call st)) (fst (call st))
          = calculateResponse subPos listenerPos L W H maxModeOrder
                              baseQFactor)
    /\ (forall st,
          cacheIntact st ->
          gridResponse (deref (snd (call st)) (fst (call st)))
          /\ cacheIntact (snd (call st)))
    /\ (forall ops,
          neverWrites ops ->
          gridResponse
            (deref (snd (call (fold_left runOp ops emptyState)))
                   (fst (call (fold_left runOp ops emptyState))))).
Proof.
  intros subPos listenerPos L W H order qf call.
  split; [apply calculateResponse_grid|]. split; [|split].
  - intros st Hget. unfold call.
    destruct (simulateRoomResponse_miss _ _ _ _ _ _ _ _ Hget)
      as [cache1 [_ ->]].
    unfold deref; cbn [fst snd heap]. now rewrite nth_middle.
  - intros st Hok. now apply simulateRoomResponse_intact.
  - intros ops Hops. apply simulateRoomResponse_intact.
    apply neverWrites_intact; [exact Hops|].
    intros k a Hin. cbn in Hin. contradiction.
Qed.

Lemma simulateRoomResponse_grid_witness :
  neverWrites
    [op_simulate {| x := 1; y := 1; z := 0.5 |} {| x := 3; y := 2; z := 1.2 |}
                 5 4 3 10 10; op_clear;
     op_simulate {| x := 1; y := 1; z := 0.5 |} {| x := 3; y := 2; z := 1.2 |}
                 5 4 3 10 10]
  /\ gridResponse
       (deref
          (snd (simulateRoomResponse {| x := 1; y := 1; z := 0.5 |}
                  {| x := 3; y := 2; z := 1.2 |} 5 4 3 10 10
                  (fold_left runOp
                     [op_simulate {| x := 1; y := 1; z := 0.5 |}
                        {| x := 3; y := 2; z := 1.2 |} 5 4 3 10 10; op_clear;
                      op_simulate {| x := 1; y := 1; z := 0.5 |}
                        {| x := 3; y := 2; z := 1.2 |} 5 4 3 10 10]
                     emptyState)))
          (fst (simulateRoomResponse {| x := 1; y := 1; z := 0.5 |}
                  {| x := 3; y := 2; z := 1.2 |} 5 4 3 10 10
                  (fold_left runOp
                     [op_simulate {| x := 1; y := 1; z := 0.5 |}
                        {| x := 3; y := 2; z := 1.2 |} 5 4 3 10 10; op_clear;
                      op_simulate {| x := 1; y := 1; z := 0.5 |}
                        {| x := 3; y := 2; z := 1.2 |} 5 4 3 10 10]
                     emptyState)))).
Proof.
  assert (Hops : neverWrites
    [op_simulate {| x := 1; y := 1; z := 0.5 |} {| x := 3; y := 2; z := 1.2 |}
                 5 4 3 10 10; op_clear;
     op_simulate {| x := 1; y := 1; z := 0.5 |} {| x := 3; y := 2; z := 1.2 |}
                 5 4 3 10 10])
    by (repeat constructor).
  split; [exact Hops|].
  exact (proj2 (proj2 (proj2
           (simulateRoomResponse_grid {| x := 1; y := 1; z := 0.5 |}
              {| x := 3; y := 2; z := 1.2 |} 5 4 3 10 10))) _ Hops).
Defined.

Lemma modeContribution_symmetric a b L W H qf f n m l :
  modeContribution a b L W H qf f n m l
  = modeContribution b a L W H qf f n m l.
Proof.
  unfold modeContribution.
  now rewrite (Rmult_comm (calculateModePressure n m l a _)
                          (calculateModePressure n m l b _)).
Qed.

Lemma magnitudeAt_symmetric a b L W H order qf f :
  magnitudeAt a b L W H order qf f = magnitudeAt b a L W H order qf f.
Proof.
  unfold magnitudeAt.
  replace (fold_left _ (modeIndices order) (0, 0))
    with (fold_left (fun (tot : R * R) '(n, m, l) =>
            match modeContribution b a L W H qf f n m l with
            | None => tot
            | Some (re, im) => (fst tot + re, snd tot + im)
            end) (modeIndices order) (0, 0)); [reflexivity|].
  generalize (0, 0) as acc.
  induction (modeIndices order) as [|[[n m] l] idx IH]; intros acc; simpl.
  - reflexivity.
  - now rewrite IH, modeContribution_symmetric.
Qed.

Lemma calculateResponse_symmetric a b L W H order qf :
  calculateResponse a b L W H order qf = calculateResponse b a L W H order qf.
Proof.
  unfold calculateResponse. f_equal. apply map_ext; intros f.
  now rewrite magnitudeAt_symmetric.
Qed.

(** A call for which the cache holds no stale entry returns the response
    computed for its arguments; it leaves the arrays that exist as they are
    and adds at most its own entry to the cache. *)
Lemma simulateRoomResponse_agrees subPos listenerPos L W H order qf st :
  cacheAgrees st (generateCacheKey subPos listenerPos L W H order qf)
              (calculateResponse subPos listenerPos L W H order qf) ->
  let res := simulateRoomResponse subPos listenerPos L W H order qf st in
  deref (snd res) (fst res)
  = calculateResponse subPos listenerPos L W H order qf
  /\ (forall a, (a < length (heap st))%nat ->
                deref (snd res) a = deref st a)
  /\ (forall e, In e (responseCache (snd res)) ->
        In e (responseCache st)
        \/ e = (generateCacheKey subPos listenerPos L W H order qf, fst res)).
Proof.
  intros Hagree res.
  destruct (cache_get (generateCacheKey subPos listenerPos L W H order qf)
                      (responseCache st)) as [a|] eqn:Hget.
  - unfold res. rewrite (simulateRoomResponse_hit _ _ _ _ _ _ _ _ _ Hget).
    cbn [fst snd].
    destruct (cache_get_Some _ _ _ Hget) as [k' [Hin Heq]].
    split; [exact (Hagree k' a Hin Heq)|]. split; [reflexivity | now left].
  - destruct (simulateRoomResponse_miss _ _ _ _ _ _ _ _ Hget)
      as [cache1 [Hsub Hres]].
    unfold res. rewrite Hres. cbn [fst snd responseCache]. unfold deref.
    cbn [heap]. split; [now rewrite nth_middle|]. split.
    + intros a Ha. now rewrite app_nth1.
    + intros e Hin. apply in_app_or in Hin as [Hin | [<- | []]];
        [left; now apply Hsub | now right].
Qed.

Lemma deref_allocated st a r :
  deref st a = r -> gridResponse r -> (a < length (heap st))%nat.
Proof. intros <-. apply gridResponse_allocated. Qed.

(** C4, as the code has it.  Swapping source and listener leaves the
    computed response unchanged, point for point.  Calling
    [simulateRoomResponse] for one arrangement and then for the other
    returns two value-equal sequences, each the response computed for the
    arguments of the call, whenever the cache holds no stale entry for
    either arrangement: no entry at all, or the response of these very
    arguments. *)
Theorem simulateRoomResponse_symmetric :
  forall (a b : Point) (L W H : R) (maxModeOrder : nat) (baseQFactor : R)
         (st : State),
    cacheAgrees st (generateCacheKey a b L W H maxModeOrder baseQFactor)
                (calculateResponse a b L W H maxModeOrder baseQFactor) ->
    cacheAgrees st (generateCacheKey b a L W H maxModeOrder baseQFactor)
                (calculateResponse b a L W H maxModeOrder baseQFactor) ->
    let first := simulateRoomResponse a b L W H maxModeOrder baseQFactor st in
    let second :=
      simulateRoomResponse b a L W H maxModeOrder baseQFactor (snd first) in
    calculateResponse a b L W H maxModeOrder baseQFactor
    = calculateResponse b a L W H maxModeOrder baseQFactor
    /\ deref (snd first) (fst first)
       = calculateResponse a b L W H maxModeOrder baseQFactor
    /\ deref (snd second) (fst second)
       = calculateResponse b a L W H maxModeOrder baseQFactor
    /\ deref (snd second) (fst first) = deref (snd second) (fst second).
Proof.
  intros a b L W H order qf st Hab Hba first second.
  pose proof (calculateResponse_symmetric a b L W H order qf) as Hsym.
  pose proof (calculateResponse_grid a b L W H order qf) as Hgrid.
  destruct (simulateRoomResponse_agrees a b L W H order qf st Hab)
    as (Hfst & Hkeep1 & Hnew1).
  fold first in Hfst, Hkeep1, Hnew1.
  assert (Hba1 : cacheAgrees (snd first)
                   (generateCacheKey b a L W H order qf)
                   (calculateResponse b a L W H order qf)).
  { intros k' a' Hin Heq. destruct (Hnew1 _ Hin) as [Hold | Hnew].
    - pose proof (Hba k' a' Hold Heq) as Hd.
      rewrite Hkeep1; [exact Hd|].
      apply (deref_allocated _ _ _ Hd). rewrite <- Hsym. exact Hgrid.
    - injection Hnew as _ ->. now rewrite Hfst. }
  destruct (simulateRoomResponse_agrees b a L W H order qf (snd first) Hba1)
    as (Hsnd & Hkeep2 & _).
  fold second in Hsnd, Hkeep2.
  split; [exact Hsym|]. split; [exact Hfst|]. split; [exact Hsnd|].
  rewrite Hsnd, Hkeep2; [now rewrite Hfst|].
  exact (deref_allocated _ _ _ Hfst Hgrid).
Qed.

Lemma simulateRoomResponse_symmetric_witness :
  let a := {| x := 1; y := 1; z := 0.5 |} in
  let b := {| x := 3; y := 2; z := 1.2 |} in
  let st := snd (simulateRoomResponse a b 5 4 3 10 10 emptyState) in
  let first := simulateRoomResponse a b 5 4 3 10 10 st in
  let second := simulateRoomResponse b a 5 4 3 10 10 (snd first) in
  fst first = O
  /\ deref (snd second) (fst first) = deref (snd second) (fst second).
Proof.
  intros a b st first second.
  assert (Hst : st = {| heap := [calculateResponse a b 5 4 3 10 10];
                        responseCache :=
                          [(generateCacheKey a b 5 4 3 10 10, O)] |}).
  { unfold st.
    destruct (simulateRoomResponse_miss a b 5 4 3 10 10 emptyState eq_refl)
      as [cache1 [Hsub ->]].
    destruct cache1 as [|e cache1]; [reflexivity|].
    destruct (Hsub e (or_introl eq_refl)). }
  assert (Hentry : forall r,
            r = calculateResponse a b 5 4 3 10 10 ->
            forall k' a', In (k', a') (responseCache st) -> deref st a' = r).
  { intros r -> k' a' Hin. rewrite Hst in Hin |- *.
    destruct Hin as [[= _ <-] | []]. reflexivity. }
  assert (Hab : cacheAgrees st (generateCacheKey a b 5 4 3 10 10)
                  (calculateResponse a b 5 4 3 10 10)).
  { intros k' a' Hin _. now apply (Hentry _ eq_refl k'). }
  assert (Hba : cacheAgrees st (generateCacheKey b a 5 4 3 10 10)
                  (calculateResponse b a 5 4 3 10 10)).
  { intros k' a' Hin _.
    apply (Hentry _ (eq_sym (calculateResponse_symmetric a b 5 4 3 10 10))
                  k' a' Hin). }
  split.
  - unfold first.
    assert (Hget : cache_get (generateCacheKey a b 5 4 3 10 10)
                     (responseCache st) = Some O).
    { rewrite Hst. unfold cache_get. cbn [responseCache find fst].
      now rewrite CacheKey_eqb_refl. }
    now rewrite (simulateRoomResponse_hit _ _ _ _ _ _ _ _ _ Hget).
  - exact (proj2 (proj2 (proj2
             (simulateRoomResponse_symmetric a b 5 4 3 10 10 st Hab Hba)))).
Defined.

Lemma list_set_nth {A} (l : list A) i v d :
  (i < length l)%nat -> nth i (list_set l i v) d = v.
Proof.
  revert i; induction l as [|a l IH]; intros [|i] Hlt; simpl in *;
    try lia; [reflexivity|].
  apply IH; lia.
Qed.

Lemma deref_mutate st a v :
  (a < length (heap st))%nat -> deref (mutate st a v) a = v.
Proof. intros Hlt. unfold deref, mutate; simpl. now apply list_set_nth. Qed.

(** After any call the key of the call is in the cache and refers to the
    array the call returned. *)
Lemma simulateRoomResponse_caches subPos listenerPos L W H order qf st :
  cacheAllocated st ->
  let first := simulateRoomResponse subPos listenerPos L W H order qf st in
  cache_get (generateCacheKey subPos listenerPos L W H order qf)
            (responseCache (snd first)) = Some (fst first)
  /\ (fst first < length (heap (snd first)))%nat.
Proof.
  intros Halloc first.
  destruct (cache_get (generateCacheKey subPos listenerPos L W H order qf)
                      (responseCache st)) as [a|] eqn:Hget.
  - unfold first. rewrite (simulateRoomResponse_hit _ _ _ _ _ _ _ _ _ Hget).
    cbn [fst snd]. split; [exact Hget|].
    destruct (cache_get_In _ _ _ Hget) as [k' Hin]. exact (Halloc k' a Hin).
  - destruct (simulateRoomResponse_miss _ _ _ _ _ _ _ _ Hget)
      as [cache1 [Hsub Hfirst]].
    unfold first. rewrite Hfirst. cbn [fst snd responseCache heap]. split.
    + rewrite cache_get_app_new.
      * now rewrite CacheKey_eqb_refl.
      * apply cache_get_None. intros e Hin.
        apply (proj1 (cache_get_None _ _) Hget). now apply Hsub.
    + rewrite length_app; simpl; lia.
Qed.

(** The Q factor enters the key rounded to two decimals, the positions and
    dimensions rounded to three: 10.0049 and 10.0051 agree to three decimals
    and still give two different keys. *)
Lemma generateCacheKey_baseQFactor_two_decimals :
  Math_round (10.0049 * 1000) = Math_round (10.0051 * 1000)
  /\ generateCacheKey {| x := 1; y := 1; z := 0.5 |}
       {| x := 3; y := 2; z := 1.2 |} 5 4 3 10 10.0049
     <> generateCacheKey {| x := 1; y := 1; z := 0.5 |}
          {| x := 3; y := 2; z := 1.2 |} 5 4 3 10 10.0051.
Proof.
  split.
  - now rewrite (Math_round_val (10.0049 * 1000) 10005),
                (Math_round_val (10.0051 * 1000) 10005) by lra.
  - intros Hkey. apply (f_equal key_baseQFactor) in Hkey.
    cbn [key_baseQFactor generateCacheKey] in Hkey.
    rewrite (Math_round_val (10.0049 * 100) 1000),
            (Math_round_val (10.0051 * 100) 1001) in Hkey by lra.
    lra.
Qed.

(** C7, as the code has it.  Two consecutive calls whose cache keys agree
    (positions and dimensions rounded to 3 decimals, Q factor to 2, same mode
    order) return the same array: the second call is a cache hit that hands
    out the array of the first and changes nothing, so the two sequences are
    value-equal.  The array is shared, not copied: whatever a caller writes
    into it between the calls is what the later cache hit returns. *)
Theorem simulateRoomResponse_cache_shares_array :
  forall (subPos listenerPos : Point) (L W H : R) (baseQFactor : R)
         (subPos' listenerPos' : Point) (L' W' H' : R) (baseQFactor' : R)
         (maxModeOrder : nat) (st : State),
    cacheAllocated st ->
    generateCacheKey subPos listenerPos L W H maxModeOrder baseQFactor
    = generateCacheKey subPos' listenerPos' L' W' H' maxModeOrder
                       baseQFactor' ->
    let first :=
      simulateRoomResponse subPos listenerPos L W H maxModeOrder
                           baseQFactor st in
    let second :=
      simulateRoomResponse subPos' listenerPos' L' W' H' maxModeOrder
                           baseQFactor' (snd first) in
    fst second = fst first
    /\ snd second = snd first
    /\ deref (snd second) (fst second) = deref (snd first) (fst first)
    /\ forall written : list ModeResponse,
         let later :=
           simulateRoomResponse subPos' listenerPos' L' W' H' maxModeOrder
             baseQFactor' (mutate (snd first) (fst first) written) in
         fst later = fst first
         /\ deref (snd later) (fst later) = written.
Proof.
  intros subPos listenerPos L W H qf subPos' listenerPos' L' W' H' qf'
         order st Halloc Hkey first second.
  destruct (simulateRoomResponse_caches subPos listenerPos L W H order qf st
              Halloc) as [Hget Hlt].
  fold first in Hget, Hlt. rewrite Hkey in Hget.
  assert (Hsecond : second = first).
  { unfold second.
    rewrite (simulateRoomResponse_hit _ _ _ _ _ _ _ _ _ Hget).
    now destruct first. }
  rewrite Hsecond. repeat split.
  - assert (Hget' : cache_get
      (generateCacheKey subPos' listenerPos' L' W' H' order qf')
      (responseCache (mutate (snd first) (fst first) written))
      = Some (fst first)) by exact Hget.
    now rewrite (simulateRoomResponse_hit _ _ _ _ _ _ _ _ _ Hget').
  - assert (Hget' : cache_get
      (generateCacheKey subPos' listenerPos' L' W' H' order qf')
      (responseCache (mutate (snd first) (fst first) written))
      = Some (fst first)) by exact Hget.
    rewrite (simulateRoomResponse_hit _ _ _ _ _ _ _ _ _ Hget').
    cbn [fst snd]. now apply deref_mutate.
Qed.

Lemma simulateRoomResponse_cache_shares_array_witness :
  let first :=
    simulateRoomResponse {| x := 1; y := 1; z := 0.5 |}
      {| x := 3; y := 2; z := 1.2 |} 5 4 3 10 10 emptyState in
  fst (simulateRoomResponse {| x := 1; y := 1; z := 0.5 |}
         {| x := 3; y := 2; z := 1.2 |} 5 4 3 10 10 (snd first))
  = fst first.
Proof.
  apply (simulateRoomResponse_cache_shares_array
           {| x := 1; y := 1; z := 0.5 |} {| x := 3; y := 2; z := 1.2 |}
           5 4 3 10
           {| x := 1; y := 1; z := 0.5 |} {| x := 3; y := 2; z := 1.2 |}
           5 4 3 10 10 emptyState).
  - intros k a Hin. simpl in Hin. contradiction.
  - reflexivity.
Defined.

(** C7 as stated fails: the cache does not hand out copies.  After a first
    call on an empty cache the caller empties the array it received; the next
    call with the same arguments is a cache hit and returns the emptied
    array, not the 281 points of the first call. *)
Lemma simulateRoomResponse_mutation_reaches_cache :
  let first :=
    simulateRoomResponse {| x := 1; y := 1; z := 0.5 |}
      {| x := 3; y := 2; z := 1.2 |} 5 4 3 10 10 emptyState in
  let returned := deref (snd first) (fst first) in
  let later :=
    simulateRoomResponse {| x := 1; y := 1; z := 0.5 |}
      {| x := 3; y := 2; z := 1.2 |} 5 4 3 10 10
      (mutate (snd first) (fst first) []) in
  length returned = 281%nat
  /\ deref (snd later) (fst later) = []
  /\ deref (snd later) (fst later) <> returned.
Proof.
  intros first returned later.
  assert (Halloc : cacheAllocated emptyState)
    by (intros k a Hin; simpl in Hin; contradiction).
  destruct (simulateRoomResponse_caches {| x := 1; y := 1; z := 0.5 |}
              {| x := 3; y := 2; z := 1.2 |} 5 4 3 10 10 emptyState Halloc)
    as [Hget Hlt].
  fold first in Hget, Hlt.
  assert (Hret : length returned = 281%nat).
  { unfold returned, first.
    destruct (simulateRoomResponse_miss {| x := 1; y := 1; z := 0.5 |}
                {| x := 3; y := 2; z := 1.2 |} 5 4 3 10 10 emptyState
                eq_refl) as [cache1 [_ ->]].
    unfold deref; cbn [fst snd heap emptyState app length nth].
    apply calculateResponse_grid. }
  assert (Hlater : deref (snd later) (fst later) = []).
  { unfold later.
    assert (Hget' : cache_get
      (generateCacheKey {| x := 1; y := 1; z := 0.5 |}
         {| x := 3; y := 2; z := 1.2 |} 5 4 3 10 10)
      (responseCache (mutate (snd first) (fst first) []))
      = Some (fst first)) by exact Hget.
    rewrite (simulateRoomResponse_hit _ _ _ _ _ _ _ _ _ Hget').
    cbn [fst snd]. now apply deref_mutate. }
  split; [exact Hret|]. split; [exact Hlater|].
  rewrite Hlater. intros Hnil. rewrite <- Hnil in Hret. discriminate.
Qed.

(** ** Stale and overwritten cache entries *)

(** A room with length only: two points on the wall [x = 0], and the one
    mode, (1, 0, 0), that an order of 1 gives such a room. *)
Lemma calculateModePressure_axial p rl :
  rl <> 0 -> x p = 0 ->
  calculateModePressure 1 0 0 p {| L := rl; W := 0; H := 0 |} = -1.
Proof.
  intros Hl Hx. unfold calculateModePressure. cbn [L W H].
  rewrite Rseq_refl.
  replace (Rseq rl 0) with false
    by (symmetry; destruct (Rseq rl 0) eqn:E; [apply Rseq_true in E; lra|reflexivity]).
  rewrite Hx. unfold Math_cos, Math_PI. cbn [INR].
  replace (1 * PI * (rl - 0) / rl) with PI by (field; lra).
  replace (0 * PI * y p / 1e-6) with 0 by lra.
  replace (0 * PI * z p / 1e-6) with 0 by lra.
  rewrite cos_PI, cos_0. lra.
Qed.

Lemma Rseq_false a b : a <> b -> Rseq a b = false.
Proof.
  intros Hne. destruct (Rseq a b) eqn:E; [|reflexivity].
  apply Rseq_true in E. contradiction.
Qed.

Lemma modeContribution_no_width a b rl qf f n m l :
  rl <> 0 -> (n = O /\ m = O /\ l = O) \/ m <> O \/ l <> O ->
  modeContribution a b rl 0 0 qf f n m l = None.
Proof.
  intros Hl Hcase. unfold modeContribution.
  rewrite (Rseq_false rl 0 Hl), Rseq_refl. cbn [andb negb].
  destruct Hcase as [(-> & -> & ->) | Hml]; [reflexivity|].
  destruct (Nat.eqb m 0) eqn:Em.
  - apply Nat.eqb_eq in Em. subst m.
    destruct Hml as [Hm | Hl0]; [contradiction|].
    apply Nat.eqb_neq in Hl0. rewrite Hl0.
    rewrite !andb_false_r. reflexivity.
  - rewrite !andb_false_r. reflexivity.
Qed.

(** At 20 Hz the mode (1, 0, 0) of a room 5 m long, at 34.3 Hz, is the
    only term of the sum, and the magnitude is its amplitude. *)
Lemma magnitudeAt_axial a b qf :
  x a = 0 -> x b = 0 ->
  magnitudeAt a b 5 0 0 1 qf 20
  = 1 / sqrt ((1 - (200 / 343) ^ 2) ^ 2
              + (200 / 343 / Rmax 1 (qf * 2)) ^ 2).
Proof.
  intros Ha Hb.
  assert (H5 : 5 <> 0) by lra.
  unfold magnitudeAt.
  change (modeIndices 1)
    with [(0, 0, 0); (0, 0, 1); (0, 1, 0); (0, 1, 1);
          (1, 0, 0); (1, 0, 1); (1, 1, 0); (1, 1, 1)]%nat.
  cbn [fold_left].
  rewrite (modeContribution_no_width a b 5 qf 20 0 0 0 H5) by tauto.
  rewrite (modeContribution_no_width a b 5 qf 20 0 0 1 H5)
    by (right; right; discriminate).
  rewrite (modeContribution_no_width a b 5 qf 20 0 1 0 H5)
    by (right; left; discriminate).
  rewrite (modeContribution_no_width a b 5 qf 20 0 1 1 H5)
    by (right; left; discriminate).
  rewrite (modeContribution_no_width a b 5 qf 20 1 0 1 H5)
    by (right; right; discriminate).
  rewrite (modeContribution_no_width a b 5 qf 20 1 1 0 H5)
    by (right; left; discriminate).
  rewrite (modeContribution_no_width a b 5 qf 20 1 1 1 H5)
    by (right; left; discriminate).
  unfold modeContribution.
  rewrite (Rseq_false 5 0 H5), Rseq_refl. cbn [Nat.eqb andb negb INR].
  rewrite !calculateModePressure_axial by assumption.
  assert (Hmode : SPEED_OF_SOUND / 2 * Math_sqrt ((1 / 5) ^ 2 + 0 ^ 2 + 0 ^ 2)
                  = 343 / 10).
  { unfold SPEED_OF_SOUND, Math_sqrt.
    replace ((1 / 5) ^ 2 + 0 ^ 2 + 0 ^ 2) with ((1 / 5) * (1 / 5)) by lra.
    rewrite sqrt_square by lra. lra. }
  rewrite Hmode. cbv zeta.
  replace (IZR 20 / (343 / 10)) with (200 / 343) by lra.
  unfold FREQUENCY_MAX_HZ.
  rewrite (Rseq_false (343 / 10) 0) by (apply Rgt_not_eq; lra). cbn [andb].
  Rdecide. cbn [andb Nat.ltb Nat.leb].
  set (r := 200 / 343).
  set (q := Rmax 1 (qf * 2.0)).
  set (A := 1 / Math_sqrt ((1 - r ^ 2) ^ 2 + (r / q) ^ 2)).
  set (phi := Math_atan2 _ _).
  cbn [fst snd].
  unfold Math_sqrt, Math_cos, Math_sin in *.
  assert (HD : 0 < (1 - r ^ 2) ^ 2 + (r / q) ^ 2).
  { assert (0 < (1 - r ^ 2) ^ 2) by (unfold r; lra).
    pose proof (pow2_ge_0 (r / q)). lra. }
  assert (HA : 0 < A).
  { unfold A. apply Rdiv_lt_0_compat; [lra|]. now apply sqrt_lt_R0. }
  replace ((0 + -1 * -1 * A * cos phi) ^ 2 + (0 + -1 * -1 * A * sin phi) ^ 2)
    with (A * A * ((sin phi)² + (cos phi)²)) by (unfold Rsqr; ring).
  rewrite sin2_cos2, Rmult_1_r, sqrt_square by lra.
  unfold A, q. replace (qf * 2.0) with (qf * 2) by lra. reflexivity.
Qed.

Lemma calculateResponse_head a b rl rw rh order qf :
  exists rest,
    calculateResponse a b rl rw rh order qf
    = {| freq := 20;
         db := Math_max MIN_DB_VALUE
                 (if Rleb (magnitudeAt a b rl rw rh order qf 20) 1e-9
                  then MIN_DB_VALUE
                  else 20 * Math_log10
                              (magnitudeAt a b rl rw rh order qf 20)) |}
      :: rest.
Proof.
  unfold calculateResponse, range, FREQUENCY_MIN_HZ, FREQUENCY_MAX_HZ,
    FREQUENCY_STEP_HZ.
  change (Z.to_nat ((300 - 20) / 1 + 1)) with (S 280).
  cbn [seq map]. eexists. reflexivity.
Qed.

(** With a higher Q factor the level of the room 5 m long at 20 Hz is
    higher. *)
Lemma calculateResponse_axial_Q a b q1 q2 :
  x a = 0 -> x b = 0 -> 1 <= q2 * 2 < q1 * 2 ->
  calculateResponse a b 5 0 0 1 q1 <> calculateResponse a b 5 0 0 1 q2.
Proof.
  intros Ha Hb Hq Heq.
  destruct (calculateResponse_head a b 5 0 0 1 q1) as [rest1 H1].
  destruct (calculateResponse_head a b 5 0 0 1 q2) as [rest2 H2].
  rewrite H1, H2 in Heq. injection Heq as Hdb _.
  rewrite !magnitudeAt_axial in Hdb by assumption.
  rewrite (Rmax_right 1 (q1 * 2)), (Rmax_right 1 (q2 * 2)) in Hdb by lra.
  set (r := 200 / 343) in *.
  assert (Hr : 0 < r < 1) by (unfold r; lra).
  assert (Hbase : 0 < (1 - r ^ 2) ^ 2).
  { apply pow_lt. nra. }
  assert (Hterm : forall q, 1 <= q -> 0 <= (r / q) ^ 2 <= 1).
  { intros q Hq1. split; [apply pow2_ge_0|].
    assert (0 <= r / q <= 1).
    { split.
      - apply Rmult_le_pos; [lra|]. left. apply Rinv_0_lt_compat. lra.
      - apply (Rmult_le_reg_r q); [lra|].
        unfold Rdiv. rewrite Rmult_assoc, Rinv_l by lra. lra. }
    nra. }
  assert (Hlt : (r / (q1 * 2)) ^ 2 < (r / (q2 * 2)) ^ 2).
  { assert (0 < r / (q1 * 2) < r / (q2 * 2)).
    { split.
      - apply Rdiv_lt_0_compat; lra.
      - unfold Rdiv. apply Rmult_lt_compat_l; [lra|].
        apply Rinv_lt_contravar; [nra | lra]. }
    nra. }
  set (D1 := (1 - r ^ 2) ^ 2 + (r / (q1 * 2)) ^ 2) in *.
  set (D2 := (1 - r ^ 2) ^ 2 + (r / (q2 * 2)) ^ 2) in *.
  pose proof (Hterm (q1 * 2) ltac:(lra)) as Ht1.
  pose proof (Hterm (q2 * 2) ltac:(lra)) as Ht2.
  assert (HD : 0 < D1 < D2 /\ D2 <= 2).
  { unfold D1, D2.
    assert (Hu : 0 < 1 - r ^ 2 <= 1) by (simpl; nra).
    assert ((1 - r ^ 2) ^ 2 <= 1).
    { replace ((1 - r ^ 2) ^ 2) with ((1 - r ^ 2) * (1 - r ^ 2)) by ring.
      nra. }
    lra. }
  assert (Hs : 0 < sqrt D1 < sqrt D2 /\ sqrt D2 <= 2).
  { split; [split|].
    - apply sqrt_lt_R0; lra.
    - apply sqrt_lt_1; lra.
    - apply Rle_trans with (sqrt 2); [apply sqrt_le_1; lra|].
      rewrite <- (sqrt_square 2) at 2 by lra. apply sqrt_le_1; lra. }
  assert (HA : 1 / 2 <= 1 / sqrt D2 < 1 / sqrt D1).
  { unfold Rdiv. rewrite !Rmult_1_l. split.
    - apply Rinv_le_contravar; lra.
    - apply Rinv_lt_contravar; [nra | lra]. }
  set (A1 := 1 / sqrt D1) in *. set (A2 := 1 / sqrt D2) in *.
  unfold Math_sqrt in Hdb. fold D1 D2 A1 A2 in Hdb.
  rewrite (proj2 (Rleb_false A1 1e-9)) in Hdb by lra.
  rewrite (proj2 (Rleb_false A2 1e-9)) in Hdb by lra.
  pose proof ln10_pos as Hln10. pose proof ln2_pos as Hln2.
  assert (Hln : - ln 2 <= ln A2 < ln A1).
  { split.
    - rewrite <- ln_Rinv by lra. apply ln_le_mono; lra.
    - apply ln_increasing; lra. }
  assert (H210 : ln 2 < ln 10) by (apply ln_increasing; lra).
  assert (Hlog : -100 < 20 * Math_log10 A2 < 20 * Math_log10 A1).
  { unfold Math_log10. split.
    - apply Rlt_le_trans with (20 * (- ln 10 / ln 10)).
      + replace (- ln 10 / ln 10) with (-1) by (field; lra). lra.
      + apply Rmult_le_compat_l; [lra|].
        apply Rmult_le_compat_r; [left; now apply Rinv_0_lt_compat | lra].
    - apply Rmult_lt_compat_l; [lra|].
      apply Rmult_lt_compat_r; [now apply Rinv_0_lt_compat | lra]. }
  unfold Math_max, MIN_DB_VALUE in Hdb.
  rewrite (Rmax_right (-100) (20 * Math_log10 A1)),
          (Rmax_right (-100) (20 * Math_log10 A2)) in Hdb by lra.
  lra.
Qed.

(** The state after one call on the empty module state. *)
Lemma simulateRoomResponse_first_call a b rl rw rh order qf :
  simulateRoomResponse a b rl rw rh order qf emptyState
  = (O, {| heap := [calculateResponse a b rl rw rh order qf];
           responseCache := [(generateCacheKey a b rl rw rh order qf, O)] |}).
Proof.
  destruct (simulateRoomResponse_miss a b rl rw rh order qf emptyState
              eq_refl) as [cache1 [Hsub ->]].
  destruct cache1 as [|e cache1]; [reflexivity|].
  destruct (Hsub e (or_introl eq_refl)).
Qed.

(** C4 as stated fails when the cache holds a stale entry.  The Q factor
    enters the key rounded to two decimals: after a call with a Q factor of
    10.004, a call with 10 for the same arrangement hits that entry and
    returns the response computed for 10.004, while the call for the swapped
    arrangement misses and computes the response for 10.  In a room 5 m long
    without width and height, with modes up to order 1, the two returned
    sequences differ at 20 Hz. *)
Lemma simulateRoomResponse_stale_entry :
  let a := {| x := 0; y := 0; z := 0 |} in
  let b := {| x := 0; y := 1; z := 0 |} in
  let warm := simulateRoomResponse a b 5 0 0 1 10.004 emptyState in
  let first := simulateRoomResponse a b 5 0 0 1 10 (snd warm) in
  let second := simulateRoomResponse b a 5 0 0 1 10 (snd first) in
  deref (snd first) (fst first) = calculateResponse a b 5 0 0 1 10.004
  /\ deref (snd second) (fst second) = calculateResponse b a 5 0 0 1 10
  /\ deref (snd second) (fst first) <> deref (snd second) (fst second).
Proof.
  intros a b warm first second.
  assert (Hkey : generateCacheKey a b 5 0 0 1 10
                 = generateCacheKey a b 5 0 0 1 10.004).
  { unfold generateCacheKey. f_equal.
    now rewrite (Math_round_val (10 * 100) 1000),
                (Math_round_val (10.004 * 100) 1000) by lra. }
  assert (Hother : CacheKey_eqb (generateCacheKey a b 5 0 0 1 10.004)
                                (generateCacheKey b a 5 0 0 1 10) = false).
  { destruct (CacheKey_eqb _ _) eqn:E; [|reflexivity].
    apply CacheKey_eqb_eq in E. apply (f_equal (fun k => y (key_sub k))) in E.
    cbn [generateCacheKey key_sub y a b] in E.
    rewrite (Math_round_val (0 * 1000) 0),
            (Math_round_val (1 * 1000) 1000) in E by lra.
    lra. }
  assert (Hwarm : warm
            = (O, {| heap := [calculateResponse a b 5 0 0 1 10.004];
                     responseCache :=
                       [(generateCacheKey a b 5 0 0 1 10.004, O)] |}))
    by apply simulateRoomResponse_first_call.
  assert (Hfirst : first = warm).
  { unfold first. rewrite Hwarm. cbn [snd].
    apply simulateRoomResponse_hit. rewrite Hkey.
    unfold cache_get. cbn [responseCache find fst].
    now rewrite CacheKey_eqb_refl. }
  assert (Hsecond : second
            = (1%nat, {| heap := [calculateResponse a b 5 0 0 1 10.004;
                                  calculateResponse b a 5 0 0 1 10];
                         responseCache :=
                           [(generateCacheKey a b 5 0 0 1 10.004, O);
                            (generateCacheKey b a 5 0 0 1 10, 1%nat)] |})).
  { unfold second. rewrite Hfirst, Hwarm. cbn [snd].
    unfold simulateRoomResponse, cache_get.
    cbn [responseCache find fst]. rewrite Hother.
    cbn [option_map length heap app Nat.leb CACHE_SIZE_LIMIT].
    reflexivity. }
  rewrite Hsecond, Hfirst, Hwarm. unfold deref. cbn [fst snd heap nth].
  split; [reflexivity|]. split; [reflexivity|].
  rewrite <- (calculateResponse_symmetric a b 5 0 0 1 10).
  apply calculateResponse_axial_Q; [reflexivity | reflexivity | lra].
Qed.

(** C1 as stated fails on a cache hit after a caller has written into the
    array it was handed: the call returns that array as it is now, here
    without any point. *)
Lemma simulateRoomResponse_hit_after_write :
  let a := {| x := 1; y := 1; z := 0.5 |} in
  let b := {| x := 3; y := 2; z := 1.2 |} in
  let st := fold_left runOp [op_simulate a b 5 4 3 10 10; op_write O []]
                      emptyState in
  let result := simulateRoomResponse a b 5 4 3 10 10 st in
  deref (snd result) (fst result) = []
  /\ ~ gridResponse (deref (snd result) (fst result)).
Proof.
  intros a b st result.
  assert (Hst : st
            = {| heap := [[]];
                 responseCache := [(generateCacheKey a b 5 4 3 10 10, O)] |}).
  { unfold st. cbn [fold_left runOp].
    now rewrite simulateRoomResponse_first_call. }
  assert (Hres : result = (O, st)).
  { unfold result. rewrite Hst. apply simulateRoomResponse_hit.
    unfold cache_get. cbn [responseCache find fst].
    now rewrite CacheKey_eqb_refl. }
  assert (Hnil : deref (snd result) (fst result) = []).
  { rewrite Hres, Hst. reflexivity. }
  split; [exact Hnil|]. rewrite Hnil.
  intros Hgrid. now apply (gridResponse_not_nil [] Hgrid).
Qed.

(** ** Generator: degenerate inputs *)

(** C6.  With an empty room response or an empty target response the
    generator returns at once a disabled setting without bands (carrying the
    limits of the options), whatever the options are; no pass is run. *)
Theorem generateOptimalEQ_empty_input :
  forall (roomResponse targetResponse : list ModeResponse) (options : Opt.t),
    roomResponse = [] \/ targetResponse = [] ->
    generateOptimalEQ roomResponse targetResponse options
    = {| bands := [];
         enabled := false;
         maxBoost := orDefault (Opt.maxBoost options) 12.0;
         maxCut := orDefault (Opt.maxCut options) 18.0;
         smoothing := orDefault (Opt.smoothing options) 0.02 |}.
Proof.
  intros roomResponse targetResponse options [-> | ->].
  - reflexivity.
  - unfold generateOptimalEQ. destruct roomResponse; reflexivity.
Qed.

Lemma generateOptimalEQ_empty_input_witness :
  bands (generateOptimalEQ [] [ {| freq := 20; db := 0 |} ]
           {| Opt.numBands := Some 10%nat; Opt.maxBoost := None;
              Opt.maxCut := None; Opt.smoothing := None; Opt.minQ := None;
              Opt.maxQ := None; Opt.schroederFreq := None;
              Opt.subPos := None; Opt.listenerPos := None;
              Opt.roomDimensions := None; Opt.baseQFactor := None |}) = [].
Proof.
  rewrite generateOptimalEQ_empty_input; [reflexivity | now left].
Defined.

(** ** Generator: band budget and gain limits *)

Lemma sort_insert_perm {A} (cmp : A -> A -> R) a l :
  Permutation (sort_insert cmp a l) (a :: l).
Proof.
  induction l as [|b l IH]; simpl; [reflexivity|].
  destruct (Rleb (cmp a b) 0); [reflexivity|].
  rewrite IH. apply perm_swap.
Qed.

Lemma sort_perm {A} (cmp : A -> A -> R) l : Permutation (sort cmp l) l.
Proof.
  unfold sort; induction l as [|a l IH]; simpl; [reflexivity|].
  rewrite sort_insert_perm. now constructor.
Qed.

Lemma len_app {A} (l1 l2 : list A) : len (l1 ++ l2) = (len l1 + len l2)%Z.
Proof. unfold len. rewrite length_app. lia. Qed.

Lemma len_nonneg {A} (l : list A) : (0 <= len l)%Z.
Proof. unfold len; lia. Qed.

Lemma Math_round_tenth v : Rabs (Math_round (v * 10) / 10) <= Rabs v + 0.05.
Proof.
  unfold Math_round.
  pose proof (Zfloor_bound (v * 10 + 1 / 2)) as [Hlo Hhi].
  set (n := IZR (Zfloor (v * 10 + 1 / 2))) in *.
  unfold Rabs. destruct (Rcase_abs (n / 10)); destruct (Rcase_abs v); lra.
Qed.

Lemma bandFor_gain e M pt mb mc minQ maxQ sm sf band :
  0 <= mb -> 0 <= mc ->
  bandFor e M pt mb mc minQ maxQ sm sf = Some band ->
  Rabs (gain band) <= Rmax mb mc + 0.05.
Proof.
  intros Hmb Hmc. unfold bandFor.
  set (g0 := _ * (_ * _)).
  set (g := if Rgtb g0 0 then Math_min g0 mb else Math_max g0 (- mc)).
  destruct (Rgtb (Math_abs g) 0.2); [|discriminate].
  intros Hband; injection Hband as <-; simpl.
  eapply Rle_trans; [apply Math_round_tenth|].
  assert (Hg : Rabs g <= Rmax mb mc); [|lra].
  pose proof (Rmax_l mb mc). pose proof (Rmax_r mb mc).
  unfold g, Rgtb, Math_min, Math_max.
  destruct (Rltb 0 g0) eqn:E;
    [apply Rltb_true in E | apply Rltb_false in E].
  - unfold Rmin; destruct (Rle_dec g0 mb); rewrite Rabs_right; lra.
  - unfold Rmax at 1; destruct (Rle_dec g0 (- mc));
      rewrite Rabs_left1; lra.
Qed.

Lemma bandLoop_len M pt mb mc minQ maxQ sm sf errs bs :
  (len bs <= Z.max 0 M)%Z ->
  (len (bandLoop M pt mb mc minQ maxQ sm sf errs bs) <= Z.max 0 M)%Z.
Proof.
  revert bs; induction errs as [|e errs IH]; intros bs Hlen; simpl;
    [assumption|].
  destruct (len bs >=? M)%Z eqn:E; [assumption|].
  destruct (bandFor e M pt mb mc minQ maxQ sm sf); apply IH;
    [|assumption].
  rewrite len_app. unfold len at 2; simpl. lia.
Qed.

Lemma bandLoop_gain (P : EQBand -> Prop) M pt mb mc minQ maxQ sm sf errs bs :
  (forall e band, bandFor e M pt mb mc minQ maxQ sm sf = Some band -> P band)
  -> Forall P bs ->
  Forall P (bandLoop M pt mb mc minQ maxQ sm sf errs bs).
Proof.
  intros Hfor. revert bs; induction errs as [|e errs IH]; intros bs Hbs;
    simpl; [assumption|].
  destruct (len bs >=? M)%Z; [assumption|].
  destruct (bandFor e M pt mb mc minQ maxQ sm sf) as [band|] eqn:Eb;
    apply IH; [|assumption].
  apply Forall_app; split; [assumption|].
  constructor; [|constructor]. exact (Hfor e band Eb).
Qed.

Lemma addSpectralBalanceCorrection_room bs cur tgt M mc sf band :
  addSpectralBalanceCorrection bs cur tgt M mc sf = Some band ->
  (len bs < M)%Z.
Proof.
  unfold addSpectralBalanceCorrection.
  destruct (len bs >=? M)%Z eqn:Elen; [discriminate|]. lia.
Qed.

Lemma addSpectralBalanceCorrection_gain bs cur tgt M mc sf band :
  0 <= mc ->
  addSpectralBalanceCorrection bs cur tgt M mc sf = Some band ->
  Rabs (gain band) <= 0.6 * mc + 0.05.
Proof.
  intros Hmc. unfold addSpectralBalanceCorrection.
  destruct (len bs >=? M)%Z; [discriminate|].
  destruct (Nat.eqb _ 0); [discriminate|].
  destruct (Rltb _ 2.0); [discriminate|].
  destruct (_ || _); [discriminate|].
  destruct (fold_left _ _ (0, O)) as [total valid].
  destruct (Nat.eqb valid 0); [discriminate|].
  destruct (Rltb (total / INR valid) 1.5) eqn:Eavg; [discriminate|].
  apply Rltb_false in Eavg.
  intros Hband; injection Hband as <-; simpl.
  eapply Rle_trans; [apply Math_round_tenth|].
  assert (Hg : Rabs (Math_max (- mc * 0.6) (- (total / INR valid) * 0.8))
               <= 0.6 * mc); [|lra].
  unfold Math_max, Rmax. destruct (Rle_dec _ _); rewrite Rabs_left1; lra.
Qed.

Lemma generateEQPass_len cur tgt M pt mb mc minQ maxQ sm sf used :
  (len (generateEQPass cur tgt M pt mb mc minQ maxQ sm sf used)
   <= Z.max 0 M)%Z.
Proof.
  unfold generateEQPass.
  set (bs := bandLoop _ _ _ _ _ _ _ _ _ _).
  assert (Hbs : (len bs <= Z.max 0 M)%Z).
  { apply bandLoop_len. unfold len; simpl; lia. }
  destruct (_ && _); [|assumption].
  destruct (addSpectralBalanceCorrection _ _ _ _ _ _) as [band|] eqn:Es;
    [|assumption].
  apply addSpectralBalanceCorrection_room in Es.
  rewrite len_app. unfold len at 2; simpl. lia.
Qed.

Lemma generateEQPass_gain cur tgt M pt mb mc minQ maxQ sm sf used :
  0 <= mb -> 0 <= mc ->
  Forall (fun band => Rabs (gain band) <= Rmax mb mc + 0.05)
         (generateEQPass cur tgt M pt mb mc minQ maxQ sm sf used).
Proof.
  intros Hmb Hmc. unfold generateEQPass.
  set (bs := bandLoop _ _ _ _ _ _ _ _ _ _).
  assert (Hbs : Forall (fun band => Rabs (gain band) <= Rmax mb mc + 0.05)
                       bs).
  { apply bandLoop_gain; [|constructor].
    intros e band. now apply bandFor_gain. }
  destruct (_ && _); [|assumption].
  destruct (addSpectralBalanceCorrection _ _ _ _ _ _) as [band|] eqn:Es;
    [|assumption].
  apply addSpectralBalanceCorrection_gain in Es; [|assumption].
  apply Forall_app; split; [assumption|]. constructor; [|constructor].
  pose proof (Rmax_r mb mc). lra.
Qed.

Lemma generateCorrectiveBands_len problems k :
  (len (generateCorrectiveBands problems k) <= Z.max 0 k)%Z.
Proof.
  unfold generateCorrectiveBands, len.
  rewrite length_map, length_firstn. lia.
Qed.

Lemma Zceil_share n s :
  (0 <= n)%Z -> 0 <= s <= 1 -> (0 <= Zceil (IZR n * s) <= n)%Z.
Proof.
  intros Hn Hs. apply IZR_le in Hn.
  pose proof (Zceil_bound (IZR n * s)) as [Hlo Hhi]. split.
  - apply le_IZR. apply Rnot_lt_le; intros Hneg.
    assert (IZR (Zceil (IZR n * s)) <= -1).
    { apply IZR_le. apply lt_IZR in Hneg. lia. }
    nra.
  - apply le_IZR. apply Rnot_lt_le; intros Hbig.
    assert (IZR n + 1 <= IZR (Zceil (IZR n * s))).
    { rewrite <- plus_IZR. apply IZR_le. apply lt_IZR in Hbig. lia. }
    nra.
Qed.

Lemma scaled_cap mb mc k :
  0 <= mb -> 0 <= mc -> 0 <= k <= 0.95 ->
  Rmax (mb * k) (mc * k) <= 0.95 * Rmax mb mc.
Proof.
  intros Hmb Hmc Hk.
  pose proof (Rmax_l mb mc). pose proof (Rmax_r mb mc).
  unfold Rmax at 1. destruct (Rle_dec (mb * k) (mc * k)); nra.
Qed.

Lemma withinPass_generateEQPass options cur tgt M pt k minQ maxQ sm sf used :
  0 <= k ->
  withinPass options M k
    (generateEQPass cur tgt M pt (orDefault (Opt.maxBoost options) 12.0 * k)
       (orDefault (Opt.maxCut options) 18.0 * k) minQ maxQ sm sf used).
Proof.
  intros Hk. split.
  - apply generateEQPass_len.
  - intros Hmb Hmc. apply generateEQPass_gain; nra.
Qed.

Lemma withinPass_nil options M k : withinPass options M k [].
Proof. split; [unfold len; simpl; lia | intros _ _; constructor]. Qed.

(** The shape of the result on non-empty inputs: the bands of the first
    pass, its corrective bands, and the bands of three later passes, each
    within its own budget and limits, sorted by frequency. *)
Lemma generateOptimalEQ_passes room target options :
  room <> [] -> target <> [] ->
  let n := Z.of_nat (orDefault (Opt.numBands options) 20%nat) in
  let p1c := pass1BandsOf room target options
             ++ correctiveBandsOf room target options in
  exists p2 p3 p4,
    bands (generateOptimalEQ room target options)
    = sort byFrequency (p1c ++ p2 ++ p3 ++ p4)
    /\ withinPass options (Z.min (Zceil (IZR n * 0.3)) (n - len p1c)) 0.9 p2
    /\ withinPass options
         (Z.min (Zceil (IZR n * 0.25)) (n - len p1c - len p2)) 0.8 p3
    /\ withinPass options (n - len p1c - len p2 - len p3) 0.7 p4.
Proof.
  intros Hr Ht n p1c. subst n p1c.
  unfold generateOptimalEQ, correctiveBandsOf, pass1BandsOf.
  destruct room as [|r0 room]; [contradiction|].
  destruct target as [|t0 target]; [contradiction|].
  cbn [length Nat.eqb orb]. cbv zeta.
  set (n := Z.of_nat (orDefault (Opt.numBands options) 20%nat)).
  set (mb := orDefault (Opt.maxBoost options) 12.0).
  set (mc := orDefault (Opt.maxCut options) 18.0).
  set (sm := orDefault (Opt.smoothing options) 0.02).
  set (c1 := Zceil (IZR n * 0.3)).
  set (p1 := generateEQPass (r0 :: room) (t0 :: target) c1 broad
               _ _ _ _ _ _ _).
  set (r1 := applyEQToResponse _ _).
  set (probs := analyzePostEQProblems _ _ _ _).
  set (p1c := if Nat.ltb 0 (length probs) then p1 ++ _ else p1).
  set (corr := if Nat.ltb 0 (length probs) then _ else []).
  assert (Hp1c : p1c = p1 ++ corr).
  { unfold p1c, corr. destruct (Nat.ltb 0 (length probs));
      [reflexivity | now rewrite app_nil_r]. }
  set (m2 := Z.min c1 (n - len p1c)).
  set (p2 := generateEQPass r1 _ m2 targeted _ _ _ _ _ _ _).
  set (r2 := applyEQToResponse _ _).
  set (c3 := Zceil (IZR n * 0.25)).
  set (m3 := Z.min c3 (n - len p1c - len p2)).
  set (p3 := generateEQPass r2 _ m3 polishing _ _ _ _ _ _ _).
  set (r3 := applyEQToResponse _ _).
  set (m4 := (n - len p1c - len p2 - len p3)%Z).
  set (p4 := generateEQPass r3 _ m4 ultra_fine _ _ _ _ _ _ _).
  assert (H2 : withinPass options m2 0.9 p2)
    by (apply withinPass_generateEQPass; fold mb mc; lra).
  assert (H3 : withinPass options m3 0.8 p3)
    by (apply withinPass_generateEQPass; fold mb mc; lra).
  assert (H4 : withinPass options m4 0.7 p4)
    by (apply withinPass_generateEQPass; fold mb mc; lra).
  rewrite <- Hp1c.
  destruct (m3 >? 0)%Z eqn:E3.
  - destruct (m4 >? 0)%Z eqn:E4.
    + exists p2, p3, p4. cbn [bands].
      split; [reflexivity|]. split; [exact H2|]. split; [exact H3|exact H4].
    + exists p2, p3, []. cbn [bands]. rewrite app_nil_r.
      split; [reflexivity|]. split; [exact H2|]. split; [exact H3|].
      apply withinPass_nil.
  - exists p2, [], []. cbn [bands app]. rewrite app_nil_r.
    split; [reflexivity|]. split; [exact H2|].
    split; apply withinPass_nil.
Qed.

Lemma generateOptimalEQ_bands_nil room target options :
  room = [] \/ target = [] ->
  bands (generateOptimalEQ room target options) = [].
Proof.
  intros [-> | ->]; [reflexivity|].
  unfold generateOptimalEQ. destruct room; reflexivity.
Qed.

Lemma pass1BandsOf_within room target options :
  withinPass options
    (Zceil (IZR (Z.of_nat (orDefault (Opt.numBands options) 20%nat)) * 0.3))
    0.95 (pass1BandsOf room target options).
Proof.
  unfold pass1BandsOf; cbv zeta.
  apply withinPass_generateEQPass; lra.
Qed.

Lemma correctiveBandsOf_len room target options :
  (len (correctiveBandsOf room target options)
   <= Z.max 0
        (Zceil (IZR (Z.of_nat (orDefault (Opt.numBands options) 20%nat))
                * 0.3)
         - len (pass1BandsOf room target options)))%Z.
Proof.
  unfold correctiveBandsOf, pass1BandsOf; cbv zeta.
  destruct (Nat.ltb 0 _).
  - apply generateCorrectiveBands_len.
  - unfold len at 1; simpl; lia.
Qed.

Lemma optionals_Forall {A B} (P : B -> Prop) (f : A -> option B) l :
  (forall a b, f a = Some b -> P b) -> Forall P (optionals (map f l)).
Proof.
  intros Hf. induction l as [|a l IH]; simpl; [constructor|].
  destruct (f a) as [b|] eqn:Ef; [|assumption].
  constructor; [exact (Hf a b Ef) | assumption].
Qed.

Lemma scanMidpoint_severity eqResponse targetResponse cfs problem :
  scanMidpoint eqResponse targetResponse cfs = Some problem ->
  2 < Problem.severity problem.
Proof.
  induction cfs as [|cf cfs IH]; simpl; [discriminate|].
  destruct (findNear 0.5 eqResponse cf) as [p|]; [|exact IH].
  destruct (findNear 0.5 targetResponse cf) as [t|]; [|exact IH].
  unfold Rgtb. destruct (Rltb 2 (db p - db t)) eqn:E; [|exact IH].
  intros Hsome; injection Hsome as <-. now apply Rltb_true in E.
Qed.

(** Every problem of the post-EQ analysis is an overshoot above 2 dB. *)
Lemma analyzePostEQProblems_severity eqResponse targetResponse applied sf :
  Forall (fun problem => 2 < Problem.severity problem)
         (analyzePostEQProblems eqResponse targetResponse applied sf).
Proof.
  unfold analyzePostEQProblems.
  destruct (Nat.ltb _ 2); [constructor|].
  apply Forall_app; split; apply optionals_Forall.
  - intros [band1 band2] problem. unfold interactionProblem.
    destruct (Rgtb _ 80); [discriminate|]. apply scanMidpoint_severity.
  - intros band problem. unfold overcorrectionProblem.
    destruct (findNear 1 eqResponse _) as [p|]; [|discriminate].
    destruct (findNear 1 targetResponse _) as [t|]; [|discriminate].
    unfold Rgtb. destruct (Rltb 3 (db p - db t)) eqn:E; [|discriminate].
    intros Hsome; injection Hsome as <-. apply Rltb_true in E. simpl. lra.
Qed.

Lemma firstn_In {A} n (l : list A) a : In a (firstn n l) -> In a l.
Proof.
  intros Hin. rewrite <- (firstn_skipn n l). apply in_or_app. now left.
Qed.

(** A corrective band answers one problem with a cut of 0.95 times its
    severity, rounded to a tenth of a dB; no limit is applied. *)
Lemma generateCorrectiveBands_gain problems k band :
  In band (generateCorrectiveBands problems k) ->
  exists problem,
    In problem problems
    /\ gain band = Math_round (- Problem.severity problem * 0.95 * 10) / 10.
Proof.
  unfold generateCorrectiveBands. intros Hin.
  apply in_map_iff in Hin as [problem [<- Hin]].
  exists problem. split; [|reflexivity].
  eapply Permutation_in; [apply sort_perm|].
  eapply firstn_In. exact Hin.
Qed.

Lemma correctiveBandsOf_gain room target options band :
  In band (correctiveBandsOf room target options) ->
  exists severity,
    2 < severity /\ gain band = Math_round (- severity * 0.95 * 10) / 10.
Proof.
  unfold correctiveBandsOf; cbv zeta.
  destruct (Nat.ltb 0 _); [|intros []].
  intros Hin. apply generateCorrectiveBands_gain in Hin
    as [problem [Hin Hgain]].
  exists (Problem.severity problem). split; [|exact Hgain].
  exact (proj1 (Forall_forall _ _)
           (analyzePostEQProblems_severity _ _ _ _) problem Hin).
Qed.

(** C2, as the code has it.  The result never has more than [numBands]
    bands.  With limits that are not negative, every band that one of the
    four passes generated has a gain of magnitude at most 0.95 max(maxBoost,
    maxCut) + 0.05 dB: the pass clamps the gain to its scaled limits and then
    rounds it to a tenth of a dB.  The bound is not stated for the corrective
    bands appended after the post-EQ analysis of the first pass. *)
Theorem generateOptimalEQ_budget_and_gain :
  forall (roomResponse targetResponse : list ModeResponse) (options : Opt.t),
    let result := generateOptimalEQ roomResponse targetResponse options in
    (length (bands result) <= orDefault (Opt.numBands options) 20)%nat
    /\ (0 <= orDefault (Opt.maxBoost options) 12.0 ->
        0 <= orDefault (Opt.maxCut options) 18.0 ->
        forall band, In band (bands result) ->
          Rabs (gain band) <= gainCap options + 0.05
          \/ In band (correctiveBandsOf roomResponse targetResponse options)).
Proof.
  intros room target options result. subst result.
  destruct room as [|r0 room].
  { rewrite generateOptimalEQ_bands_nil by now left.
    split; [simpl; lia | intros _ _ band []]. }
  destruct target as [|t0 target].
  { rewrite generateOptimalEQ_bands_nil by now right.
    split; [simpl; lia | intros _ _ band []]. }
  destruct (generateOptimalEQ_passes (r0 :: room) (t0 :: target) options)
    as [p2 [p3 [p4 [Hbands [[L2 G2] [[L3 G3] [L4 G4]]]]]]];
    try discriminate.
  destruct (pass1BandsOf_within (r0 :: room) (t0 :: target) options)
    as [L1 G1].
  pose proof (correctiveBandsOf_len (r0 :: room) (t0 :: target) options)
    as Lc.
  set (n := Z.of_nat (orDefault (Opt.numBands options) 20%nat)) in *.
  set (p1 := pass1BandsOf (r0 :: room) (t0 :: target) options) in *.
  set (corr := correctiveBandsOf (r0 :: room) (t0 :: target) options) in *.
  assert (Hn : (0 <= n)%Z) by (unfold n; lia).
  pose proof (Zceil_share n 0.3 Hn ltac:(lra)) as Hc1.
  pose proof (Zceil_share n 0.25 Hn ltac:(lra)) as Hc3.
  rewrite Hbands. split.
  - assert (Hlen : (len (p1 ++ corr ++ p2 ++ p3 ++ p4) <= n)%Z).
    { rewrite !len_app in *.
      pose proof (len_nonneg p1). pose proof (len_nonneg corr).
      pose proof (len_nonneg p2). pose proof (len_nonneg p3).
      pose proof (len_nonneg p4). lia. }
    apply Nat2Z.inj_le. rewrite (Permutation_length (sort_perm _ _)).
    rewrite <- app_assoc. exact Hlen.
  - intros Hmb Hmc band Hin.
    specialize (G1 Hmb Hmc). specialize (G2 Hmb Hmc).
    specialize (G3 Hmb Hmc). specialize (G4 Hmb Hmc).
    apply (Permutation_in _ (sort_perm _ _)) in Hin.
    assert (Hcap : forall k, 0 <= k <= 0.95 ->
      Rmax (orDefault (Opt.maxBoost options) 12.0 * k)
           (orDefault (Opt.maxCut options) 18.0 * k) + 0.05
      <= gainCap options + 0.05).
    { intros k Hk. unfold gainCap.
      pose proof (scaled_cap _ _ k Hmb Hmc Hk). lra. }
    rewrite <- app_assoc in Hin.
    apply in_app_or in Hin as [Hin | Hin];
      [|apply in_app_or in Hin as [Hin | Hin];
        [|apply in_app_or in Hin as [Hin | Hin];
          [|apply in_app_or in Hin as [Hin | Hin]]]].
    + left. eapply Rle_trans;
        [exact (proj1 (Forall_forall _ _) G1 band Hin) | apply Hcap; lra].
    + now right.
    + left. eapply Rle_trans;
        [exact (proj1 (Forall_forall _ _) G2 band Hin) | apply Hcap; lra].
    + left. eapply Rle_trans;
        [exact (proj1 (Forall_forall _ _) G3 band Hin) | apply Hcap; lra].
    + left. eapply Rle_trans;
        [exact (proj1 (Forall_forall _ _) G4 band Hin) | apply Hcap; lra].
Qed.

(** ** Generator: two runs traced through the first pass *)

(** *** One point, one band *)

Lemma firstWithin1Hz_head t rest f :
  Rabs (freq t - f) < 1 -> firstWithin1Hz (t :: rest) f = Some t.
Proof.
  intros Hnear. unfold firstWithin1Hz; cbn [find].
  now rewrite (proj2 (Rltb_true _ _) Hnear).
Qed.

Lemma errors_singlePointRoom :
  errorByFrequency (analyzeTargetError singlePointRoom singlePointTarget)
  = [lowError].
Proof.
  rewrite analyzeTargetError_entries.
  unfold matchedPairs, singlePointRoom, singlePointTarget.
  cbn [flat_map freq].
  rewrite firstWithin1Hz_head by (cbn [freq]; Rdecide; lra).
  reflexivity.
Qed.

Lemma zoneStep_all_taken pt M used errs distributed zone :
  Forall (fun e =>
    some (fun d => Rltb (Math_abs (Err.freq d - Err.freq e)) 1) distributed
    = true) errs ->
  zoneStep pt M used errs distributed zone = distributed.
Proof.
  intros Hall. unfold zoneStep.
  replace (filter _ errs) with (@nil Err.t); [reflexivity|].
  symmetry. induction Hall as [|e errs He _ IH]; [reflexivity|].
  cbn [filter]. rewrite He. cbn [negb]. now rewrite andb_false_r.
Qed.

Lemma zones_all_taken pt M used errs zones distributed :
  Forall (fun e =>
    some (fun d => Rltb (Math_abs (Err.freq d - Err.freq e)) 1) distributed
    = true) errs ->
  fold_left (zoneStep pt M used errs) zones distributed = distributed.
Proof.
  intros Hall. induction zones as [|zone zones IH]; [reflexivity|].
  cbn [fold_left]. now rewrite zoneStep_all_taken.
Qed.

Lemma lowError_freq : Err.freq lowError = 30.
Proof. reflexivity. Qed.

Lemma lowError_error : Err.error lowError = -25 - 0.
Proof. reflexivity. Qed.

(** Evaluation of the list functions around the comparisons. *)
Ltac Rlist :=
  cbn [filter fold_left fold_right existsb find app length negb andb orb map
       flat_map some sort sort_insert Z.of_nat Pos.of_succ_nat Z.geb Z.leb
       Z.eqb Z.gtb Z.compare Pos.compare Pos.compare_cont Nat.eqb Nat.ltb
       Nat.leb PassType_eqb Z.add Z.sub Z.opp Z.pos_sub Pos.add Pos.succ
       Z.min Z.max Z.to_nat Pos.to_nat Pos.iter_op Nat.add firstn].

Lemma distribution_lowError :
  smartFrequencyDistribution [lowError] 1 200 [] broad = [lowError].
Proof.
  unfold smartFrequencyDistribution. Rlist.
  rewrite lowError_freq, lowError_error.
  Rdecide. Rlist. cbn [priorityLoop].
  unfold wellSpaced, len. Rlist.
  apply zones_all_taken. constructor; [|constructor].
  Rlist. rewrite lowError_freq. Rdecide. reflexivity.
Qed.

Lemma bandFor_lowError mb mc minQ maxQ sm :
  mb = 11.875 -> mc = 11.875 -> minQ = 0.7 -> maxQ = 6 -> sm = 0.016 ->
  bandFor lowError 1 broad mb mc minQ maxQ sm 200
  = Some {| frequency := 30; gain := 11.9; q := 1.1; type := peak |}.
Proof.
  intros -> -> -> -> ->.
  unfold bandFor, calculatePassQ. rewrite lowError_freq, lowError_error.
  Rlist.
  Rdecide.
  rewrite (Math_round_val (30 * 10) 300) by lra.
  rewrite (Math_round_val (11.875 * 10) 119) by lra.
  rewrite (Math_round_val (2.2 * 0.6 * 0.8 * 10) 11) by lra.
  f_equal. f_equal; lra.
Qed.

Lemma pass1BandsOf_singlePointRoom :
  pass1BandsOf singlePointRoom singlePointTarget oneBandOptions
  = [ {| frequency := 30; gain := 11.9; q := 1.1; type := peak |} ].
Proof.
  unfold pass1BandsOf, generateEQPass. cbv zeta.
  rewrite errors_singlePointRoom.
  cbn [Opt.numBands Opt.maxBoost Opt.maxCut Opt.smoothing Opt.minQ Opt.maxQ
       Opt.schroederFreq oneBandOptions orDefault].
  Rlist.
  rewrite (Zceil_eq 1) by lra.
  rewrite lowError_freq. Rdecide. Rlist.
  unfold getErrorThreshold. rewrite lowError_freq, lowError_error.
  Rdecide. Rlist.
  rewrite distribution_lowError.
  cbn [bandLoop]. unfold len at 1. Rlist.
  rewrite bandFor_lowError by lra. Rlist.
  unfold addSpectralBalanceCorrection, len. Rlist.
  reflexivity.
Qed.

(** *** Three points, seven bands *)

Lemma boost_contribution f band :
  type band = peak -> 0 < f -> 0 < frequency band -> 0 < q band ->
  0.01 <= gain band <= 20 ->
  0 <= calculateBandResponse f band <= gain band.
Proof.
  intros Ht Hf H0 Hq Hg.
  assert (Hact : ~ ignoredBand f band).
  { unfold ignoredBand. intros [Hc | [Hc | [Hc | [Hc | Hc]]]];
      try lra; try congruence.
    rewrite Rabs_right in Hc; lra. }
  rewrite (calculateBandResponse_in_range f band Hact)
    by (apply gain_in_range; lra).
  pose proof ln10_pos as Hln10.
  set (g := Rpower 10 (gain band / 20)).
  assert (Hg1 : 1 <= g).
  { unfold g, Rpower. rewrite <- exp_0.
    destruct (Req_dec (gain band / 20 * ln 10) 0) as [-> | Hne];
      [right; reflexivity|].
    left. apply exp_increasing. nra. }
  assert (HH : 1 <= bellTransfer f band <= g).
  { unfold bellTransfer. fold g.
    match goal with |- _ <= 1 + _ / (1 + ?a ^ 2) <= _ =>
      pose proof (pow2_ge_0 a) as Hsq; set (d := 1 + a ^ 2) in * end.
    assert (Hd : 1 <= d) by (unfold d; lra).
    assert (Hfrac : 0 <= (g - 1) / d <= g - 1).
    { split.
      - apply Rmult_le_pos; [lra|]. left. apply Rinv_0_lt_compat. lra.
      - apply Rmult_le_reg_r with d; [lra|].
        unfold Rdiv. rewrite Rmult_assoc, Rinv_l by lra. nra. }
    lra. }
  replace (Rleb (bellTransfer f band) 1e-10) with false
    by (symmetry; apply Rleb_false; lra).
  assert (Hlog : 0 <= 20 * (ln (bellTransfer f band) / ln 10) <= gain band).
  { assert (Hlo : 0 <= ln (bellTransfer f band)).
    { rewrite <- ln_1. apply ln_le_mono; lra. }
    assert (Hhi : ln (bellTransfer f band) <= gain band / 20 * ln 10).
    { rewrite <- (ln_exp (gain band / 20 * ln 10)).
      apply ln_le_mono; [lra|]. exact (proj2 HH). }
    split.
    - apply Rmult_le_pos; [lra|]. apply Rmult_le_pos; [lra|].
      left. now apply Rinv_0_lt_compat.
    - apply Rmult_le_reg_r with (ln 10 / 20); [lra|].
      replace (20 * (ln (bellTransfer f band) / ln 10) * (ln 10 / 20))
        with (ln (bellTransfer f band)) by (field; lra).
      lra. }
  unfold bellDb, clamp.
  rewrite (Rmin_right 20) by lra. rewrite Rmax_right by lra. exact Hlog.
Qed.

Lemma error30_freq : Err.freq error30 = 30.
Proof. reflexivity. Qed.

Lemma error30_error : Err.error error30 = -25 - 0.
Proof. reflexivity. Qed.

Lemma error37_freq : Err.freq error37 = 37.
Proof. reflexivity. Qed.

Lemma error37_error : Err.error error37 = 24 - 0.
Proof. reflexivity. Qed.

Lemma error46_freq : Err.freq error46 = 46.
Proof. reflexivity. Qed.

Lemma error46_error : Err.error error46 = -25 - 0.
Proof. reflexivity. Qed.

Ltac Rerr :=
  rewrite ?error30_freq, ?error30_error, ?error37_freq, ?error37_error,
          ?error46_freq, ?error46_error.

Ltac Rrun := repeat (progress (Rlist; Rerr; Rdecide)).

Lemma errors_threePointRoom :
  errorByFrequency (analyzeTargetError threePointRoom threePointTarget)
  = [error30; error37; error46].
Proof.
  rewrite analyzeTargetError_entries.
  unfold matchedPairs, firstWithin1Hz, threePointRoom, threePointTarget.
  cbn [flat_map find freq]. Rdecide. Rlist. reflexivity.
Qed.

Lemma significant_threePointRoom :
  sort (fun a b => errorWeight 200 b - errorWeight 200 a)
    (filter (fun e => Rgtb (Math_abs (Err.error e))
                           (getErrorThreshold broad 200 (Err.freq e)))
       (filter (fun e => Rleb (Err.freq e) 300)
               [error30; error37; error46]))
  = [error30; error46; error37].
Proof.
  unfold getErrorThreshold, errorWeight. Rrun. reflexivity.
Qed.

Lemma zoneStep_full pt M used errs distributed zone :
  (len (filter (fun d => inZone zone (Err.freq d)) distributed)
   >=? zone_maxBands zone)%Z = true ->
  zoneStep pt M used errs distributed zone = distributed.
Proof.
  intros Hfull. unfold zoneStep.
  destruct (filter _ errs) as [|e rest]; [reflexivity|].
  cbn [zoneLoop]. now rewrite Hfull.
Qed.

Lemma zoneStep_no_candidate pt M used errs distributed zone :
  Forall (fun e =>
    inZone zone (Err.freq e)
    && negb (some (fun d => Rltb (Math_abs (Err.freq d - Err.freq e)) 1)
                  distributed) = false) errs ->
  zoneStep pt M used errs distributed zone = distributed.
Proof.
  intros Hall. unfold zoneStep.
  replace (filter _ errs) with (@nil Err.t); [reflexivity|].
  symmetry. induction Hall as [|e errs He _ IH]; [reflexivity|].
  cbn [filter]. now rewrite He.
Qed.

Ltac no_candidate distributed :=
  rewrite (zoneStep_no_candidate _ _ _ _ distributed);
  [| repeat (constructor; [unfold inZone; cbn [zone_min zone_max]; Rrun;
                           reflexivity|]); constructor ].

Lemma distribution_threePointRoom :
  smartFrequencyDistribution [error30; error46; error37] 3 200 [] broad
  = [error30; error46].
Proof.
  unfold smartFrequencyDistribution. Rrun.
  cbn [priorityLoop]. unfold wellSpaced, getMinSpacing, len. Rrun.
  unfold zonesFor, ceilOf. Rlist.
  rewrite (Zceil_eq 1 (3 * 0.25)), (Zceil_eq 1 (3 * 0.30)),
          (Zceil_eq 1 (3 * 0.12)), (Zceil_eq 1 (3 * 0.08)) by lra.
  rewrite (zoneStep_full _ _ _ _ [error30; error46]).
  2:{ unfold inZone, len. cbn [zone_min zone_max zone_maxBands]. Rrun.
      reflexivity. }
  do 4 (no_candidate [error30; error46]). reflexivity.
Qed.

Lemma bandFor_error30 mb mc minQ maxQ sm :
  mb = 11.4 -> mc = 17.1 -> minQ = 0.7 -> maxQ = 6 -> sm = 0.016 ->
  bandFor error30 3 broad mb mc minQ maxQ sm 200 = Some boost30.
Proof.
  intros -> -> -> -> ->.
  unfold bandFor, calculatePassQ. Rrun.
  rewrite (Math_round_val (30 * 10) 300) by lra.
  rewrite (Math_round_val (11.4 * 10) 114) by lra.
  rewrite (Math_round_val (2.2 * 0.6 * 0.8 * 10) 11) by lra.
  unfold boost30. f_equal. f_equal; lra.
Qed.

Lemma bandFor_error46 mb mc minQ maxQ sm :
  mb = 11.4 -> mc = 17.1 -> minQ = 0.7 -> maxQ = 6 -> sm = 0.016 ->
  bandFor error46 3 broad mb mc minQ maxQ sm 200 = Some boost46.
Proof.
  intros -> -> -> -> ->.
  unfold bandFor, calculatePassQ. Rrun.
  rewrite (Math_round_val (46 * 10) 460) by lra.
  rewrite (Math_round_val (11.4 * 10) 114) by lra.
  rewrite (Math_round_val (2.2 * 0.6 * 0.8 * 10) 11) by lra.
  unfold boost46. f_equal. f_equal; lra.
Qed.

Lemma addSpectralBalanceCorrection_no_cut bs cur tgt M mc sf :
  Forall (fun band => 0 <= gain band) bs ->
  addSpectralBalanceCorrection bs cur tgt M mc sf = None.
Proof.
  intros Hall. unfold addSpectralBalanceCorrection.
  destruct (len bs >=? M)%Z; [reflexivity|].
  replace (filter _ bs) with (@nil EQBand); [reflexivity|].
  symmetry. induction Hall as [|band bs Hb _ IH]; [reflexivity|].
  cbn [filter]. rewrite (proj2 (Rltb_false _ _) Hb).
  now rewrite andb_false_r.
Qed.

Lemma pass1BandsOf_threePointRoom :
  pass1BandsOf threePointRoom threePointTarget sevenBandOptions
  = [boost30; boost46].
Proof.
  unfold pass1BandsOf, generateEQPass. cbv zeta.
  rewrite errors_threePointRoom.
  cbn [Opt.numBands Opt.maxBoost Opt.maxCut Opt.smoothing Opt.minQ Opt.maxQ
       Opt.schroederFreq sevenBandOptions orDefault].
  rewrite significant_threePointRoom.
  cbn [Z.of_nat Pos.of_succ_nat Pos.succ]. rewrite (Zceil_eq 3) by lra.
  rewrite distribution_threePointRoom.
  cbn [bandLoop]. unfold len at 1. Rlist.
  rewrite bandFor_error30 by (Rdecide; lra). unfold len at 1. Rlist.
  rewrite bandFor_error46 by (Rdecide; lra). Rlist.
  rewrite addSpectralBalanceCorrection_no_cut; [reflexivity|].
  repeat constructor; cbn [gain boost30 boost46]; lra.
Qed.

Lemma findNear_far tol response f :
  Forall (fun p => tol <= Rabs (freq p - f)) response ->
  findNear tol response f = None.
Proof.
  unfold findNear, Math_abs. induction 1 as [|p response Hp _ IH];
    [reflexivity|].
  cbn [find]. now rewrite (proj2 (Rltb_false _ _) Hp).
Qed.

Lemma scanMidpoint_skip eqResponse targetResponse cfs rest :
  Forall (fun cf => findNear 0.5 eqResponse cf = None) cfs ->
  scanMidpoint eqResponse targetResponse (cfs ++ rest)
  = scanMidpoint eqResponse targetResponse rest.
Proof.
  induction 1 as [|cf cfs Hcf _ IH]; [reflexivity|].
  cbn [app scanMidpoint]. now rewrite Hcf.
Qed.

Lemma Rabs_far a t : a <= - t \/ t <= a -> t <= Rabs a.
Proof.
  intros [Hlo | Hhi]; unfold Rabs; destruct (Rcase_abs a); lra.
Qed.

Lemma findNear_here tol p rest f :
  Rabs (freq p - f) < tol -> findNear tol (p :: rest) f = Some p.
Proof.
  intros Hnear. unfold findNear, Math_abs; cbn [find].
  now rewrite (proj2 (Rltb_true _ _) Hnear).
Qed.

Lemma findNear_later tol p rest f :
  tol <= Rabs (freq p - f) ->
  findNear tol (p :: rest) f = findNear tol rest f.
Proof.
  intros Hfar. unfold findNear, Math_abs; cbn [find].
  now rewrite (proj2 (Rltb_false _ _) Hfar).
Qed.

Lemma scanMidpoint_pass eqResponse targetResponse cf rest p t :
  findNear 0.5 eqResponse cf = Some p ->
  findNear 0.5 targetResponse cf = Some t ->
  db p - db t <= 2 ->
  scanMidpoint eqResponse targetResponse (cf :: rest)
  = scanMidpoint eqResponse targetResponse rest.
Proof.
  intros Hp Ht Hle. cbn [scanMidpoint]. rewrite Hp, Ht.
  unfold Rgtb. now rewrite (proj2 (Rltb_false _ _) Hle).
Qed.

Lemma scanMidpoint_found eqResponse targetResponse cf rest p t :
  findNear 0.5 eqResponse cf = Some p ->
  findNear 0.5 targetResponse cf = Some t ->
  2 < db p - db t ->
  scanMidpoint eqResponse targetResponse (cf :: rest)
  = Some {| Problem.frequency := cf; Problem.type := problem_peak;
            Problem.severity := db p - db t |}.
Proof.
  intros Hp Ht Hgt. cbn [scanMidpoint]. rewrite Hp, Ht.
  unfold Rgtb. now rewrite (proj2 (Rltb_true _ _) Hgt).
Qed.

Lemma overcorrectionProblem_none eqResponse targetResponse band p t :
  findNear 1 eqResponse (frequency band) = Some p ->
  findNear 1 targetResponse (frequency band) = Some t ->
  db p - db t <= 3 ->
  overcorrectionProblem eqResponse targetResponse band = None.
Proof.
  intros Hp Ht Hle. unfold overcorrectionProblem. rewrite Hp, Ht.
  unfold Rgtb. now rewrite (proj2 (Rltb_false _ _) Hle).
Qed.

(** Looking up 30, 37 and 46 Hz in a response on those three points. *)
Ltac near_first := apply findNear_here; cbn [freq]; Rdecide; lra.
Ltac near_next := rewrite findNear_later by (cbn [freq]; Rdecide; lra).

Lemma overcorrection_boost30 d30 d37 d46 :
  d30 <= 3 ->
  overcorrectionProblem (threePointResponse d30 d37 d46) threePointTarget
                        boost30 = None.
Proof.
  intros H30.
  apply overcorrectionProblem_none
    with (p := {| freq := 30; db := d30 |})
         (t := {| freq := 30; db := 0 |}).
  - unfold threePointResponse. cbn [frequency boost30]. near_first.
  - unfold threePointTarget. cbn [frequency boost30]. near_first.
  - cbn [db]. lra.
Qed.

Lemma overcorrection_boost46 d30 d37 d46 :
  d46 <= 3 ->
  overcorrectionProblem (threePointResponse d30 d37 d46) threePointTarget
                        boost46 = None.
Proof.
  intros H46.
  apply overcorrectionProblem_none
    with (p := {| freq := 46; db := d46 |})
         (t := {| freq := 46; db := 0 |}).
  - unfold threePointResponse. cbn [frequency boost46].
    do 2 near_next. near_first.
  - unfold threePointTarget. cbn [frequency boost46].
    do 2 near_next. near_first.
  - cbn [db]. lra.
Qed.

Lemma seq_0_33 : seq 0 33 = (0 :: seq 1 13 ++ 14 :: seq 15 18)%nat.
Proof. reflexivity. Qed.

(** The scan between the boosts at 30 and 46 Hz starts at 30 Hz, finds no
    point at 30.5, ..., 36.5 Hz and stops at the overshoot at 37 Hz. *)
Lemma interaction_boost30_boost46 d30 d37 d46 :
  d30 <= 2 -> 2 < d37 ->
  interactionProblem (threePointResponse d30 d37 d46) threePointTarget
                     boost30 boost46
  = Some {| Problem.frequency := 37; Problem.type := problem_peak;
            Problem.severity := d37 - 0 |}.
Proof.
  intros H30 H37. unfold interactionProblem.
  cbn [frequency boost30 boost46]. Rdecide.
  rewrite seq_0_33, map_cons, map_app, map_cons.
  replace (INR 0) with 0 by reflexivity.
  replace (INR 14) with 14 by (simpl; lra).
  rewrite scanMidpoint_pass
    with (p := {| freq := 30; db := d30 |})
         (t := {| freq := 30; db := 0 |}).
  2:{ unfold threePointResponse. near_first. }
  2:{ unfold threePointTarget. near_first. }
  2:{ cbn [db]. lra. }
  rewrite scanMidpoint_skip.
  2:{ apply Forall_forall; intros cf Hin.
      apply in_map_iff in Hin as [k [<- Hk]]. apply in_seq in Hk.
      assert (1 <= INR k <= 13).
      { pose proof (le_INR 1 k ltac:(lia)) as Hlo.
        pose proof (le_INR k 13 ltac:(lia)) as Hhi.
        replace (INR 1) with 1 in Hlo by reflexivity.
        replace (INR 13) with 13 in Hhi by (simpl; lra). lra. }
      apply findNear_far. unfold threePointResponse.
      repeat (constructor; [cbn [freq]; apply Rabs_far; lra|]).
      constructor. }
  rewrite scanMidpoint_found
    with (p := {| freq := 37; db := d37 |})
         (t := {| freq := 37; db := 0 |}).
  2:{ unfold threePointResponse. near_next. near_first. }
  2:{ unfold threePointTarget. near_next. near_first. }
  2:{ cbn [db]. lra. }
  cbn [db]. f_equal. f_equal. lra.
Qed.

Lemma problems_threePointRoom d30 d37 d46 :
  d30 <= 2 -> 2 < d37 -> d46 <= 3 ->
  analyzePostEQProblems (threePointResponse d30 d37 d46) threePointTarget
                        [boost30; boost46] 200
  = [ {| Problem.frequency := 37; Problem.type := problem_peak;
         Problem.severity := d37 - 0 |} ].
Proof.
  intros H30 H37 H46. unfold analyzePostEQProblems.
  assert (Hboost : filter (fun band => Rgtb (gain band) 0) [boost30; boost46]
                   = [boost30; boost46]).
  { cbn [filter gain boost30 boost46]. Rdecide. reflexivity. }
  rewrite Hboost. cbn [length Nat.ltb Nat.leb adjacentPairs map].
  rewrite interaction_boost30_boost46 by lra.
  rewrite overcorrection_boost30, overcorrection_boost46 by lra.
  reflexivity.
Qed.

(** The response after the two boosts: each boost adds between 0 and
    11.4 dB at every point, so the dips stay more than 2 dB below the target
    and the peak stays at least 24 dB above it. *)
Lemma after_pass1_threePointRoom mb mc sm :
  exists d30 d37 d46,
    applyEQToResponse threePointRoom
      {| bands := [boost30; boost46]; enabled := true; maxBoost := mb;
         maxCut := mc; smoothing := sm |}
    = threePointResponse d30 d37 d46
    /\ d30 <= 2 /\ 24 <= d37 /\ d46 <= 3.
Proof.
  unfold applyEQToResponse. cbn [enabled bands length Nat.eqb negb orb].
  unfold threePointRoom, threePointResponse. cbn [map freq db].
  rewrite !totalGainAt_sum. unfold Rsum. cbn [map fold_right].
  assert (Hb : forall f band, In band [boost30; boost46] -> 0 < f ->
                 0 <= calculateBandResponse f band <= 11.4).
  { intros f band [<- | [<- | []]] Hf;
      apply (boost_contribution f);
      cbn [type frequency q gain boost30 boost46];
      try reflexivity; lra. }
  pose proof (Hb 30 boost30 ltac:(now left) ltac:(lra)).
  pose proof (Hb 30 boost46 ltac:(right; now left) ltac:(lra)).
  pose proof (Hb 37 boost30 ltac:(now left) ltac:(lra)).
  pose proof (Hb 37 boost46 ltac:(right; now left) ltac:(lra)).
  pose proof (Hb 46 boost30 ltac:(now left) ltac:(lra)).
  pose proof (Hb 46 boost46 ltac:(right; now left) ltac:(lra)).
  do 3 eexists. split; [reflexivity|].
  Rdecide. lra.
Qed.

Lemma Math_round_le v (n : Z) :
  v + 1 / 2 < IZR n + 1 -> Math_round v <= IZR n.
Proof.
  intros Hv. unfold Math_round. apply IZR_le.
  pose proof (Zfloor_bound (v + 1 / 2)) as [Hlo _].
  assert (Hlt : IZR (Zfloor (v + 1 / 2)) < IZR (n + 1))
    by (rewrite plus_IZR; lra).
  apply lt_IZR in Hlt. lia.
Qed.

Lemma correctiveBandsOf_threePointRoom :
  exists g,
    correctiveBandsOf threePointRoom threePointTarget sevenBandOptions
    = [ {| frequency := 37; gain := g; q := 3.5; type := peak |} ]
    /\ g <= -22.8.
Proof.
  unfold correctiveBandsOf. cbv zeta. rewrite pass1BandsOf_threePointRoom.
  cbn [Opt.numBands Opt.maxBoost Opt.maxCut Opt.smoothing Opt.schroederFreq
       sevenBandOptions orDefault Z.of_nat Pos.of_succ_nat Pos.succ].
  destruct (after_pass1_threePointRoom 12.0 18.0 0.02)
    as [d30 [d37 [d46 [-> [H30 [H37 H46]]]]]].
  rewrite problems_threePointRoom by lra.
  rewrite (Zceil_eq 3) by lra.
  unfold generateCorrectiveBands. cbn [sort fold_right sort_insert].
  replace (Z.to_nat _) with 1%nat by reflexivity.
  cbn [firstn map Nat.ltb Nat.leb length Problem.frequency Problem.type
       Problem.severity].
  eexists. split.
  - rewrite (Math_round_val (37 * 10) 370) by lra.
    f_equal. f_equal. lra.
  - assert (Hr : Math_round (- (d37 - 0) * 0.95 * 10) <= IZR (-228))
      by (apply Math_round_le; lra).
    lra.
Qed.

Lemma in_pass1_result room target options band :
  room <> [] -> target <> [] ->
  In band (pass1BandsOf room target options
           ++ correctiveBandsOf room target options) ->
  In band (bands (generateOptimalEQ room target options)).
Proof.
  intros Hr Ht Hin.
  destruct (generateOptimalEQ_passes room target options Hr Ht)
    as [p2 [p3 [p4 [-> _]]]].
  apply (Permutation_in _ (Permutation_sym (sort_perm _ _))).
  apply in_or_app. now left.
Qed.

(** The corrective bands are outside every limit.  For the response
    (30 Hz, -25 dB), (37 Hz, 24 dB), (46 Hz, -25 dB), a flat 0 dB target,
    7 bands and the default limits (maxBoost 12, maxCut 18), the first pass
    boosts 30 and 46 Hz by 11.4 dB each; the post-EQ analysis then finds the
    overshoot of at least 24 dB at 37 Hz between the two boosts and appends a
    corrective cut of 0.95 times that overshoot.  The returned band at 37 Hz
    has a gain of -22.8 dB or lower, beyond 0.95 * max(12, 18) = 17.1 dB and
    beyond maxCut itself. *)
Lemma generateOptimalEQ_corrective_band_unclamped :
  exists band,
    In band (bands (generateOptimalEQ threePointRoom threePointTarget
                                      sevenBandOptions))
    /\ frequency band = 37 /\ q band = 3.5 /\ gain band <= -22.8
    /\ gainCap sevenBandOptions = 17.1
    /\ gainCap sevenBandOptions < Rabs (gain band)
    /\ orDefault (Opt.maxCut sevenBandOptions) 18.0 < Rabs (gain band).
Proof.
  destruct correctiveBandsOf_threePointRoom as [g [Hcorr Hg]].
  exists {| frequency := 37; gain := g; q := 3.5; type := peak |}.
  split.
  - apply in_pass1_result; try discriminate.
    apply in_or_app. right. rewrite Hcorr. now left.
  - cbn [frequency q gain]. split; [reflexivity|]. split; [reflexivity|].
    split; [exact Hg|]. rewrite Rabs_left by lra.
    unfold gainCap. cbn [sevenBandOptions Opt.maxBoost Opt.maxCut orDefault].
    Rdecide. repeat split; lra.
Qed.

Lemma generateOptimalEQ_budget_and_gain_witness :
  0 <= orDefault (Opt.maxBoost oneBandOptions) 12.0
  /\ 0 <= orDefault (Opt.maxCut oneBandOptions) 18.0
  /\ In roundedBoost
        (bands (generateOptimalEQ singlePointRoom singlePointTarget
                                  oneBandOptions))
  /\ (length (bands (generateOptimalEQ singlePointRoom singlePointTarget
                                       oneBandOptions)) <= 1)%nat
  /\ (Rabs (gain roundedBoost) <= gainCap oneBandOptions + 0.05
      \/ In roundedBoost
            (correctiveBandsOf singlePointRoom singlePointTarget
                               oneBandOptions)).
Proof.
  assert (Hmb : 0 <= orDefault (Opt.maxBoost oneBandOptions) 12.0)
    by (simpl; lra).
  assert (Hmc : 0 <= orDefault (Opt.maxCut oneBandOptions) 18.0)
    by (simpl; lra).
  assert (Hin : In roundedBoost
                  (bands (generateOptimalEQ singlePointRoom singlePointTarget
                                            oneBandOptions))).
  { apply in_pass1_result; try discriminate.
    rewrite pass1BandsOf_singlePointRoom. now left. }
  split; [exact Hmb|]. split; [exact Hmc|]. split; [exact Hin|].
  split.
  - exact (proj1 (generateOptimalEQ_budget_and_gain singlePointRoom
                    singlePointTarget oneBandOptions)).
  - exact (proj2 (generateOptimalEQ_budget_and_gain singlePointRoom
                    singlePointTarget oneBandOptions) Hmb Hmc roundedBoost Hin).
Defined.

(** C2 as stated fails: the gain is rounded to a tenth of a dB after it is
    clamped.  With maxBoost = maxCut = 12.5 and one band, a point 25 dB below
    the target gets a boost clamped to 0.95 * 12.5 = 11.875 dB and rounded to
    11.9 dB, above 0.95 * max(maxBoost, maxCut). *)
Lemma generateOptimalEQ_rounding_exceeds_cap :
  In roundedBoost
     (bands (generateOptimalEQ singlePointRoom singlePointTarget
                               oneBandOptions))
  /\ gainCap oneBandOptions = 11.875
  /\ gainCap oneBandOptions < Rabs (gain roundedBoost).
Proof.
  split; [|split].
  - apply in_pass1_result; try discriminate.
    rewrite pass1BandsOf_singlePointRoom. now left.
  - unfold gainCap. cbn [oneBandOptions Opt.maxBoost Opt.maxCut orDefault].
    Rdecide. lra.
  - unfold gainCap, roundedBoost.
    cbn [oneBandOptions Opt.maxBoost Opt.maxCut orDefault gain].
    Rdecide. lra.
Qed.

(** * Properties of the rest of the module *)

(** ** Room geometry *)

(** X1 (clampToRoom).  In a room whose dimensions are not negative the
    clamped point lies inside the room, and a point that already lies inside
    is returned unchanged. *)
Theorem clampToRoom_inside :
  forall (point : Point) (room : RoomDimensions),
    0 <= L room -> 0 <= W room -> 0 <= H room ->
    let clamped := clampToRoom point room in
    (0 <= x clamped <= L room /\ 0 <= y clamped <= W room
     /\ 0 <= z clamped <= H room)
    /\ (0 <= x point <= L room -> 0 <= y point <= W room ->
        0 <= z point <= H room -> clamped = point).
Proof.
  intros [px py pz] [l w h]; simpl; intros Hl Hw Hh.
  unfold clampToRoom, Math_min, Math_max; simpl. split.
  - repeat split;
      try (apply Rmin_glb; [apply Rmax_l | assumption]); apply Rmin_r.
  - intros Hx Hy Hz.
    rewrite !Rmax_right by lra. rewrite !Rmin_left by lra. reflexivity.
Qed.

Lemma clampToRoom_inside_witness :
  0 <= L {| L := 5; W := 4; H := 3 |}
  /\ clampToRoom {| x := 7; y := -1; z := 1 |} {| L := 5; W := 4; H := 3 |}
     = {| x := 5; y := 0; z := 1 |}
  /\ 0 <= x (clampToRoom {| x := 7; y := -1; z := 1 |}
                         {| L := 5; W := 4; H := 3 |}) <= 5.
Proof.
  assert (Hl : 0 <= L {| L := 5; W := 4; H := 3 |}) by (simpl; lra).
  assert (Hw : 0 <= W {| L := 5; W := 4; H := 3 |}) by (simpl; lra).
  assert (Hh : 0 <= H {| L := 5; W := 4; H := 3 |}) by (simpl; lra).
  split; [exact Hl|]. split.
  - unfold clampToRoom, Math_min, Math_max; simpl.
    rewrite (Rmax_right 0 7), (Rmax_left 0 (-1)), (Rmax_right 0 1) by lra.
    rewrite (Rmin_right 7 5), (Rmin_left 0 4), (Rmin_left 1 3) by lra.
    reflexivity.
  - exact (proj1 (proj1 (clampToRoom_inside {| x := 7; y := -1; z := 1 |}
                           {| L := 5; W := 4; H := 3 |} Hl Hw Hh))).
Defined.

(** X2 (calculateSchroederFrequency).  A room without volume has Schroeder
    frequency 0.  For a room with positive dimensions the result is a
    multiple of 0.1 Hz and lies, up to the rounding, between
    [2000 * sqrt (0.2 / V)] and [2000 * sqrt (1.5 / V)], whatever the
    absorption: the reverberation time is clamped to [0.2, 1.5] s. *)
Theorem calculateSchroederFrequency_range :
  forall (room : RoomDimensions) (averageAbsorption : option R),
    let volume := L room * W room * H room in
    let f := calculateSchroederFrequency room averageAbsorption in
    (volume <= 0 -> f = 0)
    /\ (0 < L room -> 0 < W room -> 0 < H room ->
        (exists n : Z, f = IZR n / 10)
        /\ 2000 * sqrt (0.2 / volume) - 0.05 <= f
           <= 2000 * sqrt (1.5 / volume) + 0.05).
Proof.
  intros room a volume f. subst f. unfold calculateSchroederFrequency.
  fold volume. cbv zeta. split.
  - intros Hv. apply Rleb_true in Hv. now rewrite Hv.
  - intros Hl Hw Hh.
    assert (Hv : 0 < volume).
    { unfold volume. apply Rmult_lt_0_compat; [|assumption].
      now apply Rmult_lt_0_compat. }
    destruct (Rleb volume 0) eqn:E; [apply Rleb_true in E; lra|].
    set (rt := Math_max 0.2 (Math_min 1.5 _)).
    assert (Hrt : 0.2 <= rt <= 1.5).
    { unfold rt, Math_max, Math_min. split; [apply Rmax_l|].
      apply Rmax_lub; [lra | apply Rmin_l]. }
    split.
    + now exists (Zfloor (2000 * Math_sqrt (rt / volume) * 10 + 1 / 2)).
    + unfold Math_round, Math_sqrt.
      pose proof (Zfloor_bound (2000 * sqrt (rt / volume) * 10 + 1 / 2))
        as [Hlo Hhi].
      assert (Hs1 : sqrt (0.2 / volume) <= sqrt (rt / volume)).
      { apply sqrt_le_1_alt. apply Rmult_le_compat_r; [|lra].
        left. now apply Rinv_0_lt_compat. }
      assert (Hs2 : sqrt (rt / volume) <= sqrt (1.5 / volume)).
      { apply sqrt_le_1_alt. apply Rmult_le_compat_r; [|lra].
        left. now apply Rinv_0_lt_compat. }
      lra.
Qed.

Lemma calculateSchroederFrequency_range_witness :
  (0 < L {| L := 5; W := 4; H := 3 |})
  /\ (exists n : Z,
        calculateSchroederFrequency {| L := 5; W := 4; H := 3 |} None
        = IZR n / 10)
  /\ calculateSchroederFrequency {| L := 0; W := 4; H := 3 |} None = 0.
Proof.
  assert (Hl : 0 < L {| L := 5; W := 4; H := 3 |}) by (simpl; lra).
  assert (Hw : 0 < W {| L := 5; W := 4; H := 3 |}) by (simpl; lra).
  assert (Hh : 0 < H {| L := 5; W := 4; H := 3 |}) by (simpl; lra).
  split; [exact Hl|]. split.
  - exact (proj1 (proj2 (calculateSchroederFrequency_range
                           {| L := 5; W := 4; H := 3 |} None) Hl Hw Hh)).
  - apply (proj1 (calculateSchroederFrequency_range
                    {| L := 0; W := 4; H := 3 |} None)).
    simpl. lra.
Defined.

(** ** Speaker data *)

Lemma Rpower_10_log v : ln (Rpower 10 v) / ln 10 = v.
Proof.
  unfold Rpower. rewrite ln_exp. field.
  pose proof ln10_pos. lra.
Qed.

Lemma findBracket_scan_spec arr value i lo hi :
  findBracket_scan arr value i = Some (lo, hi) ->
  (i <= lo)%nat /\ hi = S lo /\ (hi - i < length arr)%nat
  /\ nth (lo - i) arr 0 <= value < nth (hi - i) arr 0.
Proof.
  revert i. induction arr as [|a arr IH]; intros i; [discriminate|].
  destruct arr as [|b arr]; [discriminate|].
  cbn [findBracket_scan].
  destruct (Rgeb value a && Rltb value b) eqn:E.
  - intros [= <- <-]. apply andb_prop in E as [Ea Eb].
    apply Rleb_true in Ea. apply Rltb_true in Eb.
    replace (i - i)%nat with O by lia.
    replace (S i - i)%nat with 1%nat by lia. simpl.
    repeat split; try lia; lra.
  - intros Hs. apply IH in Hs as (Hi & -> & Hlen & Hv).
    replace (lo - i)%nat with (S (lo - S i)) by lia.
    replace (S lo - i)%nat with (S (S lo - S i)) by lia.
    cbn [nth]. cbn [length] in *.
    split; [lia|]. split; [reflexivity|]. split; [lia|]. exact Hv.
Qed.

(** A sequence that starts at or below [value] and ends above it has two
    neighbours that enclose [value]: the scan cannot come back empty. *)
Lemma findBracket_scan_finds arr value i :
  (2 <= length arr)%nat ->
  nth 0 arr 0 <= value < nth (length arr - 1) arr 0 ->
  findBracket_scan arr value i <> None.
Proof.
  revert i. induction arr as [|a arr IH]; intros i Hlen Hv;
    [simpl in Hlen; lia|].
  destruct arr as [|b arr]; [simpl in Hlen; lia|].
  cbn [findBracket_scan].
  destruct (Rgeb value a && Rltb value b) eqn:E; [discriminate|].
  simpl in Hv.
  assert (Hb : b <= value).
  { unfold Rgeb in E. destruct (Rleb a value) eqn:Ea.
    - simpl in E. apply Rltb_false in E. exact E.
    - apply Rleb_false in Ea. lra. }
  apply IH.
  - destruct arr as [|c arr]; [|simpl; lia].
    simpl in Hv. lra.
  - split; [exact Hb|].
    replace (length (b :: arr) - 1)%nat with (length arr) by (simpl; lia).
    destruct Hv as [_ Hv]. replace (length arr - 0)%nat with (length arr) in Hv
      by lia. exact Hv.
Qed.

(** X4 (findBracket).  For a value strictly between the first and the last
    element the result is a pair of neighbouring indices inside the array
    whose elements enclose the value, for any array, sorted or not: the
    fallback after the scan is never taken. *)
Theorem findBracket_encloses :
  forall (arr : list R) (value : R),
    nth 0 arr 0 < value < nth (length arr - 1) arr 0 ->
    let '(lo, hi) := findBracket arr value in
    hi = S lo /\ (hi < length arr)%nat
    /\ nth lo arr 0 <= value < nth hi arr 0
    /\ findBracket_scan arr value 0 = Some (lo, hi).
Proof.
  intros arr value Hv. unfold findBracket.
  destruct arr as [|a arr]; [simpl in Hv; lra|].
  destruct arr as [|b arr]; [simpl in Hv; lra|].
  replace (Nat.eqb (length (a :: b :: arr)) 0) with false by reflexivity.
  replace (Nat.eqb (length (a :: b :: arr)) 1) with false by reflexivity.
  cbn [orb].
  destruct (Rleb value (nth 0 (a :: b :: arr) 0)) eqn:E1;
    [apply Rleb_true in E1; lra|].
  unfold Rgeb.
  destruct (Rleb (nth (length (a :: b :: arr) - 1) (a :: b :: arr) 0) value)
    eqn:E2; [apply Rleb_true in E2; lra|].
  destruct (findBracket_scan (a :: b :: arr) value 0) as [[lo hi]|] eqn:Es.
  - apply findBracket_scan_spec in Es as (_ & -> & Hlen & Hb).
    rewrite !Nat.sub_0_r in *. repeat split; try lia; apply Hb.
  - exfalso. revert Es. apply findBracket_scan_finds; [simpl; lia|lra].
Qed.

Lemma findBracket_encloses_witness :
  nth 0 [20; 40; 50; 100] 0 < 45 < nth (length [20; 40; 50; 100] - 1)
                                       [20; 40; 50; 100] 0
  /\ findBracket [20; 40; 50; 100] 45 = (1%nat, 2%nat).
Proof.
  assert (Hv : nth 0 [20; 40; 50; 100] 0 < 45
               < nth (length [20; 40; 50; 100] - 1) [20; 40; 50; 100] 0)
    by (simpl; lra).
  split; [exact Hv|].
  pose proof (findBracket_encloses [20; 40; 50; 100] 45 Hv) as Hb.
  destruct (findBracket [20; 40; 50; 100] 45) as [lo hi].
  destruct Hb as (-> & Hlen & Hlo & _).
  destruct lo as [|[|[|lo]]].
  - simpl in Hlo. lra.
  - reflexivity.
  - simpl in Hlo. lra.
  - simpl in Hlen. lia.
Defined.

Lemma sorted_nth_lt arr i j :
  StronglySorted Rlt arr -> (i < j < length arr)%nat ->
  nth i arr 0 < nth j arr 0.
Proof.
  intros Hs. revert i j. induction Hs as [|a arr Hs IH Ha]; intros i j Hij.
  - simpl in Hij. lia.
  - destruct j as [|j]; [lia|]. destruct i as [|i]; simpl.
    + rewrite Forall_forall in Ha. apply Ha. apply nth_In. simpl in Hij. lia.
    + apply IH. simpl in Hij. lia.
Qed.

Lemma findBracket_scan_sorted arr value i k :
  StronglySorted Rlt arr -> (S i < length arr)%nat ->
  nth i arr 0 <= value < nth (S i) arr 0 ->
  findBracket_scan arr value k = Some ((k + i)%nat, S (k + i)).
Proof.
  revert i k. induction arr as [|a arr IH]; intros i k Hs Hlen Hv;
    [simpl in Hlen; lia|].
  destruct arr as [|b arr]; [simpl in Hlen; lia|].
  cbn [findBracket_scan]. unfold Rgeb.
  destruct i as [|i].
  - simpl in Hv.
    replace (Rleb a value) with true by (symmetry; apply Rleb_true; lra).
    replace (Rltb value b) with true by (symmetry; apply Rltb_true; lra).
    simpl. now rewrite Nat.add_0_r.
  - assert (Hb : b <= value).
    { destruct i as [|i]; [simpl in Hv; lra|].
      pose proof (sorted_nth_lt (a :: b :: arr) 1 (S (S i)) Hs) as Hlt.
      simpl in Hlt, Hv. assert (b < nth i arr 0) by (apply Hlt; simpl in Hlen; lia).
      lra. }
    replace (Rltb value b) with false by (symmetry; apply Rltb_false; lra).
    rewrite andb_false_r.
    change (findBracket_scan (b :: arr) value (S k)
            = Some ((k + S i)%nat, S (k + S i))).
    inversion Hs as [|? ? Hs' _]; subst.
    rewrite (IH i (S k) Hs'); [f_equal; f_equal; lia | simpl in *; lia |].
    exact Hv.
Qed.

(** On a strictly ascending array, the bracket of a value inside
    [arr[i], arr[i+1]) is [(i, i+1)], except that the first element itself
    is answered [(0, 0)]. *)
Lemma findBracket_sorted arr value i :
  StronglySorted Rlt arr -> (S i < length arr)%nat ->
  nth i arr 0 <= value < nth (S i) arr 0 ->
  findBracket arr value = (i, S i)
  \/ (i = O /\ value = nth 0 arr 0 /\ findBracket arr value = (O, O)).
Proof.
  intros Hs Hlen Hv. unfold findBracket.
  destruct (Nat.eqb (length arr) 0) eqn:E0;
    [apply Nat.eqb_eq in E0; lia|].
  destruct (Nat.eqb (length arr) 1) eqn:E1;
    [apply Nat.eqb_eq in E1; lia|].
  cbn [orb].
  assert (H0 : nth 0 arr 0 <= nth i arr 0).
  { destruct i as [|i]; [lra|]. left. apply sorted_nth_lt; [assumption|lia]. }
  assert (Hl : nth (S i) arr 0 <= nth (length arr - 1) arr 0).
  { destruct (Nat.eq_dec (S i) (length arr - 1)) as [->|Hne]; [lra|].
    left. apply sorted_nth_lt; [assumption|lia]. }
  destruct (Rleb value (nth 0 arr 0)) eqn:Ea.
  - apply Rleb_true in Ea. right.
    assert (Hi : i = O).
    { destruct i as [|i]; [reflexivity|].
      assert (nth 0 arr 0 < nth (S i) arr 0)
        by (apply sorted_nth_lt; [assumption|lia]). lra. }
    subst i. repeat split; lra.
  - apply Rleb_false in Ea. unfold Rgeb.
    destruct (Rleb (nth (length arr - 1) arr 0) value) eqn:Eb;
      [apply Rleb_true in Eb; lra|].
    left. now rewrite (findBracket_scan_sorted arr value i 0 Hs Hlen Hv).
Qed.

Lemma speakerGainLinear_value fs curve freq i :
  length fs = length curve -> StronglySorted Rlt fs ->
  (S i < length curve)%nat ->
  nth i fs 0 <= freq < nth (S i) fs 0 ->
  speakerGainLinear (Some {| freqs := fs; ListeningWindow := Some curve |})
                    freq
  = dBToLinear (nth i curve 0
                + (freq - nth i fs 0) / (nth (S i) fs 0 - nth i fs 0)
                  * (nth (S i) curve 0 - nth i curve 0)).
Proof.
  intros Hlen Hs Hi Hv. unfold speakerGainLinear; simpl.
  destruct (Nat.eqb (length curve) 0) eqn:E0;
    [apply Nat.eqb_eq in E0; lia|].
  rewrite Hlen, Nat.eqb_refl, E0. simpl.
  destruct (findBracket_sorted fs freq i Hs) as [->|(-> & Hf & ->)];
    try assumption; try lia.
  - unfold interpolate.
    destruct (Rseq (nth i fs 0) (nth (S i) fs 0)) eqn:E;
      [apply Rseq_true in E; lra|]. reflexivity.
  - unfold interpolate. rewrite Rseq_refl. f_equal. rewrite Hf.
    unfold Rdiv. lra.
Qed.

(** X5 (speakerGainLinear).  With the frequencies strictly ascending and a
    curve of the same length, the gain at a frequency inside
    [freqs[i], freqs[i+1]) is the linear value of the level interpolated
    between the two neighbouring data points, and lies between the gains of
    these two points. *)
Theorem speakerGainLinear_interpolates :
  forall (speaker : SpeakerData) (curve : list R) (freq : R) (i : nat),
    ListeningWindow speaker = Some curve ->
    length (freqs speaker) = length curve ->
    StronglySorted Rlt (freqs speaker) ->
    (S i < length curve)%nat ->
    nth i (freqs speaker) 0 <= freq < nth (S i) (freqs speaker) 0 ->
    let f1 := nth i (freqs speaker) 0 in
    let f2 := nth (S i) (freqs speaker) 0 in
    let db1 := nth i curve 0 in
    let db2 := nth (S i) curve 0 in
    speakerGainLinear (Some speaker) freq
    = dBToLinear (db1 + (freq - f1) / (f2 - f1) * (db2 - db1))
    /\ dBToLinear (Rmin db1 db2) <= speakerGainLinear (Some speaker) freq
       <= dBToLinear (Rmax db1 db2).
Proof.
  intros [fs lw] curve freq i; cbn [freqs ListeningWindow].
  intros -> Hlen Hs Hi Hv. cbv zeta.
  pose proof (speakerGainLinear_value fs curve freq i Hlen Hs Hi Hv) as Hval.
  split; [exact Hval|]. rewrite Hval.
  set (t := (freq - nth i fs 0) / (nth (S i) fs 0 - nth i fs 0)).
  assert (Ht : 0 <= t <= 1).
  { unfold t. split.
    - apply Rmult_le_pos; [lra|]. left. apply Rinv_0_lt_compat. lra.
    - apply (Rmult_le_reg_r (nth (S i) fs 0 - nth i fs 0)); [lra|].
      unfold Rdiv. rewrite Rmult_assoc, Rinv_l by lra. lra. }
  unfold dBToLinear, Math_pow.
  split; apply Rle_Rpower; try lra;
    unfold Rmin, Rmax; destruct (Rle_dec (nth i curve 0) (nth (S i) curve 0));
    nra.
Qed.

Lemma speakerGainLinear_interpolates_witness :
  let speaker := {| freqs := [20; 40]; ListeningWindow := Some [0; 6] |} in
  speakerGainLinear (Some speaker) 30 = dBToLinear (0 + (30 - 20) / (40 - 20) * (6 - 0)).
Proof.
  intros speaker.
  assert (Hs : StronglySorted Rlt (freqs speaker)).
  { simpl. repeat constructor. lra. }
  assert (Hi : (1 < length [0; 6])%nat) by (simpl; lia).
  assert (Hv : nth 0 (freqs speaker) 0 <= 30 < nth 1 (freqs speaker) 0)
    by (simpl; lra).
  exact (proj1 (speakerGainLinear_interpolates speaker [0; 6] 30 0
                  eq_refl eq_refl Hs Hi Hv)).
Defined.

(** X6 (speakerGainLinear).  At a tabulated frequency the gain is the
    tabulated level, and outside the tabulated range the curve is held at
    its first and at its last level. *)
Theorem speakerGainLinear_data_points :
  forall (speaker : SpeakerData) (curve : list R),
    ListeningWindow speaker = Some curve ->
    length (freqs speaker) = length curve ->
    (forall i, StronglySorted Rlt (freqs speaker) -> (i < length curve)%nat ->
       speakerGainLinear (Some speaker) (nth i (freqs speaker) 0)
       = dBToLinear (nth i curve 0))
    /\ (forall freq, curve <> [] -> freq <= nth 0 (freqs speaker) 0 ->
          speakerGainLinear (Some speaker) freq = dBToLinear (nth 0 curve 0))
    /\ (forall freq, nth 0 (freqs speaker) 0 < freq ->
          nth (length curve - 1) (freqs speaker) 0 <= freq ->
          speakerGainLinear (Some speaker) freq
          = dBToLinear (nth (length curve - 1) curve 0)).
Proof.
  intros [fs lw] curve; cbn [freqs ListeningWindow]. intros -> Hlen.
  assert (Hlow : forall freq, curve <> [] -> freq <= nth 0 fs 0 ->
            speakerGainLinear
              (Some {| freqs := fs; ListeningWindow := Some curve |}) freq
            = dBToLinear (nth 0 curve 0)).
  { intros freq Hne Hf. unfold speakerGainLinear; simpl.
    destruct (Nat.eqb (length curve) 0) eqn:E0.
    { apply Nat.eqb_eq in E0. destruct curve; [contradiction|discriminate]. }
    rewrite Hlen, Nat.eqb_refl, E0. simpl. unfold findBracket.
    rewrite Hlen, E0.
    replace (Rleb freq (nth 0 fs 0)) with true
      by (symmetry; now apply Rleb_true).
    rewrite orb_true_r. unfold interpolate. now rewrite Rseq_refl. }
  assert (Hhigh : forall freq, nth 0 fs 0 < freq ->
            nth (length curve - 1) fs 0 <= freq ->
            speakerGainLinear
              (Some {| freqs := fs; ListeningWindow := Some curve |}) freq
            = dBToLinear (nth (length curve - 1) curve 0)).
  { intros freq H0 Hl. unfold speakerGainLinear; simpl.
    destruct (Nat.eqb (length curve) 0) eqn:E0; simpl.
    { apply Nat.eqb_eq in E0. destruct curve; [|discriminate]. simpl.
      unfold dBToLinear, Math_pow. replace (0 / 20) with 0 by lra.
      rewrite Rpower_O; lra. }
    rewrite Hlen, Nat.eqb_refl, E0. simpl. unfold findBracket.
    rewrite Hlen, E0.
    destruct (Nat.eqb (length curve) 1) eqn:E1.
    { apply Nat.eqb_eq in E1. rewrite E1. simpl. unfold interpolate.
      now rewrite Rseq_refl. }
    replace (Rleb freq (nth 0 fs 0)) with false
      by (symmetry; now apply Rleb_false).
    unfold Rgeb.
    replace (Rleb (nth (length curve - 1) fs 0) freq) with true
      by (symmetry; now apply Rleb_true).
    simpl. unfold interpolate. now rewrite Rseq_refl. }
  split; [|split; assumption].
  intros i Hs Hi.
  destruct (Nat.eq_dec i 0) as [->|Hi0].
  { apply Hlow; [|lra]. intros ->. simpl in Hi. lia. }
  destruct (Nat.eq_dec i (length curve - 1)) as [->|Hil].
  { apply Hhigh; [|lra]. apply sorted_nth_lt; [assumption|lia]. }
  assert (Hlt : nth i fs 0 < nth (S i) fs 0)
    by (apply sorted_nth_lt; [assumption|lia]).
  rewrite (speakerGainLinear_value fs curve (nth i fs 0) i Hlen Hs);
    [|lia|lra].
  f_equal. unfold Rdiv. lra.
Qed.

Lemma speakerGainLinear_data_points_witness :
  let speaker := {| freqs := [20; 40]; ListeningWindow := Some [0; 6] |} in
  StronglySorted Rlt (freqs speaker)
  /\ speakerGainLinear (Some speaker) 40 = dBToLinear 6
  /\ speakerGainLinear (Some speaker) 10 = dBToLinear 0.
Proof.
  intros speaker.
  assert (Hs : StronglySorted Rlt (freqs speaker)).
  { simpl. repeat constructor. lra. }
  assert (Hi : (1 < length [0; 6])%nat) by (simpl; lia).
  assert (Hne : [0; 6] <> []) by discriminate.
  assert (Hf : 10 <= nth 0 (freqs speaker) 0) by (simpl; lra).
  split; [exact Hs|]. split.
  - exact (proj1 (speakerGainLinear_data_points speaker [0; 6]
                    eq_refl eq_refl) 1%nat Hs Hi).
  - exact (proj1 (proj2 (speakerGainLinear_data_points speaker [0; 6]
                           eq_refl eq_refl)) 10 Hne Hf).
Defined.

(** ** Feature detection *)

Lemma interpolateFrequencyForDbLevel_bounds targetDb freq1 db1 freq2 db2 :
  Rmin freq1 freq2
  <= interpolateFrequencyForDbLevel targetDb freq1 db1 freq2 db2
  <= Rmax freq1 freq2.
Proof.
  unfold interpolateFrequencyForDbLevel, Math_max, Math_min.
  destruct (Rseq db1 db2); [split; [apply Rmin_r | apply Rmax_r]|].
  split; [apply Rmax_l|].
  apply Rmax_lub; [|apply Rmin_l].
  unfold Rmin, Rmax. destruct (Rle_dec freq1 freq2); lra.
Qed.

Lemma searchEdge_within pos target lo hi prev outward f :
  lo <= freq prev <= hi ->
  Forall (fun p => lo <= freq p <= hi) outward ->
  searchEdge pos target prev outward = Some f ->
  lo <= f <= hi.
Proof.
  revert prev. induction outward as [|cur rest IH]; intros prev Hp Ho;
    [discriminate|].
  inversion Ho as [|? ? Hc Hr]; subst.
  cbn [searchEdge].
  destruct (_ || _).
  - destruct (negb _); [|intros [= <-]; exact Hc].
    destruct (_ || _); [|intros [= <-]; exact Hc].
    intros [= <-].
    pose proof (interpolateFrequencyForDbLevel_bounds target
                  (freq prev) (db prev) (freq cur) (db cur)) as Hb.
    revert Hb. unfold Rmin, Rmax.
    destruct (Rle_dec (freq prev) (freq cur)); lra.
  - destruct rest as [|nxt rest]; [intros [= <-]; exact Hc|].
    apply IH; assumption.
Qed.

(** X8 (estimatePeakWidth).  The estimated width is never negative and
    never more than the span of the frequencies in the data, and it is 0
    for an index outside the data. *)
Theorem estimatePeakWidth_range :
  forall (response : list ModeResponse) (centerIndex : nat) (lo hi : R),
    Forall (fun p => lo <= freq p <= hi) response ->
    0 <= estimatePeakWidth response centerIndex <= Rmax 0 (hi - lo)
    /\ ((length response <= centerIndex)%nat ->
        estimatePeakWidth response centerIndex = 0).
Proof.
  intros response ci lo hi Hall. unfold estimatePeakWidth.
  destruct (nth_error response ci) as [center|] eqn:Ec.
  2:{ split; [split; [lra | apply Rmax_l] | reflexivity]. }
  assert (Hci : (ci < length response)%nat).
  { apply nth_error_Some. congruence. }
  split; [|lia].
  assert (Hcenter : lo <= freq center <= hi).
  { rewrite Forall_forall in Hall. apply Hall.
    eapply nth_error_In; eassumption. }
  assert (Hnth : forall k, lo <= freq (nth k response center) <= hi).
  { intros k. destruct (Nat.lt_ge_cases k (length response)) as [Hk|Hk].
    - rewrite Forall_forall in Hall. apply Hall. now apply nth_In.
    - now rewrite nth_overflow. }
  cbv zeta.
  set (pos := _ && _ && _ && _).
  set (target := if pos then _ else _).
  assert (Hleft : lo <= match searchEdge pos target center
                                (rev (firstn ci response)) with
                        | Some f => f
                        | None => freq (nth 0 response center)
                        end <= hi).
  { destruct (searchEdge _ _ _ (rev _)) eqn:Es; [|apply Hnth].
    eapply searchEdge_within; [exact Hcenter| |exact Es].
    apply Forall_rev. rewrite Forall_forall in *. intros p Hp.
    apply Hall. eapply firstn_In; eassumption. }
  assert (Hright : lo <= match searchEdge pos target center
                                 (skipn (S ci) response) with
                         | Some f => f
                         | None => freq (nth (length response - 1) response
                                             center)
                         end <= hi).
  { destruct (searchEdge _ _ _ (skipn _ _)) eqn:Es; [|apply Hnth].
    eapply searchEdge_within; [exact Hcenter| |exact Es].
    rewrite Forall_forall in *. intros p Hp.
    apply Hall. rewrite <- (firstn_skipn (S ci) response).
    apply in_or_app. now right. }
  set (l := match searchEdge _ _ _ (rev _) with Some f => f | None => _ end)
    in *.
  set (r := match searchEdge _ _ _ (skipn _ _) with Some f => f | None => _ end)
    in *.
  unfold Rgtb. destruct (Rltb 0 (r - l)) eqn:E.
  - apply Rltb_true in E. split; [lra|].
    apply Rle_trans with (hi - lo); [lra | apply Rmax_r].
  - split; [lra | apply Rmax_l].
Qed.

Lemma estimatePeakWidth_range_witness :
  Forall (fun p => 20 <= freq p <= 22)
         [ {| freq := 20; db := 0 |}; {| freq := 21; db := 5 |};
           {| freq := 22; db := 0 |} ]
  /\ 0 <= estimatePeakWidth
            [ {| freq := 20; db := 0 |}; {| freq := 21; db := 5 |};
              {| freq := 22; db := 0 |} ] 1 <= Rmax 0 (22 - 20)
  /\ estimatePeakWidth
       [ {| freq := 20; db := 0 |}; {| freq := 21; db := 5 |};
         {| freq := 22; db := 0 |} ] 3 = 0.
Proof.
  assert (Hall : Forall (fun p => 20 <= freq p <= 22)
                   [ {| freq := 20; db := 0 |}; {| freq := 21; db := 5 |};
                     {| freq := 22; db := 0 |} ]).
  { repeat constructor; simpl; lra. }
  split; [exact Hall|]. split.
  - exact (proj1 (estimatePeakWidth_range _ 1%nat 20 22 Hall)).
  - apply (proj2 (estimatePeakWidth_range _ 3%nat 20 22 Hall)). simpl. lia.
Defined.

(** Sorting with a comparator that subtracts keys puts the keys in
    ascending order. *)
Lemma sort_insert_sorted {A} (k : A -> R) (cmp : A -> A -> R) a l :
  (forall a b, cmp a b = k a - k b) ->
  StronglySorted (fun a b => k a <= k b) l ->
  StronglySorted (fun a b => k a <= k b) (sort_insert cmp a l).
Proof.
  intros Hcmp Hs. induction Hs as [|b l Hs IH Hb]; simpl.
  - repeat constructor.
  - destruct (Rleb (cmp a b) 0) eqn:E.
    + apply Rleb_true in E. rewrite Hcmp in E.
      constructor; [now constructor|].
      constructor; [lra|].
      eapply Forall_impl; [|exact Hb]. simpl. intros c Hc. lra.
    + apply Rleb_false in E. rewrite Hcmp in E.
      constructor; [exact IH|].
      eapply Permutation_Forall;
        [apply Permutation_sym, sort_insert_perm|].
      constructor; [lra | exact Hb].
Qed.

Lemma sort_sorted {A} (k : A -> R) (cmp : A -> A -> R) l :
  (forall a b, cmp a b = k a - k b) ->
  StronglySorted (fun a b => k a <= k b) (sort cmp l).
Proof.
  intros Hcmp. unfold sort. induction l as [|a l IH]; simpl.
  - constructor.
  - now apply sort_insert_sorted.
Qed.

Lemma StronglySorted_impl {A} (R1 R2 : A -> A -> Prop) l :
  (forall a b, R1 a b -> R2 a b) ->
  StronglySorted R1 l -> StronglySorted R2 l.
Proof.
  intros Himp Hs. induction Hs as [|a l Hs IH Ha]; constructor;
    [assumption|].
  eapply Forall_impl; [|exact Ha]. apply Himp.
Qed.

Lemma estimatePeakWidth_nonneg response centerIndex :
  0 <= estimatePeakWidth response centerIndex.
Proof.
  unfold estimatePeakWidth.
  destruct (nth_error response centerIndex); [|lra].
  cbv zeta. unfold Rgtb.
  match goal with |- context [Rltb 0 ?w] =>
    destruct (Rltb 0 w) eqn:E; [apply Rltb_true in E|]; lra end.
Qed.

Lemma smoothResponse_length r : length (smoothResponse r) = length r.
Proof. unfold smoothResponse. now rewrite length_map, length_seq. Qed.

Lemma smoothResponse_nth r i d :
  (i < length r)%nat ->
  nth i (smoothResponse r) d
  = {| freq := freq (nth i r {| freq := 0; db := 0 |});
       db := fold_left (fun acc p => acc + db p)
               (firstn (Nat.min (length r - 1) (i + 3) + 1 - (i - 3))
                       (skipn (i - 3) r)) 0
             / INR (Nat.min (length r - 1) (i + 3) - (i - 3) + 1) |}.
Proof.
  intros Hi. unfold smoothResponse. cbv zeta.
  set (f := fun i : nat => _).
  rewrite (nth_indep _ d (f O)) by now rewrite length_map, length_seq.
  rewrite map_nth, seq_nth by assumption. reflexivity.
Qed.

Lemma featuresAt_spec sm sf i :
  Forall (featureAt sm i) (featuresAt sm sf i)
  /\ (length (featuresAt sm sf i) <= 1)%nat.
Proof.
  unfold featuresAt. cbv zeta.
  set (cur := nth i sm _). set (p3 := nth (i - 3) sm _).
  set (p2 := nth (i - 2) sm _). set (p1 := nth (i - 1) sm _).
  set (n1 := nth (i + 1) sm _). set (n2 := nth (i + 2) sm _).
  set (n3 := nth (i + 3) sm _).
  unfold Rgtb.
  assert (Hone : forall (c : bool) (a b : R) (f : Feature.t),
            (a < b -> featureAt sm i f) ->
            Forall (featureAt sm i)
                   (if c then if Rltb a b then [f] else [] else [])
            /\ (length (if c then if Rltb a b then [f] else [] else [])
                <= 1)%nat).
  { intros c a b f Hf. destruct c; [|split; [constructor | simpl; lia]].
    destruct (Rltb a b) eqn:E; [|split; [constructor | simpl; lia]].
    apply Rltb_true in E. split; [|simpl; lia].
    constructor; [auto | constructor]. }
  destruct (Rltb (db p3) (db cur)) eqn:E3.
  - apply Rltb_true in E3.
    replace (Rltb (db cur) (db p3)) with false
      by (symmetry; apply Rltb_false; lra).
    cbn [andb]. rewrite app_nil_r. apply Hone. intros Hp.
    unfold featureAt; cbn. repeat split.
    + destruct (Rltb (freq cur) sf); lra.
    + apply estimatePeakWidth_nonneg.
    + destruct (Rltb (freq cur) sf); discriminate.
  - cbn [andb app]. apply Hone. intros Hp.
    unfold featureAt; cbn. repeat split.
    + destruct (Rltb (freq cur) sf); lra.
    + apply estimatePeakWidth_nonneg.
    + intros _. destruct (Rltb (freq cur) sf); lra.
Qed.

Lemma flat_map_nil_all {A B} (f : A -> list B) l :
  (forall a, In a l -> f a = []) -> flat_map f l = [].
Proof.
  intros Hf. induction l as [|a l IH]; simpl; [reflexivity|].
  rewrite Hf by now left. apply IH. intros b Hb. apply Hf. now right.
Qed.

Lemma flat_map_length_le {A B} (f : A -> list B) l :
  (forall a, length (f a) <= 1)%nat ->
  (length (flat_map f l) <= length l)%nat.
Proof.
  intros Hf. induction l as [|a l IH]; simpl; [lia|].
  rewrite length_app. specialize (Hf a). lia.
Qed.

(** X9 (detectResponseFeatures).  The features come sorted by descending
    prominence.  Each one sits on a data point that has three neighbours on
    either side, so the first and the last three points are never reported
    and a response of fewer than seven points has no features; its
    prominence exceeds 0.8 dB (1 dB for a dip) and its width is not
    negative. *)
Theorem detectResponseFeatures_sorted_prominent :
  forall (roomResponse : list ModeResponse) (schroederFreq : R),
    let features := detectResponseFeatures roomResponse schroederFreq in
    StronglySorted
      (fun a b => Feature.prominence b <= Feature.prominence a) features
    /\ Forall (fun f =>
         0.8 < Feature.prominence f /\ 0 <= Feature.width f
         /\ (Feature.type f = feature_dip -> 1 < Feature.prominence f)
         /\ exists i, (3 <= i < length roomResponse - 3)%nat
              /\ Feature.frequency f
                 = freq (nth i roomResponse {| freq := 0; db := 0 |}))
         features
    /\ (length features <= length roomResponse - 6)%nat.
Proof.
  intros r sf features. subst features. unfold detectResponseFeatures.
  cbv zeta. rewrite smoothResponse_length.
  set (fs := flat_map _ _).
  set (cmp := fun a b : Feature.t => Feature.prominence b - _).
  split; [|split].
  - eapply StronglySorted_impl;
      [|apply (sort_sorted (fun f => - Feature.prominence f) cmp)].
    + simpl. intros a b Hab. lra.
    + intros a b. unfold cmp. lra.
  - eapply Permutation_Forall; [apply Permutation_sym, sort_perm|].
    unfold fs. apply Forall_flat_map, Forall_forall. intros i Hi.
    apply in_seq in Hi.
    eapply Forall_impl; [|apply (featuresAt_spec (smoothResponse r) sf i)].
    intros f (Hp & Hw & Hd & Hf). repeat split; try assumption.
    exists i. split; [lia|].
    rewrite Hf, smoothResponse_nth by lia. reflexivity.
  - rewrite (Permutation_length (sort_perm cmp fs)). unfold fs.
    etransitivity; [apply flat_map_length_le|now rewrite length_seq].
    intros i. apply featuresAt_spec.
Qed.

Lemma fold_left_db_const (c : R) l acc :
  Forall (fun p => db p = c) l ->
  fold_left (fun acc p => acc + db p) l acc = acc + INR (length l) * c.
Proof.
  intros Hl. revert acc. induction Hl as [|p l Hp Hl IH]; intros acc.
  - simpl. lra.
  - cbn [fold_left]. rewrite IH, Hp.
    change (length (p :: l)) with (S (length l)). rewrite S_INR. lra.
Qed.

Lemma smoothResponse_flat (c : R) r i :
  Forall (fun p => db p = c) r -> (i < length r)%nat ->
  db (nth i (smoothResponse r) {| freq := 0; db := 0 |}) = c.
Proof.
  intros Hr Hi. rewrite smoothResponse_nth by assumption. cbn [db].
  rewrite (fold_left_db_const c).
  2:{ rewrite Forall_forall in *. intros p Hp. apply Hr.
      apply firstn_In in Hp.
      rewrite <- (firstn_skipn (i - 3) r). apply in_or_app. now right. }
  rewrite length_firstn, length_skipn.
  replace (Nat.min (Nat.min (length r - 1) (i + 3) + 1 - (i - 3))
                   (length r - (i - 3)))
    with (Nat.min (length r - 1) (i + 3) - (i - 3) + 1)%nat by lia.
  field. apply not_0_INR. lia.
Qed.

(** X10 (detectResponseFeatures).  A response that has the same level at
    every point has no peaks and no dips. *)
Theorem detectResponseFeatures_flat :
  forall (roomResponse : list ModeResponse) (schroederFreq c : R),
    Forall (fun p => db p = c) roomResponse ->
    detectResponseFeatures roomResponse schroederFreq = [].
Proof.
  intros r sf c Hr. unfold detectResponseFeatures. cbv zeta.
  rewrite smoothResponse_length.
  replace (flat_map _ _) with (@nil Feature.t); [reflexivity|].
  symmetry. apply flat_map_nil_all. intros i Hi. apply in_seq in Hi.
  unfold featuresAt. cbv zeta.
  rewrite !(smoothResponse_flat c) by (assumption || lia).
  unfold Rgtb.
  replace (Rltb c c) with false by (symmetry; apply Rltb_false; lra).
  reflexivity.
Qed.

Lemma detectResponseFeatures_flat_witness :
  detectResponseFeatures
    (map (fun k => {| freq := 20 + INR k; db := 5 |}) (seq 0 9)) 200 = [].
Proof.
  apply (detectResponseFeatures_flat _ 200 5).
  repeat constructor.
Defined.

(** ** Modal response simulator: pressure and empty sums *)

Lemma cos_abs_le_1 a : Rabs (cos a) <= 1.
Proof. apply Rabs_le. pose proof (COS_bound a). lra. Qed.

Lemma calculateModePressure_le_1 n m l pos dim :
  Rabs (calculateModePressure n m l pos dim) <= 1.
Proof.
  unfold calculateModePressure, Math_cos. cbv zeta.
  rewrite !Rabs_mult.
  set (a := Rabs (cos _)). set (b := Rabs (cos _)). set (c := Rabs (cos _)).
  assert (Ha : 0 <= a <= 1) by (split; [apply Rabs_pos | apply cos_abs_le_1]).
  assert (Hb : 0 <= b <= 1) by (split; [apply Rabs_pos | apply cos_abs_le_1]).
  assert (Hc : 0 <= c <= 1) by (split; [apply Rabs_pos | apply cos_abs_le_1]).
  assert (Hab : 0 <= a * b <= 1) by nra. nra.
Qed.

(** X11 (calculateModePressure).  The standing-wave pressure of a mode is
    at most 1 in magnitude at every point, inside the room or not, and the
    mode (0, 0, 0) has pressure 1 everywhere. *)
Theorem calculateModePressure_bounded :
  forall (n m l : nat) (pos : Point) (dim : RoomDimensions),
    Rabs (calculateModePressure n m l pos dim) <= 1
    /\ calculateModePressure 0 0 0 pos dim = 1.
Proof.
  intros n m l pos dim. split; [apply calculateModePressure_le_1|].
  unfold calculateModePressure, Math_cos. cbv zeta.
  simpl INR. unfold Rdiv. rewrite !Rmult_0_l, cos_0. lra.
Qed.

Lemma range_ge f :
  In f (range FREQUENCY_MIN_HZ FREQUENCY_MAX_HZ FREQUENCY_STEP_HZ) ->
  (20 <= f)%Z.
Proof.
  unfold range, FREQUENCY_MIN_HZ, FREQUENCY_STEP_HZ.
  intros Hin. apply in_map_iff in Hin as [k [<- _]]. lia.
Qed.

Lemma magnitudeAt_no_modes a b L W H order qf f :
  (forall n m l, modeContribution a b L W H qf f n m l = None) ->
  magnitudeAt a b L W H order qf f = 0.
Proof.
  intros Hnone. unfold magnitudeAt.
  replace (fold_left _ (modeIndices order) (0, 0)) with ((0, 0) : R * R).
  - unfold Math_sqrt. replace (0 ^ 2 + 0 ^ 2) with 0 by lra. apply sqrt_0.
  - generalize (0, 0) as acc.
    induction (modeIndices order) as [|[[n m] l] idx IH]; intros acc; simpl.
    + reflexivity.
    + now rewrite Hnone.
Qed.

Lemma modeContribution_empty_room a b qf f n m l :
  (0 < f)%Z -> modeContribution a b 0 0 0 qf f n m l = None.
Proof.
  intros Hf. unfold modeContribution. rewrite !Rseq_refl. cbn [andb negb].
  rewrite andb_false_r.
  destruct (Nat.eqb n 0); [|reflexivity].
  destruct (Nat.eqb m 0); [|reflexivity].
  destruct (Nat.eqb l 0); [|reflexivity].
  cbn [negb]. cbv zeta.
  replace (SPEED_OF_SOUND / 2 * Math_sqrt (0 ^ 2 + 0 ^ 2 + 0 ^ 2)) with 0.
  - rewrite Rseq_refl. unfold Rgtb.
    replace (Rltb 0 (IZR f)) with true; [reflexivity|].
    symmetry. apply Rltb_true. now apply IZR_lt.
  - unfold Math_sqrt. replace (0 ^ 2 + 0 ^ 2 + 0 ^ 2) with 0 by lra.
    rewrite sqrt_0. lra.
Qed.

Lemma modeContribution_dc a b L W H qf f :
  (0 < f)%Z -> modeContribution a b L W H qf f 0 0 0 = None.
Proof.
  intros Hf.
  destruct (Rseq L 0 && Rseq W 0 && Rseq H 0) eqn:E.
  - apply andb_prop in E as [E EH]. apply andb_prop in E as [EL EW].
    apply Rseq_true in EL, EW, EH. subst.
    now apply modeContribution_empty_room.
  - unfold modeContribution. now rewrite E.
Qed.

(** X13 (simulateRoomResponse).  With [maxModeOrder = 0], and in a room
    whose three dimensions are all 0, no mode contributes: every point
    of the computed response is at the floor of -100 dB. *)
Theorem calculateResponse_no_modes :
  forall (subPos listenerPos : Point) (L W H : R) (maxModeOrder : nat)
         (baseQFactor : R),
    maxModeOrder = O \/ (L = 0 /\ W = 0 /\ H = 0) ->
    Forall (fun p => db p = -100)
           (calculateResponse subPos listenerPos L W H maxModeOrder
                              baseQFactor).
Proof.
  intros a b L W H order qf Hdeg. unfold calculateResponse. cbv zeta.
  rewrite map_map. apply Forall_forall. intros p Hp.
  apply in_map_iff in Hp as [f [<- Hf]]. apply range_ge in Hf. cbn [db].
  assert (Hmag : magnitudeAt a b L W H order qf f = 0).
  { destruct Hdeg as [->|(-> & -> & ->)].
    - unfold magnitudeAt. cbn [modeIndices seq flat_map map app fold_left].
      rewrite modeContribution_dc by lia.
      unfold Math_sqrt. cbn [fst snd].
      replace (0 ^ 2 + 0 ^ 2) with 0 by lra. apply sqrt_0.
    - apply magnitudeAt_no_modes. intros n m l.
      apply modeContribution_empty_room. lia. }
  rewrite Hmag.
  replace (Rleb 0 1e-9) with true by (symmetry; apply Rleb_true; lra).
  unfold Math_max, MIN_DB_VALUE. apply Rmax_left. lra.
Qed.

Lemma calculateResponse_no_modes_witness :
  Forall (fun p => db p = -100)
         (calculateResponse {| x := 1; y := 1; z := 0.5 |}
                            {| x := 3; y := 2; z := 1.2 |} 5 4 3 0 10).
Proof.
  apply calculateResponse_no_modes. left. reflexivity.
Defined.

(** ** Modal response simulator: the cache *)

Lemma cache_delete_absent k c :
  ~ In k (map fst c) -> cache_delete k c = c.
Proof.
  intros Hk. unfold cache_delete. induction c as [|e c IH]; simpl;
    [reflexivity|].
  destruct (CacheKey_eqb (fst e) k) eqn:E.
  - exfalso. apply Hk. left. now apply CacheKey_eqb_eq.
  - simpl. f_equal. apply IH. intros Hin. apply Hk. now right.
Qed.

(** Deleting the first [n] keys of a cache with distinct keys drops its
    first [n] entries. *)
Lemma evict_oldest n c :
  NoDup (map fst c) ->
  fold_left (fun c k => cache_delete k c) (firstn n (map fst c)) c
  = skipn n c.
Proof.
  revert c. induction n as [|n IH]; intros c Hnd; [reflexivity|].
  destruct c as [|e c]; [reflexivity|].
  inversion Hnd as [|? ? Hne Hnd']; subst.
  cbn [map firstn fold_left skipn].
  replace (cache_delete (fst e) (e :: c)) with c.
  - now apply IH.
  - unfold cache_delete. cbn [filter]. rewrite CacheKey_eqb_refl. cbn [negb].
    symmetry. now apply cache_delete_absent.
Qed.

Lemma cache_get_absent k c :
  cache_get k c = None -> ~ In k (map fst c).
Proof.
  intros Hn Hin. apply in_map_iff in Hin as [e [<- He]].
  rewrite cache_get_None in Hn. specialize (Hn e He).
  now rewrite CacheKey_eqb_refl in Hn.
Qed.

(** X14 (simulateRoomResponse).  A miss that finds 50 or more entries in
    the cache, with distinct keys, evicts the 25 oldest entries and keeps
    the others in their order; the new entry goes last.  A full cache of 50
    entries holds 26 afterwards. *)
Theorem simulateRoomResponse_evicts_oldest :
  forall (subPos listenerPos : Point) (L W H : R) (maxModeOrder : nat)
         (baseQFactor : R) (st : State),
    NoDup (map fst (responseCache st)) ->
    (50 <= length (responseCache st))%nat ->
    cache_get (generateCacheKey subPos listenerPos L W H maxModeOrder
                                baseQFactor) (responseCache st) = None ->
    let after :=
      snd (simulateRoomResponse subPos listenerPos L W H maxModeOrder
                                baseQFactor st) in
    responseCache after
    = skipn 25 (responseCache st)
      ++ [(generateCacheKey subPos listenerPos L W H maxModeOrder baseQFactor,
           length (heap st))]
    /\ fst (getCacheStats after) = (length (responseCache st) - 24)%nat.
Proof.
  intros a b L W H order qf st Hnd Hlen Hmiss after. subst after.
  unfold simulateRoomResponse. rewrite Hmiss.
  replace (Nat.leb CACHE_SIZE_LIMIT (length (responseCache st))) with true
    by (symmetry; now apply Nat.leb_le).
  change (Nat.div CACHE_SIZE_LIMIT 2) with 25%nat.
  cbn [snd responseCache].
  rewrite (evict_oldest 25 _ Hnd). split; [reflexivity|].
  unfold getCacheStats. cbn [fst responseCache].
  rewrite length_app, length_skipn. simpl. lia.
Qed.

Lemma CacheKey_eqb_order a b :
  key_maxModeOrder a <> key_maxModeOrder b -> CacheKey_eqb a b = false.
Proof.
  intros Hne. destruct (CacheKey_eqb a b) eqn:E; [|reflexivity].
  apply CacheKey_eqb_eq in E. now subst.
Qed.

Lemma simulateRoomResponse_evicts_oldest_witness :
  NoDup (map fst (responseCache fullCache))
  /\ (50 <= length (responseCache fullCache))%nat
  /\ fst (getCacheStats
            (snd (simulateRoomResponse {| x := 1; y := 1; z := 0.5 |}
                    {| x := 3; y := 2; z := 1.2 |} 5 4 3 50 10 fullCache)))
     = 26%nat.
Proof.
  assert (Hnd : NoDup (map fst (responseCache fullCache))).
  { unfold fullCache. cbn [responseCache]. rewrite map_map. cbn [fst].
    apply Finite.Injective_map_NoDup; [|apply seq_NoDup].
    intros j k Hjk. now injection Hjk. }
  assert (Hlen : (50 <= length (responseCache fullCache))%nat).
  { unfold fullCache. cbn [responseCache]. rewrite length_map, length_seq.
    lia. }
  assert (Hmiss : cache_get
            (generateCacheKey {| x := 1; y := 1; z := 0.5 |}
               {| x := 3; y := 2; z := 1.2 |} 5 4 3 50 10)
            (responseCache fullCache) = None).
  { apply cache_get_None. intros e He. unfold fullCache in He.
    cbn [responseCache] in He. apply in_map_iff in He as [k [<- Hk]].
    apply in_seq in Hk. apply CacheKey_eqb_order. cbn. lia. }
  split; [exact Hnd|]. split; [exact Hlen|].
  exact (proj2 (simulateRoomResponse_evicts_oldest _ _ 5 4 3 50%nat 10
                  fullCache Hnd Hlen Hmiss)).
Defined.

Lemma list_set_length {A} (l : list A) i v :
  length (list_set l i v) = length l.
Proof.
  revert i. induction l as [|a l IH]; intros [|i]; simpl; congruence.
Qed.

(** The invariant of the cache: at most 50 entries, with distinct keys,
    each referring to an allocated array. *)
Lemma runOp_invariant st op :
  (length (responseCache st) <= 50)%nat
  /\ NoDup (map fst (responseCache st)) /\ cacheAllocated st ->
  (length (responseCache (runOp st op)) <= 50)%nat
  /\ NoDup (map fst (responseCache (runOp st op)))
  /\ cacheAllocated (runOp st op).
Proof.
  intros (Hlen & Hnd & Hal). destruct op as [a b L W H order qf| |loc v].
  - cbn [runOp]. unfold simulateRoomResponse.
    set (key := generateCacheKey a b L W H order qf).
    destruct (cache_get key (responseCache st)) eqn:Hget;
      [now repeat split|].
    cbn [snd responseCache heap].
    set (cache1 := if Nat.leb _ _ then _ else _).
    assert (Hc1 : (length cache1 < 50)%nat /\ NoDup (map fst cache1)
                  /\ forall e, In e cache1 -> In e (responseCache st)).
    { unfold cache1. destruct (Nat.leb _ _) eqn:E.
      - change (Nat.div CACHE_SIZE_LIMIT 2) with 25%nat.
        rewrite (evict_oldest 25 _ Hnd). repeat split.
        + rewrite length_skipn. lia.
        + rewrite <- (firstn_skipn 25 (responseCache st)), map_app in Hnd.
          now apply NoDup_app_remove_l in Hnd.
        + intros e He. rewrite <- (firstn_skipn 25 (responseCache st)).
          apply in_or_app. now right.
      - apply Nat.leb_gt in E. unfold CACHE_SIZE_LIMIT in E.
        repeat split; [lia | assumption | easy]. }
    destruct Hc1 as (Hl1 & Hnd1 & Hsub). repeat split.
    + rewrite length_app. simpl. lia.
    + rewrite map_app. cbn [map fst].
      apply NoDup_app; [assumption | repeat constructor; easy |].
      intros k Hk [<-|[]]. apply cache_get_absent in Hget. apply Hget.
      apply in_map_iff in Hk as [e [<- He]]. apply in_map. now apply Hsub.
    + intros k loc Hin. cbn [responseCache heap] in *.
      rewrite length_app. simpl.
      apply in_app_or in Hin as [Hin|[[= _ <-]|[]]]; [|lia].
      apply Hsub in Hin. apply Hal in Hin. lia.
  - cbn [runOp clearResponseCache responseCache]. repeat split;
      [simpl; lia | constructor | intros k loc []].
  - cbn [runOp mutate responseCache]. repeat split; try assumption.
    unfold cacheAllocated, mutate. cbn [responseCache heap].
    intros k a Hin. rewrite list_set_length. now apply Hal in Hin.
Qed.

(** X15 (simulateRoomResponse, clearResponseCache).  Whatever sequence of
    simulator calls, cache clearings and writes into returned arrays a
    client performs, starting from the empty module state, the cache never
    holds more than 50 entries, its keys stay distinct, and every entry
    refers to an array that exists. *)
Theorem responseCache_bounded :
  forall ops : list CacheOp,
    let st := fold_left runOp ops emptyState in
    (fst (getCacheStats st) <= 50)%nat
    /\ NoDup (snd (getCacheStats st))
    /\ cacheAllocated st.
Proof.
  intros ops. cbv zeta. unfold getCacheStats. cbn [fst snd].
  assert (Hinit : (length (responseCache emptyState) <= 50)%nat
                  /\ NoDup (map fst (responseCache emptyState))
                  /\ cacheAllocated emptyState).
  { repeat split; [simpl; lia | constructor | intros k a []]. }
  revert Hinit. generalize emptyState as st.
  induction ops as [|op ops IH]; intros st Hst; [exact Hst|].
  cbn [fold_left]. apply IH. now apply runOp_invariant.
Qed.

(** X16 (clearResponseCache).  Clearing the cache empties it without
    touching the arrays already handed out, and the next call of the
    simulator recomputes: it returns a new array holding the computed
    response and the cache then holds that one entry. *)
Theorem clearResponseCache_forgets :
  forall (subPos listenerPos : Point) (L W H : R) (maxModeOrder : nat)
         (baseQFactor : R) (st : State),
    let cleared := clearResponseCache st in
    let next :=
      simulateRoomResponse subPos listenerPos L W H maxModeOrder baseQFactor
                           cleared in
    getCacheStats cleared = (O, [])
    /\ (forall a, deref cleared a = deref st a)
    /\ fst next = length (heap st)
    /\ deref (snd next) (fst next)
       = calculateResponse subPos listenerPos L W H maxModeOrder baseQFactor
    /\ (forall a, (a < length (heap st))%nat ->
                  deref (snd next) a = deref st a)
    /\ getCacheStats (snd next)
       = (1%nat, [generateCacheKey subPos listenerPos L W H maxModeOrder
                                   baseQFactor]).
Proof.
  intros a b L W H order qf st. cbv zeta.
  unfold clearResponseCache, simulateRoomResponse, getCacheStats, deref.
  cbn. repeat split.
  - now rewrite nth_middle.
  - intros loc Hloc. now rewrite app_nth1.
Qed.

(** ** Target curve: shape *)

(** X17 (getHarmanTargetDB).  Without roll-off the target stays between -1
    and +7 dB and never rises with frequency.  A roll-off with a slope that
    is not negative, below a roll-off frequency of at least 1 Hz, never
    raises the target. *)
Theorem getHarmanTargetDB_monotone :
  forall f1 f2 : R,
    -1 <= getHarmanTargetDB f1 None None <= 7
    /\ (f1 <= f2 ->
        getHarmanTargetDB f2 None None <= getHarmanTargetDB f1 None None)
    /\ (forall rolloffFreq slope, 1 <= rolloffFreq -> 0 <= slope ->
          getHarmanTargetDB f1 (Some rolloffFreq) (Some slope)
          <= getHarmanTargetDB f1 None None).
Proof.
  intros f1 f2. split; [|split].
  - unfold getHarmanTargetDB. rcases; lra.
  - intros Hle. unfold getHarmanTargetDB. rcases; lra.
  - intros rf s Hrf Hs.
    unfold getHarmanTargetDB at 1.
    fold (getHarmanTargetDB f1 None None).
    destruct (truthy (Some rf) && truthy (Some s) && Rltb f1 rf) eqn:E;
      [|lra].
    apply andb_prop in E as [_ E]. apply Rltb_true in E.
    assert (Hoct : 0 <= Math_log2 (rf / Math_max f1 1)).
    { unfold Math_log2, Math_max.
      apply Rmult_le_pos; [|left; apply Rinv_0_lt_compat, ln2_pos].
      rewrite <- ln_1. apply ln_le_mono; [lra|].
      assert (Hm : 0 < Rmax f1 1 <= rf).
      { unfold Rmax. destruct (Rle_dec f1 1); lra. }
      apply (Rmult_le_reg_r (Rmax f1 1)); [lra|].
      unfold Rdiv. rewrite Rmult_assoc, Rinv_l by lra. lra. }
    nra.
Qed.

Lemma getHarmanTargetDB_monotone_witness :
  50 <= 100
  /\ getHarmanTargetDB 100 None None <= getHarmanTargetDB 50 None None.
Proof.
  assert (Hle : 50 <= 100) by lra.
  split; [exact Hle|].
  exact (proj1 (proj2 (getHarmanTargetDB_monotone 50 100)) Hle).
Defined.

(** ** Filter bank: sign of a contribution *)

Lemma Rpower_10_m10 : Rpower 10 (-10) = 1e-10.
Proof.
  replace (-10) with (- INR 10) by (simpl; lra).
  rewrite Rpower_Ropp, Rpower_pow by lra. lra.
Qed.

Lemma Rpower_10_mono a b : a <= b -> Rpower 10 a <= Rpower 10 b.
Proof. intros Hab. apply Rle_Rpower; lra. Qed.

Lemma log10_Rpower v : 20 * (ln (Rpower 10 (v / 20)) / ln 10) = v.
Proof. rewrite Rpower_10_log. lra. Qed.

(** The transfer value lies between 1 and the linear gain of the band. *)
Lemma bellTransfer_between f band :
  Rmin 1 (Rpower 10 (gain band / 20)) <= bellTransfer f band
  <= Rmax 1 (Rpower 10 (gain band / 20)).
Proof.
  unfold bellTransfer.
  set (g := Rpower 10 _).
  match goal with |- _ <= 1 + _ / (1 + ?a ^ 2) <= _ =>
    pose proof (pow2_ge_0 a) as Hsq; set (d := 1 + a ^ 2) in * end.
  assert (Hd : 1 <= d) by (unfold d; lra).
  assert (Hi : 0 < / d <= 1).
  { split; [apply Rinv_0_lt_compat; lra|].
    rewrite <- Rinv_1. apply Rinv_le_contravar; lra. }
  unfold Rdiv, Rmin, Rmax. destruct (Rle_dec 1 g); nra.
Qed.

Lemma log10_le_mono a b :
  0 < a -> a <= b -> 20 * (ln a / ln 10) <= 20 * (ln b / ln 10).
Proof.
  intros Ha Hab. pose proof ln10_pos. pose proof (ln_le_mono a b Ha Hab).
  apply Rmult_le_compat_l; [lra|].
  apply Rmult_le_compat_r; [left; now apply Rinv_0_lt_compat | assumption].
Qed.

Lemma calculateBandResponse_sign f band :
  Rmin 0 (gain band) <= calculateBandResponse f band <= Rmax 0 (gain band).
Proof.
  destruct (Rle_dec (f) 0) as [Hf|Hf].
  { rewrite calculateBandResponse_ignored by (unfold ignoredBand; tauto).
    split; [apply Rmin_l | apply Rmax_l]. }
  destruct (FilterType_eqb (type band) peak) eqn:Et.
  2:{ rewrite calculateBandResponse_ignored.
      - split; [apply Rmin_l | apply Rmax_l].
      - left. intros Hp. apply FilterType_eqb_peak in Hp. congruence. }
  apply FilterType_eqb_peak in Et.
  destruct (Rle_dec (frequency band) 0) as [H0|H0].
  { rewrite calculateBandResponse_ignored by (unfold ignoredBand; tauto).
    split; [apply Rmin_l | apply Rmax_l]. }
  destruct (Rle_dec (q band) 0) as [Hq|Hq].
  { rewrite calculateBandResponse_ignored by (unfold ignoredBand; tauto).
    split; [apply Rmin_l | apply Rmax_l]. }
  destruct (Rlt_dec (Rabs (gain band)) 0.01) as [Hg|Hg].
  { rewrite calculateBandResponse_ignored by (unfold ignoredBand; tauto).
    split; [apply Rmin_l | apply Rmax_l]. }
  rewrite calculateBandResponse_active by (unfold ignoredBand; tauto).
  destruct (Rleb (Rpower 10 (gain band / 20)) MAX_VALUE);
    [|split; [apply Rmin_l | apply Rmax_l]].
  pose proof (bellTransfer_between f band) as Hb.
  pose proof (bellTransfer_pos f band) as Hpos.
  pose proof ln10_pos as Hln.
  set (g := Rpower 10 (gain band / 20)) in *.
  assert (Hgpos : 0 < g) by apply exp_pos.
  assert (Hlg : 20 * (ln g / ln 10) = gain band) by apply log10_Rpower.
  assert (Hl1 : 20 * (ln 1 / ln 10) = 0) by (rewrite ln_1; lra).
  destruct (Rle_dec 0 (gain band)) as [Hsign|Hsign].
  - assert (H1g : 1 <= g).
    { unfold g. rewrite <- (Rpower_O 10) by lra.
      apply Rpower_10_mono. lra. }
    rewrite Rmin_left, Rmax_right in Hb by assumption.
    rewrite Rmin_left, Rmax_right by assumption.
    replace (Rleb (bellTransfer f band) 1e-10) with false
      by (symmetry; apply Rleb_false; lra).
    pose proof (log10_le_mono 1 _ Rlt_0_1 (proj1 Hb)) as Hlo.
    pose proof (log10_le_mono _ g Hpos (proj2 Hb)) as Hhi.
    rewrite Hl1 in Hlo. rewrite Hlg in Hhi.
    unfold bellDb. set (v := 20 * (ln (bellTransfer f band) / ln 10)) in *.
    unfold clamp, Rmax, Rmin.
    destruct (Rle_dec 20 v); destruct (Rle_dec (-50) _); lra.
  - assert (Hg1 : g <= 1).
    { unfold g. rewrite <- (Rpower_O 10) by lra.
      apply Rpower_10_mono. lra. }
    rewrite Rmin_right, Rmax_left in Hb by assumption.
    rewrite Rmin_right, Rmax_left by lra.
    pose proof (log10_le_mono _ 1 Hpos (proj2 Hb)) as Hhi.
    pose proof (log10_le_mono g _ Hgpos (proj1 Hb)) as Hlo.
    rewrite Hl1 in Hhi. rewrite Hlg in Hlo.
    destruct (Rleb (bellTransfer f band) 1e-10) eqn:E.
    + apply Rleb_true in E. split; [|lra].
      destruct (Rle_dec (gain band) (-200)) as [|Hn]; [assumption|].
      exfalso.
      assert (Hlt : Rpower 10 (-10) < g).
      { unfold g, Rpower. apply exp_increasing.
        apply Rmult_lt_compat_r; lra. }
      rewrite Rpower_10_m10 in Hlt. lra.
    + unfold bellDb. set (v := 20 * (ln (bellTransfer f band) / ln 10)) in *.
      unfold clamp, Rmax, Rmin.
      destruct (Rle_dec 20 v); destruct (Rle_dec (-50) _); lra.
Qed.

(** ** Filter bank: applying a whole EQ *)

Lemma Rsum_nonneg l : Forall (fun v => 0 <= v) l -> 0 <= Rsum l.
Proof.
  intros Hl. induction Hl as [|v l Hv Hl IH]; unfold Rsum in *; simpl; lra.
Qed.

Lemma Rsum_nonpos l : Forall (fun v => v <= 0) l -> Rsum l <= 0.
Proof.
  intros Hl. induction Hl as [|v l Hv Hl IH]; unfold Rsum in *; simpl; lra.
Qed.

Lemma totalGainAt_boosts f bs :
  Forall (fun band => 0 <= gain band) bs -> 0 <= totalGainAt f bs.
Proof.
  intros Hbs. rewrite totalGainAt_sum. apply Rsum_nonneg.
  apply Forall_map. eapply Forall_impl; [|exact Hbs]. intros band Hg.
  pose proof (calculateBandResponse_sign f band) as [Hlo _].
  rewrite Rmin_left in Hlo; assumption.
Qed.

Lemma totalGainAt_cuts f bs :
  Forall (fun band => gain band <= 0) bs -> totalGainAt f bs <= 0.
Proof.
  intros Hbs. rewrite totalGainAt_sum. apply Rsum_nonpos.
  apply Forall_map. eapply Forall_impl; [|exact Hbs]. intros band Hg.
  pose proof (calculateBandResponse_sign f band) as [_ Hhi].
  rewrite Rmax_left in Hhi; assumption.
Qed.

(** X20 (applyEQToResponse).  The output has one point per input point, at
    the same frequency.  An EQ made of boosts only never lowers a point
    whose level is at most 130 dB, and an EQ made of cuts only never raises
    a point whose level is at least -80 dB. *)
Theorem applyEQToResponse_direction :
  forall (originalResponse : list ModeResponse) (eqSettings : EQSettings),
    map freq (applyEQToResponse originalResponse eqSettings)
    = map freq originalResponse
    /\ (Forall (fun band => 0 <= gain band) (bands eqSettings) ->
        Forall2 (fun p p' => db p <= 130 -> db p <= db p')
                originalResponse
                (applyEQToResponse originalResponse eqSettings))
    /\ (Forall (fun band => gain band <= 0) (bands eqSettings) ->
        Forall2 (fun p p' => -80 <= db p -> db p' <= db p)
                originalResponse
                (applyEQToResponse originalResponse eqSettings)).
Proof.
  intros r e. unfold applyEQToResponse.
  destruct (negb (enabled e) || Nat.eqb (length (bands e)) 0).
  - split; [reflexivity|]. split; intros _;
      induction r; constructor; auto; lra.
  - split; [|split].
    + rewrite map_map. now apply map_ext.
    + intros Hb. induction r as [|p r IH]; constructor; [|exact IH].
      cbn [db]. intros Hp.
      pose proof (totalGainAt_boosts (freq p) (bands e) Hb).
      unfold Math_max, Math_min, Rmax, Rmin.
      destruct (Rle_dec 130 _); destruct (Rle_dec (-80) _); lra.
    + intros Hb. induction r as [|p r IH]; constructor; [|exact IH].
      cbn [db]. intros Hp.
      pose proof (totalGainAt_cuts (freq p) (bands e) Hb).
      unfold Math_max, Math_min, Rmax, Rmin.
      destruct (Rle_dec 130 _); destruct (Rle_dec (-80) _); lra.
Qed.

Lemma applyEQToResponse_direction_witness :
  let eqSettings :=
    {| bands := [boost30]; enabled := true; maxBoost := 12; maxCut := 18;
       smoothing := 0 |} in
  Forall (fun band => 0 <= gain band) (bands eqSettings)
  /\ Forall2 (fun p p' => db p <= 130 -> db p <= db p')
             singlePointRoom (applyEQToResponse singlePointRoom eqSettings).
Proof.
  intros eqSettings.
  assert (Hb : Forall (fun band => 0 <= gain band) (bands eqSettings)).
  { repeat constructor. simpl. lra. }
  split; [exact Hb|].
  exact (proj1 (proj2 (applyEQToResponse_direction singlePointRoom
                         eqSettings)) Hb).
Defined.

(** ** Error analysis: the figures as sums *)

Lemma analyzeTargetError_metrics current target :
  let result := analyzeTargetError current target in
  let es := map pairError (matchedPairs current target) in
  rmsError result
  = match es with
    | [] => 0
    | _ => sqrt (Rsum (map (fun e => e * e) es) / INR (length es))
    end
  /\ avgError result
     = match es with
       | [] => 0
       | _ => Rsum es / INR (length es)
       end.
Proof.
  cbv zeta. unfold analyzeTargetError.
  rewrite analyzeTargetError_loop by (simpl; lra).
  set (es := map pairError _).
  cbn [errors sumSquaredError loopMaxError sumError validPoints
       rmsError maxError avgError errorByFrequency app].
  split.
  - destruct es; cbn [length Nat.add Nat.ltb Nat.leb]; [reflexivity|].
    unfold Math_sqrt. now rewrite Rplus_0_l.
  - destruct es; cbn [length Nat.add Nat.ltb Nat.leb]; [reflexivity|].
    now rewrite Rplus_0_l.
Qed.

(** ** Error analysis: a response against itself *)

Lemma firstWithin1Hz_self pre c post :
  Forall (fun p => 1 <= Rabs (freq p - freq c)) pre ->
  firstWithin1Hz (pre ++ c :: post) (freq c) = Some c.
Proof.
  intros Hpre. unfold firstWithin1Hz.
  induction Hpre as [|p pre Hp Hpre IH]; simpl.
  - replace (freq c - freq c) with 0 by lra. rewrite Rabs_R0.
    replace (Rltb 0 1) with true by (symmetry; apply Rltb_true; lra).
    reflexivity.
  - replace (Rltb (Rabs (freq p - freq c)) 1) with false
      by (symmetry; now apply Rltb_false).
    exact IH.
Qed.

Lemma matchedPairs_self_aux pre r :
  ForallOrdPairs (fun a b => 1 <= Rabs (freq a - freq b)) (pre ++ r) ->
  flat_map (fun c =>
    match firstWithin1Hz (pre ++ r) (freq c) with
    | Some t => [(c, t)]
    | None => []
    end) r
  = map (fun c => (c, c)) r.
Proof.
  revert pre. induction r as [|c r IH]; intros pre Hsp; [reflexivity|].
  cbn [flat_map map].
  rewrite firstWithin1Hz_self.
  - cbn [app]. f_equal.
    replace (pre ++ c :: r) with ((pre ++ [c]) ++ r)
      by now rewrite <- app_assoc.
    apply IH. now rewrite <- app_assoc.
  - clear IH. induction pre as [|p pre IHp]; [constructor|].
    cbn [app] in Hsp. inversion Hsp as [|? ? Hp Hrest]; subst.
    constructor; [|now apply IHp].
    rewrite Forall_forall in Hp. apply Hp. apply in_or_app. right. now left.
Qed.

Lemma zero_figures {A} (l : list A) :
  let zs := map (fun _ : A => 0) l in
  Rsum zs = 0 /\ Rsum (map (fun e => e * e) zs) = 0
  /\ fold_right Rmax 0 (map Rabs zs) = 0.
Proof.
  cbv zeta. induction l as [|a l (IH1 & IH2 & IH3)]; unfold Rsum in *;
    cbn [map fold_right].
  - repeat split; reflexivity.
  - rewrite IH1, IH2, IH3, Rabs_R0, Rmax_left by lra. repeat split; lra.
Qed.

(** X22 (analyzeTargetError).  A response whose points are at least 1 Hz
    apart, compared with itself, matches every point with itself: there is
    one entry per point, every error is 0, and so are the RMS, the maximum
    and the average error. *)
Theorem analyzeTargetError_self :
  forall response : list ModeResponse,
    ForallOrdPairs (fun a b => 1 <= Rabs (freq a - freq b)) response ->
    let result := analyzeTargetError response response in
    map Err.freq (errorByFrequency result) = map freq response
    /\ Forall (fun e => Err.error e = 0) (errorByFrequency result)
    /\ rmsError result = 0 /\ maxError result = 0 /\ avgError result = 0.
Proof.
  intros r Hsp result. subst result.
  destruct (analyzeTargetError_metrics r r) as [Hrms Havg].
  rewrite Hrms, Havg, analyzeTargetError_maxError, analyzeTargetError_entries.
  assert (Hmp : matchedPairs r r = map (fun c => (c, c)) r)
    by exact (matchedPairs_self_aux [] r Hsp).
  rewrite Hmp.
  assert (Hes : map pairError (map (fun c : ModeResponse => (c, c)) r)
                = map (fun _ => 0) r).
  { rewrite map_map. apply map_ext. intros c. unfold pairError; simpl. lra. }
  rewrite Hes.
  destruct (zero_figures r) as (Hs & Hq & Hm).
  split; [|split; [|split; [|split]]].
  - rewrite !map_map. now apply map_ext.
  - apply Forall_forall. intros e He.
    apply in_map_iff in He as [p [<- Hp]].
    apply in_map_iff in Hp as [c [<- _]].
    unfold pairEntry, pairError; simpl. lra.
  - destruct (map (fun _ => 0) r) eqn:E; [reflexivity|].
    rewrite Hq. unfold Rdiv. rewrite Rmult_0_l. apply sqrt_0.
  - exact Hm.
  - destruct (map (fun _ => 0) r) eqn:E; [reflexivity|].
    rewrite Hs. unfold Rdiv. now rewrite Rmult_0_l.
Qed.

Lemma analyzeTargetError_self_witness :
  ForallOrdPairs (fun a b => 1 <= Rabs (freq a - freq b)) threePointRoom
  /\ rmsError (analyzeTargetError threePointRoom threePointRoom) = 0.
Proof.
  assert (Hsp : ForallOrdPairs (fun a b => 1 <= Rabs (freq a - freq b))
                               threePointRoom).
  { unfold threePointRoom.
    repeat (constructor; [repeat constructor; cbn [freq];
                          rewrite Rabs_left by lra; lra |]).
    constructor. }
  split; [exact Hsp|].
  exact (proj1 (proj2 (proj2 (analyzeTargetError_self threePointRoom Hsp)))).
Defined.

(** ** Generator: spacing of the selected errors *)

Lemma existsb_false {A} (p : A -> bool) l x :
  existsb p l = false -> In x l -> p x = false.
Proof.
  induction l as [|a l IH]; simpl; [easy|].
  intros E [->|Hin]; apply orb_false_elim in E as [Ea El]; auto.
Qed.

Lemma wellSpaced_spec pt used d e :
  wellSpaced pt used d e = true ->
  (forall u, In u used ->
     getMinSpacing pt (Err.freq e) <= Rabs (u - Err.freq e))
  /\ (forall x, In x d ->
        getMinSpacing pt (Err.freq e) <= Rabs (Err.freq x - Err.freq e)).
Proof.
  unfold wellSpaced, some. cbv zeta. intros Hw.
  apply andb_prop in Hw as [Hu Hd].
  apply negb_true_iff in Hu, Hd. split.
  - intros u Hin. pose proof (existsb_false _ _ u Hu Hin) as Hn.
    cbv beta in Hn. now apply Rltb_false.
  - intros x Hin. pose proof (existsb_false _ _ x Hd Hin) as Hn.
    cbv beta in Hn. now apply Rltb_false.
Qed.

(** What the two loops of the distribution maintain. *)
Lemma selection_push errors pt M used d e :
  (keepsSpacing pt used d /\ (forall x, In x d -> In x errors)
   /\ (len d <= Z.max 0 M)%Z) ->
  In e errors -> (len d < M)%Z -> wellSpaced pt used d e = true ->
  keepsSpacing pt used (d ++ [e]) /\ (forall x, In x (d ++ [e]) -> In x errors)
  /\ (len (d ++ [e]) <= Z.max 0 M)%Z.
Proof.
  intros ((Hused & Hsp) & Hsub & Hlen) He HM Hw.
  apply wellSpaced_spec in Hw as [Hwu Hwd].
  split; [split|split].
  - apply Forall_app. split; [exact Hused|]. constructor; [exact Hwu|constructor].
  - intros i j d0 Hij. rewrite length_app in Hij. simpl in Hij.
    destruct (Nat.eq_dec j (length d)) as [->|Hj].
    + rewrite (app_nth2 d [e]) by lia. rewrite Nat.sub_diag. cbn [nth].
      rewrite app_nth1 by lia. apply Hwd. apply nth_In. lia.
    + rewrite !app_nth1 by lia. apply Hsp. lia.
  - intros x Hx. apply in_app_or in Hx as [Hx|[<-|[]]]; auto.
  - rewrite len_app. unfold len at 2. simpl. lia.
Qed.

Lemma priorityLoop_selection errors pt M used crit d :
  (forall e, In e crit -> In e errors) ->
  (keepsSpacing pt used d /\ (forall x, In x d -> In x errors)
   /\ (len d <= Z.max 0 M)%Z) ->
  let d' := priorityLoop pt M used crit d in
  keepsSpacing pt used d' /\ (forall x, In x d' -> In x errors)
  /\ (len d' <= Z.max 0 M)%Z.
Proof.
  cbv zeta. revert d. induction crit as [|e crit IH]; intros d Hc Hd;
    [exact Hd|].
  cbn [priorityLoop].
  destruct (len d >=? M)%Z eqn:E; [exact Hd|].
  assert (Hc' : forall e', In e' crit -> In e' errors)
    by (intros e' He'; apply Hc; now right).
  destruct (wellSpaced pt used d e) eqn:Ew; [|now apply IH].
  apply IH; [exact Hc'|].
  apply selection_push; try assumption; [apply Hc; now left | lia].
Qed.

Lemma zoneLoop_selection errors pt M used zone zerrs zb d :
  (forall e, In e zerrs -> In e errors) ->
  (keepsSpacing pt used d /\ (forall x, In x d -> In x errors)
   /\ (len d <= Z.max 0 M)%Z) ->
  let d' := zoneLoop pt M used zone zerrs zb d in
  keepsSpacing pt used d' /\ (forall x, In x d' -> In x errors)
  /\ (len d' <= Z.max 0 M)%Z.
Proof.
  cbv zeta. revert zb d. induction zerrs as [|e zerrs IH]; intros zb d Hc Hd;
    [exact Hd|].
  cbn [zoneLoop].
  destruct ((zb >=? zone_maxBands zone)%Z || (len d >=? M)%Z) eqn:E;
    [exact Hd|].
  apply orb_false_elim in E as [_ E].
  assert (Hc' : forall e', In e' zerrs -> In e' errors)
    by (intros e' He'; apply Hc; now right).
  destruct (wellSpaced pt used d e) eqn:Ew; [|now apply IH].
  apply IH; [exact Hc'|].
  apply selection_push; try assumption; [apply Hc; now left | lia].
Qed.

Lemma getMinSpacing_ge_3 pt f : 3 <= getMinSpacing pt f.
Proof. unfold getMinSpacing. destruct pt; rcases; lra. Qed.

(** X23 (smartFrequencyDistribution).  The distribution selects only points
    of its input, at most [maxBands] of them, and every selected point is at
    least its own minimum spacing away from every frequency already in use
    and from every point selected before it; so no two selected points are
    less than 3 Hz apart. *)
Theorem smartFrequencyDistribution_spacing :
  forall (errors : list Err.t) (maxBands : Z) (schroederFreq : R)
         (usedFrequencies : list R) (passType : PassType),
    let selected :=
      smartFrequencyDistribution errors maxBands schroederFreq
                                 usedFrequencies passType in
    (forall e, In e selected -> In e errors)
    /\ (len selected <= Z.max 0 maxBands)%Z
    /\ keepsSpacing passType usedFrequencies selected
    /\ (forall i j d, (i < j < length selected)%nat ->
          3 <= Rabs (Err.freq (nth i selected d)
                     - Err.freq (nth j selected d))).
Proof.
  intros errors M sf used pt selected.
  assert (Hinv : keepsSpacing pt used selected
                 /\ (forall x, In x selected -> In x errors)
                 /\ (len selected <= Z.max 0 M)%Z).
  { subst selected. unfold smartFrequencyDistribution.
    destruct (Nat.eqb (length errors) 0).
    { split; [split; [constructor | intros i j d Hij; simpl in Hij; lia]|].
      split; [intros x []|]. unfold len; simpl; lia. }
    cbv zeta.
    set (d0 := priorityLoop _ _ _ _ _).
    assert (H0 : keepsSpacing pt used d0
                 /\ (forall x, In x d0 -> In x errors)
                 /\ (len d0 <= Z.max 0 M)%Z).
    { apply priorityLoop_selection.
      - intros e He. now apply filter_In in He.
      - split; [split; [constructor | intros i j d Hij; simpl in Hij; lia]|].
        split; [intros x []|]. unfold len; simpl; lia. }
    clearbody d0. revert d0 H0.
    induction (zonesFor M sf) as [|zone zones IH]; intros d0 H0;
      [exact H0|].
    cbn [fold_left]. apply IH. unfold zoneStep. cbv zeta.
    apply zoneLoop_selection; [|exact H0].
    intros e He. now apply filter_In in He. }
  destruct Hinv as (Hsp & Hsub & Hlen).
  split; [exact Hsub|]. split; [exact Hlen|]. split; [exact Hsp|].
  intros i j d Hij.
  eapply Rle_trans; [apply (getMinSpacing_ge_3 pt)|].
  apply (proj2 Hsp). exact Hij.
Qed.

(** ** Generator: form and order of the result *)

Lemma tenth_round v : tenth (Math_round v / 10).
Proof. unfold tenth, Math_round. now eexists. Qed.

Lemma generateEQPass_peakOnGrid cur tgt M pt mb mc minQ maxQ sm sf used :
  Forall peakOnGrid (generateEQPass cur tgt M pt mb mc minQ maxQ sm sf used).
Proof.
  unfold generateEQPass.
  set (bs := bandLoop _ _ _ _ _ _ _ _ _ _).
  assert (Hbs : Forall peakOnGrid bs).
  { apply bandLoop_gain; [|constructor].
    intros e band. unfold bandFor. cbv zeta.
    destruct (Rgtb _ 0.2); [|discriminate]. intros [= <-].
    repeat split; apply tenth_round. }
  destruct (_ && _); [|assumption].
  destruct (addSpectralBalanceCorrection _ _ _ _ _ _) as [band|] eqn:Es;
    [|assumption].
  apply Forall_app; split; [assumption|]. constructor; [|constructor].
  revert Es. unfold addSpectralBalanceCorrection.
  repeat match goal with
  | |- context [if ?c then None else _] => destruct c; [discriminate|]
  end.
  cbv zeta.
  destruct (fold_left _ _ (0, O)) as [tot vp].
  repeat match goal with
  | |- context [if ?c then None else _] => destruct c; [discriminate|]
  end.
  intros [= <-]. repeat split; [|apply tenth_round].
  exists 2000%Z. cbn [frequency]. lra.
Qed.

Lemma generateCorrectiveBands_peakOnGrid problems k :
  Forall peakOnGrid (generateCorrectiveBands problems k).
Proof.
  unfold generateCorrectiveBands. cbv zeta. apply Forall_map.
  apply Forall_forall. intros p _. repeat split; apply tenth_round.
Qed.

(** Whatever holds of every band of a pass and of every corrective band
    holds of every band of the result. *)
Lemma generateOptimalEQ_Forall (P : EQBand -> Prop) room target options :
  (forall cur tgt M pt mb mc minQ maxQ sm sf used,
     Forall P (generateEQPass cur tgt M pt mb mc minQ maxQ sm sf used)) ->
  (forall problems k, Forall P (generateCorrectiveBands problems k)) ->
  Forall P (bands (generateOptimalEQ room target options)).
Proof.
  intros Hpass Hcorr. unfold generateOptimalEQ. cbv zeta.
  destruct (_ || _); [constructor|].
  set (p1 := generateEQPass room target _ broad _ _ _ _ _ _ _).
  set (probs := analyzePostEQProblems _ _ _ _).
  set (p1c := if Nat.ltb 0 (length probs) then p1 ++ _ else p1).
  assert (H1 : Forall P p1c).
  { unfold p1c. destruct (Nat.ltb 0 (length probs)); [|apply Hpass].
    apply Forall_app. split; [apply Hpass | apply Hcorr]. }
  clearbody p1c.
  set (p2 := generateEQPass _ _ _ targeted _ _ _ _ _ _ _).
  assert (H2 : Forall P p2) by apply Hpass. clearbody p2.
  set (p3 := generateEQPass _ _ _ polishing _ _ _ _ _ _ _).
  assert (H3 : Forall P p3) by apply Hpass. clearbody p3.
  set (p4 := generateEQPass _ _ _ ultra_fine _ _ _ _ _ _ _).
  assert (H4 : Forall P p4) by apply Hpass. clearbody p4.
  repeat match goal with
  | |- context [if (?a >? 0)%Z then _ else _] => destruct (a >? 0)%Z
  end; cbn [bands];
    (eapply Permutation_Forall; [apply Permutation_sym, sort_perm|]);
    repeat (apply Forall_app; split); assumption.
Qed.

Lemma generateOptimalEQ_settings room target options :
  exists bs,
    generateOptimalEQ room target options
    = {| bands := bs;
         enabled := negb (Nat.eqb (length room) 0
                          || Nat.eqb (length target) 0);
         maxBoost := orDefault (Opt.maxBoost options) 12.0;
         maxCut := orDefault (Opt.maxCut options) 18.0;
         smoothing := orDefault (Opt.smoothing options) 0.02 |}.
Proof.
  unfold generateOptimalEQ. cbv zeta.
  destruct (_ || _); [eexists; reflexivity|].
  set (p1 := generateEQPass room target _ broad _ _ _ _ _ _ _).
  set (probs := analyzePostEQProblems _ _ _ _).
  set (p1c := if Nat.ltb 0 (length probs) then p1 ++ _ else p1).
  clearbody p1c.
  set (p2 := generateEQPass _ _ _ targeted _ _ _ _ _ _ _). clearbody p2.
  set (p3 := generateEQPass _ _ _ polishing _ _ _ _ _ _ _). clearbody p3.
  repeat match goal with
  | |- context [if (?a >? 0)%Z then _ else _] => destruct (a >? 0)%Z
  end; eexists; reflexivity.
Qed.

(** X24 (generateOptimalEQ).  The bands of the result are in ascending
    order of frequency; every band is a peak filter whose frequency and gain
    are whole tenths.  The result is enabled exactly when both input
    responses are non-empty, and it carries the limits and the smoothing of
    the options, or their defaults 12, 18 and 0.02. *)
Theorem generateOptimalEQ_sorted :
  forall (roomResponse targetResponse : list ModeResponse) (options : Opt.t),
    let result := generateOptimalEQ roomResponse targetResponse options in
    StronglySorted (fun a b => frequency a <= frequency b) (bands result)
    /\ Forall peakOnGrid (bands result)
    /\ enabled result
       = negb (Nat.eqb (length roomResponse) 0
               || Nat.eqb (length targetResponse) 0)
    /\ maxBoost result = orDefault (Opt.maxBoost options) 12.0
    /\ maxCut result = orDefault (Opt.maxCut options) 18.0
    /\ smoothing result = orDefault (Opt.smoothing options) 0.02.
Proof.
  intros room target options result. subst result.
  split; [|split].
  - destruct room as [|r0 room];
      [rewrite generateOptimalEQ_bands_nil by (now left); constructor|].
    destruct target as [|t0 target];
      [rewrite generateOptimalEQ_bands_nil by (now right); constructor|].
    destruct (generateOptimalEQ_passes (r0 :: room) (t0 :: target) options)
      as [p2 [p3 [p4 [-> _]]]]; try discriminate.
    apply (sort_sorted frequency). reflexivity.
  - apply generateOptimalEQ_Forall.
    + intros. apply generateEQPass_peakOnGrid.
    + intros. apply generateCorrectiveBands_peakOnGrid.
  - destruct (generateOptimalEQ_settings room target options) as [bs ->].
    repeat split.
Qed.

(** ** Generator: nothing to correct *)

Lemma getErrorThreshold_ge pt sf f : 0.1 <= getErrorThreshold pt sf f.
Proof. unfold getErrorThreshold. destruct pt; rcases; lra. Qed.

Lemma filter_none {A} (p : A -> bool) l :
  (forall a, In a l -> p a = false) -> filter p l = [].
Proof.
  intros Hp. induction l as [|a l IH]; simpl; [reflexivity|].
  rewrite Hp by now left. apply IH. intros b Hb. apply Hp. now right.
Qed.

Lemma generateEQPass_quiet cur tgt M pt mb mc minQ maxQ sm sf used :
  Forall (fun e => Rabs (Err.error e) <= 0.1)
         (errorByFrequency (analyzeTargetError cur tgt)) ->
  generateEQPass cur tgt M pt mb mc minQ maxQ sm sf used = [].
Proof.
  intros Hq. unfold generateEQPass. cbv zeta.
  rewrite (filter_none (fun e => Rgtb (Math_abs (Err.error e)) _)).
  2:{ intros e He. apply filter_In in He as [He _].
      rewrite Forall_forall in Hq. specialize (Hq e He).
      unfold Rgtb, Math_abs. apply Rltb_false.
      pose proof (getErrorThreshold_ge pt sf (Err.freq e)). lra. }
  cbn [sort fold_right smartFrequencyDistribution length Nat.eqb bandLoop].
  destruct (_ && _); [|reflexivity].
  unfold addSpectralBalanceCorrection.
  destruct (len [] >=? M)%Z; reflexivity.
Qed.

Lemma applyEQToResponse_no_bands r on mb mc sm :
  applyEQToResponse r {| bands := []; enabled := on; maxBoost := mb;
                         maxCut := mc; smoothing := sm |} = r.
Proof.
  unfold applyEQToResponse. cbn [bands length Nat.eqb].
  now rewrite orb_true_r.
Qed.

(** X25 (generateOptimalEQ).  When no matched point of the room response is
    more than 0.1 dB away from the target, none of the four passes
    generates a band: the result has no bands. *)
Theorem generateOptimalEQ_nothing_to_correct :
  forall (roomResponse targetResponse : list ModeResponse) (options : Opt.t),
    Forall (fun e => Rabs (Err.error e) <= 0.1)
           (errorByFrequency
              (analyzeTargetError roomResponse targetResponse)) ->
    bands (generateOptimalEQ roomResponse targetResponse options) = [].
Proof.
  intros room target options Hq. unfold generateOptimalEQ. cbv beta zeta.
  destruct (_ || _); [reflexivity|].
  rewrite (generateEQPass_quiet room target) by exact Hq.
  repeat rewrite (applyEQToResponse_no_bands room true).
  cbn [analyzePostEQProblems filter length Nat.ltb Nat.leb app map].
  repeat rewrite (generateEQPass_quiet room target) by exact Hq.
  cbn [app map]. repeat rewrite (applyEQToResponse_no_bands room true).
  repeat rewrite (generateEQPass_quiet room target) by exact Hq.
  cbn [app map]. repeat rewrite (applyEQToResponse_no_bands room true).
  repeat rewrite (generateEQPass_quiet room target) by exact Hq.
  repeat match goal with
  | |- context [if (?a >? 0)%Z then _ else _] => destruct (a >? 0)%Z
  end; reflexivity.
Qed.

Lemma generateOptimalEQ_nothing_to_correct_witness :
  Forall (fun e => Rabs (Err.error e) <= 0.1)
         (errorByFrequency (analyzeTargetError threePointRoom threePointRoom))
  /\ bands (generateOptimalEQ threePointRoom threePointRoom sevenBandOptions)
     = [].
Proof.
  assert (Hq : Forall (fun e => Rabs (Err.error e) <= 0.1)
                 (errorByFrequency
                    (analyzeTargetError threePointRoom threePointRoom))).
  { rewrite analyzeTargetError_entries.
    assert (Hmp : matchedPairs threePointRoom threePointRoom
                  = map (fun c => (c, c)) threePointRoom).
    { apply (matchedPairs_self_aux [] threePointRoom).
      unfold threePointRoom.
      repeat (constructor; [repeat constructor; cbn [freq];
                            rewrite Rabs_left by lra; lra |]).
      constructor. }
    rewrite Hmp. unfold threePointRoom.
    repeat constructor; unfold pairEntry, pairError; cbn;
      replace (-25 - -25) with 0 by lra; replace (24 - 24) with 0 by lra;
      rewrite Rabs_R0; lra. }
  split; [exact Hq|].
  exact (generateOptimalEQ_nothing_to_correct threePointRoom threePointRoom
           sevenBandOptions Hq).
Defined.

(** ** Target alignment *)

(** Rounding to a whole number keeps a value inside integer bounds. *)
Lemma Math_round_between v (lo hi : Z) :
  IZR lo <= v <= IZR hi -> IZR lo <= Math_round v <= IZR hi.
Proof.
  intros [Hlo Hhi]. unfold Math_round.
  pose proof (Zfloor_bound (v + 1 / 2)) as [H1 H2].
  split; apply IZR_le.
  - assert (Hlt : IZR (lo - 1) < IZR (Zfloor (v + 1 / 2))).
    { rewrite minus_IZR. lra. }
    apply lt_IZR in Hlt. lia.
  - assert (Hlt : IZR (Zfloor (v + 1 / 2)) < IZR (hi + 1)).
    { rewrite plus_IZR. lra. }
    apply lt_IZR in Hlt. lia.
Qed.

(** X26 (calculateOptimalHarmanOffset).  When either response has fewer
    than three points between 80 and 200 Hz the offset is 0.  Otherwise it
    is a multiple of 0.5 dB between 60 and 95 dB, whatever the levels of
    the two responses. *)
Theorem calculateOptimalHarmanOffset_range :
  forall roomResponse harmanTargetData : list ModeResponse,
    let offset := calculateOptimalHarmanOffset roomResponse harmanTargetData in
    let midband :=
      filter (fun p => Rgeb (freq p) 80 && Rleb (freq p) 200) in
    ((length (midband roomResponse) < 3)%nat
     \/ (length (midband harmanTargetData) < 3)%nat -> offset = 0)
    /\ ((3 <= length (midband roomResponse))%nat ->
        (3 <= length (midband harmanTargetData))%nat ->
        60 <= offset <= 95 /\ exists n : Z, offset = IZR n / 2).
Proof.
  intros room target offset midband. subst offset.
  unfold calculateOptimalHarmanOffset. cbv zeta. fold midband.
  destruct (Nat.eqb (length room) 0 || Nat.eqb (length target) 0) eqn:E0.
  { split; [reflexivity|]. intros Hr Ht. exfalso.
    apply orb_prop in E0 as [E|E]; apply Nat.eqb_eq in E;
      apply length_zero_iff_nil in E; subst; simpl in *; lia. }
  destruct (Nat.ltb (length (midband room)) 3
            || Nat.ltb (length (midband target)) 3) eqn:E3.
  { split; [reflexivity|]. intros Hr Ht. exfalso.
    apply orb_prop in E3 as [E|E]; apply Nat.ltb_lt in E; lia. }
  apply orb_false_elim in E3 as [Er Et].
  apply Nat.ltb_ge in Er, Et. split; [lia|]. intros _ _.
  set (c := Math_max 60 (Math_min 95 _)).
  assert (Hc : 60 <= c <= 95).
  { unfold c, Math_max, Math_min. split; [apply Rmax_l|].
    apply Rmax_lub; [lra | apply Rmin_l]. }
  split; [|unfold Math_round; eexists; reflexivity].
  pose proof (Math_round_between (c * 2) 120 190) as Hr.
  lapply Hr; [|lra]. lra.
Qed.

Lemma calculateOptimalHarmanOffset_range_witness :
  let room := [ {| freq := 90; db := 70 |}; {| freq := 100; db := 75 |};
                {| freq := 110; db := 80 |} ] in
  let target := [ {| freq := 90; db := 3 |}; {| freq := 100; db := 3 |};
                  {| freq := 110; db := 2 |} ] in
  (3 <= length (filter (fun p => Rgeb (freq p) 80 && Rleb (freq p) 200) room))%nat
  /\ 60 <= calculateOptimalHarmanOffset room target <= 95
  /\ calculateOptimalHarmanOffset room [] = 0.
Proof.
  intros room target.
  assert (Hmid : forall db1 db2 db3,
            (3 <= length (filter (fun p => Rgeb (freq p) 80
                                           && Rleb (freq p) 200)
                            [ {| freq := 90; db := db1 |};
                              {| freq := 100; db := db2 |};
                              {| freq := 110; db := db3 |} ]))%nat).
  { intros. cbn [filter freq]. unfold Rgeb.
    rewrite !(proj2 (Rleb_true _ _)) by lra. simpl. lia. }
  split; [apply Hmid|]. split.
  - exact (proj1 (proj2 (calculateOptimalHarmanOffset_range room target)
                    (Hmid _ _ _) (Hmid _ _ _))).
  - apply (proj1 (calculateOptimalHarmanOffset_range room [])).
    right. simpl. lia.
Defined.

(** ** Correction EQ *)

Lemma Math_round_tenth_near v :
  v - 0.05 <= Math_round (v * 10) / 10 <= v + 0.05.
Proof.
  unfold Math_round.
  pose proof (Zfloor_bound (v * 10 + 1 / 2)) as [Hlo Hhi]. lra.
Qed.

Lemma calculateAdaptiveQ_range f p g minQ maxQ :
  minQ <= calculateAdaptiveQ f p g minQ maxQ <= Rmax minQ maxQ.
Proof.
  unfold calculateAdaptiveQ, Math_max, Math_min. cbv zeta.
  set (b := if Rgtb _ 8 then _ else _). clearbody b.
  split; [apply Rmax_l|].
  apply Rmax_lub; [apply Rmax_l|].
  eapply Rle_trans; [apply Rmin_l | apply Rmax_r].
Qed.

Lemma optionals_length {A} (l : list (option A)) :
  (length (optionals l) <= length l)%nat.
Proof. induction l as [|[a|] l IH]; simpl; lia. Qed.

Lemma optionals_map_Forall {A B} (P : B -> Prop) (f : A -> option B) l :
  (forall a b, f a = Some b -> P b) -> Forall P (optionals (map f l)).
Proof.
  intros Hf. induction l as [|a l IH]; simpl; [constructor|].
  destruct (f a) eqn:E; [constructor; eauto | assumption].
Qed.

Lemma gain_limit rg mb mc :
  0 <= mb -> 0 <= mc ->
  - mc <= (if Rgtb rg 0 then Math_min rg mb else Math_max rg (- mc)) <= mb.
Proof.
  intros Hmb Hmc. unfold Rgtb, Math_min, Math_max.
  destruct (Rltb 0 rg) eqn:E.
  - apply Rltb_true in E. unfold Rmin. destruct (Rle_dec rg mb); lra.
  - apply Rltb_false in E. unfold Rmax. destruct (Rle_dec rg (- mc)); lra.
Qed.

(** The form of a band of the correction EQ. *)
Lemma correctionBandFor_spec e mb mc minQ maxQ lr it band :
  correctionBandFor e mb mc minQ maxQ lr it = Some band ->
  type band = peak
  /\ minQ - 0.05 <= q band <= Rmax minQ maxQ + 0.05
  /\ (0 <= mb -> 0 <= mc -> - mc - 0.05 <= gain band <= mb + 0.05).
Proof.
  unfold correctionBandFor. cbv zeta.
  set (rg := if Rgtb _ 0 then _ else _).
  destruct (Rltb (Math_abs rg) _); [discriminate|]. intros [= <-].
  cbn [type q gain]. split; [reflexivity|]. split.
  - pose proof (calculateAdaptiveQ_range (Err.freq e)
                  (Math_abs (Err.error e)) rg minQ maxQ).
    pose proof (Math_round_tenth_near
                  (calculateAdaptiveQ (Err.freq e) (Math_abs (Err.error e))
                                      rg minQ maxQ)). lra.
  - intros Hmb Hmc.
    pose proof (gain_limit (- Err.error e * lr
                            * Math_max 0.3 (1.0 - (it - 1) * 0.15))
                           mb mc Hmb Hmc) as Hg.
    fold rg in Hg. pose proof (Math_round_tenth_near rg). lra.
Qed.

Lemma distributedBandFor_spec f cur tgt mb mc minQ maxQ lr it band :
  distributedBandFor f cur tgt mb mc minQ maxQ lr it = Some band ->
  type band = peak
  /\ minQ - 0.05 <= q band <= Rmax minQ maxQ + 0.05
  /\ (0 <= mb -> 0 <= mc -> - mc - 0.05 <= gain band <= mb + 0.05).
Proof.
  unfold distributedBandFor.
  destruct (find _ cur) as [c|]; [|discriminate].
  destruct (find _ tgt) as [t|]; [|discriminate].
  cbv zeta.
  set (rg := if Rgtb _ 0 then _ else _).
  destruct (Rgtb (Math_abs rg) 0.5); [|discriminate]. intros [= <-].
  cbn [type q gain]. split; [reflexivity|]. split.
  - pose proof (calculateAdaptiveQ_range f (Math_abs (db c - db t)) rg minQ
                  (Math_min maxQ 4.0)) as Hq.
    pose proof (Math_round_tenth_near
                  (calculateAdaptiveQ f (Math_abs (db c - db t)) rg minQ
                                      (Math_min maxQ 4.0))).
    assert (Rmax minQ (Math_min maxQ 4.0) <= Rmax minQ maxQ).
    { apply Rmax_lub; [apply Rmax_l|].
      eapply Rle_trans; [apply Rmin_l | apply Rmax_r]. }
    lra.
  - intros Hmb Hmc.
    assert (H6b : 0 <= mb * 0.6) by lra.
    assert (H6c : 0 <= mc * 0.6) by lra.
    pose proof (gain_limit (- (db c - db t) * lr * 0.5
                            * Math_max 0.2 (1.0 - (it - 1) * 0.2))
                           (mb * 0.6) (mc * 0.6) H6b H6c) as Hg.
    replace (- (mc * 0.6)) with (- mc * 0.6) in Hg by lra.
    fold rg in Hg. pose proof (Math_round_tenth_near rg). lra.
Qed.

(** X27 (generateCorrectionEQ).  For a Schroeder frequency above -20 Hz
    (below that the source takes the logarithm of a number that is not
    positive) the correction EQ is always enabled, has at most [numBands]
    bands, all of them peak filters; with limits that are not negative every
    gain lies between [-maxCut] and [maxBoost], up to the rounding to
    0.1 dB, and every Q is at least [minQ] and at most the larger of [minQ]
    and [maxQ], up to the rounding. *)
Theorem generateCorrectionEQ_limits :
  forall (currentResponse targetResponse : list ModeResponse)
         (options : CorrOpt.t),
    let result := generateCorrectionEQ currentResponse targetResponse options in
    let numBands := orDefault (CorrOpt.numBands options) 15%nat in
    let maxBoost := orDefault (CorrOpt.maxBoost options) 6.0 in
    let maxCut := orDefault (CorrOpt.maxCut options) 12.0 in
    let minQ := orDefault (CorrOpt.minQ options) 0.7 in
    let maxQ := orDefault (CorrOpt.maxQ options) 6.0 in
    -20 < orDefault (CorrOpt.schroederFreq options) 200 ->
    enabled result = true
    /\ (length (bands result) <= numBands)%nat
    /\ Forall (fun band =>
         type band = peak
         /\ minQ - 0.05 <= q band <= Rmax minQ maxQ + 0.05
         /\ (0 <= maxBoost -> 0 <= maxCut ->
             - maxCut - 0.05 <= gain band <= maxBoost + 0.05))
         (bands result).
Proof.
  intros cur tgt options result numBands maxBoost maxCut minQ maxQ _.
  subst result. unfold generateCorrectionEQ. cbv zeta.
  fold numBands maxBoost maxCut minQ maxQ.
  set (sig := firstn numBands _).
  set (b1 := optionals (map _ sig)).
  set (dist := if Nat.ltb 0 _ then _ else _). clearbody dist.
  set (b2 := optionals (map _ (firstn (numBands - length b1) dist))).
  cbn [enabled bands].
  assert (H1 : (length b1 <= numBands)%nat).
  { unfold b1. etransitivity; [apply optionals_length|].
    rewrite length_map. unfold sig. rewrite length_firstn. lia. }
  assert (H2 : (length b2 <= numBands - length b1)%nat).
  { unfold b2. etransitivity; [apply optionals_length|].
    rewrite length_map, length_firstn. lia. }
  split; [reflexivity|]. split.
  - rewrite length_app. lia.
  - apply Forall_app. split.
    + apply optionals_map_Forall. intros e band.
      apply correctionBandFor_spec.
    + apply optionals_map_Forall. intros f band.
      apply distributedBandFor_spec.
Qed.

Lemma generateCorrectionEQ_limits_witness :
  let options :=
    {| CorrOpt.numBands := Some 3%nat; CorrOpt.maxBoost := None;
       CorrOpt.maxCut := None; CorrOpt.smoothing := None;
       CorrOpt.minQ := None; CorrOpt.maxQ := None;
       CorrOpt.schroederFreq := None; CorrOpt.learningRate := None;
       CorrOpt.iteration := None |} in
  -20 < orDefault (CorrOpt.schroederFreq options) 200
  /\ (length (bands (generateCorrectionEQ threePointRoom threePointTarget
                                          options)) <= 3)%nat.
Proof.
  intros options.
  assert (Hsf : -20 < orDefault (CorrOpt.schroederFreq options) 200)
    by (simpl; lra).
  split; [exact Hsf|].
  exact (proj1 (proj2 (generateCorrectionEQ_limits threePointRoom
                         threePointTarget options Hsf))).
Defined.

(** ** Merging two EQs *)

Lemma StronglySorted_firstn {A} (R1 : A -> A -> Prop) n l :
  StronglySorted R1 l -> StronglySorted R1 (firstn n l).
Proof.
  intros Hs. revert n. induction Hs as [|a l Hs IH Ha]; intros [|n]; simpl;
    try constructor; [apply IH|].
  rewrite Forall_forall in *. intros b Hb. apply Ha.
  eapply firstn_In; eassumption.
Qed.

Lemma StronglySorted_filter {A} (R1 : A -> A -> Prop) p l :
  StronglySorted R1 l -> StronglySorted R1 (filter p l).
Proof.
  intros Hs. induction Hs as [|a l Hs IH Ha]; simpl; [constructor|].
  destruct (p a); [|exact IH]. constructor; [exact IH|].
  rewrite Forall_forall in *. intros b Hb. apply Ha.
  now apply filter_In in Hb.
Qed.

Lemma findIndex_lt {A} (p : A -> bool) l i :
  findIndex p l = Some i -> (i < length l)%nat.
Proof.
  revert i. induction l as [|a l IH]; intros i; simpl; [discriminate|].
  destruct (p a); [intros [= <-]; lia|].
  destruct (findIndex p l) as [j|]; [|discriminate].
  intros [= <-]. specialize (IH j eq_refl). lia.
Qed.

Lemma list_set_In {A} (l : list A) i v a :
  In a (list_set l i v) -> a = v \/ In a l.
Proof.
  revert i. induction l as [|b l IH]; intros [|i]; simpl; try tauto.
  - intros [<-|Hin]; tauto.
  - intros [<-|Hin]; [tauto|]. apply IH in Hin. tauto.
Qed.

Lemma mergeStep_spec (P : EQBand -> Prop) maxBands merged c :
  Forall P merged -> P c ->
  (forall g qv e, P e -> -30 <= g <= 15 -> 0.5 <= qv <= 8 ->
     P {| frequency := frequency e; gain := g; q := qv; type := type e |}) ->
  Forall P (mergeStep maxBands merged c)
  /\ (length (mergeStep maxBands merged c)
      <= Nat.max (length merged) maxBands)%nat.
Proof.
  intros Hm Hc Hnew. unfold mergeStep.
  destruct (findIndex _ merged) as [i|] eqn:Ei.
  - cbv zeta. split; [|rewrite list_set_length; lia].
    apply Forall_forall. intros b Hb. apply list_set_In in Hb as [->|Hb].
    + apply Hnew.
      * rewrite Forall_forall in Hm. apply Hm, nth_In.
        eapply findIndex_lt; eassumption.
      * pose proof (Math_round_between
                      (Math_max (-30) (Math_min 15
                         (gain (nth i merged c) + gain c * 0.8)) * 10)
                      (-300) 150) as Hr.
        lapply Hr; [lra|].
        unfold Math_max, Math_min.
        assert (-30 <= Rmax (-30) (Rmin 15 (gain (nth i merged c)
                                            + gain c * 0.8)) <= 15).
        { split; [apply Rmax_l|]. apply Rmax_lub; [lra | apply Rmin_l]. }
        lra.
      * pose proof (Math_round_between
                      (Math_max 0.5 (Math_min 8
                         ((q (nth i merged c) + q c) / 2)) * 10) 5 80) as Hr.
        lapply Hr; [lra|].
        unfold Math_max, Math_min.
        assert (0.5 <= Rmax 0.5 (Rmin 8 ((q (nth i merged c) + q c) / 2))
                <= 8).
        { split; [apply Rmax_l|]. apply Rmax_lub; [lra | apply Rmin_l]. }
        lra.
    + rewrite Forall_forall in Hm. now apply Hm.
  - destruct (Nat.ltb (length merged) maxBands) eqn:E.
    + apply Nat.ltb_lt in E. split.
      * apply Forall_app. split; [assumption|]. now repeat constructor.
      * rewrite length_app. simpl. lia.
    + split; [assumption | lia].
Qed.

(** X28 (mergeEQSettings).  The merged EQ has at most [maxBands] bands, in
    ascending order of frequency, none with a gain of less than 0.2 dB in
    magnitude, and keeps the other settings of the base EQ.  Each band is a
    band of the base EQ, a band of the correction EQ, or a combined band,
    which has the frequency and the type of one of those bands, a gain
    between -30 and +15 dB and a Q between 0.5 and 8, whatever limits the
    two EQs carry. *)
Theorem mergeEQSettings_result :
  forall (baseEQ correctionEQ : EQSettings) (maxBands : nat),
    let result := mergeEQSettings baseEQ correctionEQ maxBands in
    (length (bands result) <= maxBands)%nat
    /\ StronglySorted (fun a b => frequency a <= frequency b) (bands result)
    /\ Forall (fun band => 0.2 <= Rabs (gain band)) (bands result)
    /\ Forall (mergedFrom baseEQ correctionEQ) (bands result)
    /\ enabled result = enabled baseEQ
    /\ maxBoost result = maxBoost baseEQ /\ maxCut result = maxCut baseEQ
    /\ smoothing result = smoothing baseEQ.
Proof.
  intros base corr maxBands result. subst result. unfold mergeEQSettings.
  cbv zeta. cbn [bands enabled maxBoost maxCut smoothing].
  set (merged := fold_left _ _ _).
  split; [|split; [|split; [|split; [|repeat split]]]].
  - etransitivity; [apply filter_length_le|].
    rewrite length_firstn. lia.
  - apply StronglySorted_filter, StronglySorted_firstn.
    apply (sort_sorted frequency). reflexivity.
  - apply Forall_forall. intros band Hb. apply filter_In in Hb as [_ Hb].
    unfold Rgeb, Math_abs in Hb. now apply Rleb_true in Hb.
  - assert (Hm : Forall (mergedFrom base corr) merged).
    { unfold merged.
      assert (Hgen : forall cs ms,
                (forall c, In c cs -> In c (bands corr)) ->
                Forall (mergedFrom base corr) ms ->
                Forall (mergedFrom base corr)
                       (fold_left (mergeStep maxBands) cs ms)).
      { induction cs as [|c cs IH]; intros ms Hcs Hms; [exact Hms|].
        cbn [fold_left]. apply IH; [intros c' Hc'; apply Hcs; now right|].
        apply mergeStep_spec; [exact Hms | |].
        - right. left. apply Hcs. now left.
        - intros g qv e He Hg Hq. right. right. cbn.
          repeat split; try lra.
          destruct He as [He|[He|(_ & _ & e' & He' & Hf & Ht)]].
          + exists e. split; [apply in_or_app; now left | now split].
          + exists e. split; [apply in_or_app; now right | now split].
          + exists e'. now split. }
      apply Hgen; [auto|].
      apply Forall_forall. intros b Hb. now left. }
    apply Forall_forall. intros band Hb. apply filter_In in Hb as [Hb _].
    apply firstn_In in Hb.
    apply (Permutation_in _ (sort_perm byFrequency merged)) in Hb.
    rewrite Forall_forall in Hm. now apply Hm.
Qed.

(** ** Room mode analysis *)

Lemma modeIndices_le order n m l :
  In (n, m, l) (modeIndices order) ->
  (n <= order /\ m <= order /\ l <= order)%nat.
Proof.
  unfold modeIndices. intros Hin.
  apply in_flat_map in Hin as [n' [Hn Hin]].
  apply in_flat_map in Hin as [m' [Hm Hin]].
  apply in_map_iff in Hin as [l' [[= <- <- <-] Hl]].
  apply in_seq in Hn, Hm, Hl. lia.
Qed.

Lemma analyzeMode_spec a b rl rw rh order n m l mode :
  (n <= order /\ m <= order /\ l <= order)%nat ->
  analyzeMode a b rl rw rh n m l = Some mode ->
  reportedMode a b rl rw rh order mode.
Proof.
  intros Hle. unfold analyzeMode.
  destruct (Nat.eqb n 0 && Nat.eqb m 0 && Nat.eqb l 0) eqn:E0;
    [discriminate|].
  repeat match goal with
  | |- context [if ?c && negb ?d then None else _] =>
    destruct (c && negb d); [discriminate|]
  end.
  cbv zeta. set (fMode := SPEED_OF_SOUND / 2 * _).
  destruct (Rleb fMode 0 || Rgtb fMode 300) eqn:Ef; [discriminate|].
  apply orb_false_elim in Ef as [Ef0 Ef3].
  apply Rleb_false in Ef0. unfold Rgtb in Ef3. apply Rltb_false in Ef3.
  set (c := _ * _).
  destruct (Rltb (Math_abs c) 0.1) eqn:Ec; [discriminate|].
  apply Rltb_false in Ec. intros [= <-].
  unfold reportedMode, nonZeroIndices.
  cbn [Mode.frequency Mode.amplitude Mode.coupling Mode.nMode Mode.mMode
       Mode.lMode Mode.type].
  split; [lra|]. split.
  { split; [exact Ec|]. unfold c, Math_abs. rewrite Rabs_mult.
    pose proof (calculateModePressure_le_1 n m l a
                  {| L := rl; W := rw; H := rh |}).
    pose proof (calculateModePressure_le_1 n m l b
                  {| L := rl; W := rw; H := rh |}).
    pose proof (Rabs_pos (calculateModePressure n m l a
                  {| L := rl; W := rw; H := rh |})).
    pose proof (Rabs_pos (calculateModePressure n m l b
                  {| L := rl; W := rw; H := rh |})).
    nra. }
  split; [reflexivity|]. split; [reflexivity|]. split; [exact Hle|].
  destruct n, m, l; try discriminate; cbn; split; (reflexivity || lia).
Qed.

Lemma analyzeMode_symmetric a b L W H n m l :
  analyzeMode a b L W H n m l = analyzeMode b a L W H n m l.
Proof.
  unfold analyzeMode.
  now rewrite (Rmult_comm (calculateModePressure n m l a _)
                          (calculateModePressure n m l b _)).
Qed.

(** X29 (analyzeRoomModes).  The modes come in ascending order of
    frequency.  Each listed mode lies above 0 and at most at 300 Hz, has
    indices up to [maxModeOrder], of which at least one is not zero, an
    amplitude between 0.1 and 1 that is the magnitude of the product of the
    two pressures, and is called axial, tangential or oblique as one, two
    or three of its indices are not zero.  Swapping source and listener
    gives the same list. *)
Theorem analyzeRoomModes_modes :
  forall (subPos listenerPos : Point) (L W H : R) (maxModeOrder : nat),
    let modes := analyzeRoomModes subPos listenerPos L W H maxModeOrder in
    StronglySorted (fun a b => Mode.frequency a <= Mode.frequency b) modes
    /\ Forall (reportedMode subPos listenerPos L W H maxModeOrder) modes
    /\ analyzeRoomModes listenerPos subPos L W H maxModeOrder = modes.
Proof.
  intros a b L W H order modes. subst modes. unfold analyzeRoomModes.
  cbv zeta. split; [|split].
  - apply (sort_sorted Mode.frequency). reflexivity.
  - eapply Permutation_Forall; [apply Permutation_sym, sort_perm|].
    set (idx := modeIndices order).
    assert (Hidx : forall i, In i idx -> In i (modeIndices order)) by auto.
    clearbody idx. induction idx as [|[[n m] l] idx IH]; [constructor|].
    cbn [map optionals].
    assert (Hrest : Forall (reportedMode a b L W H order)
                      (optionals
                         (map (fun '(n, m, l) => analyzeMode a b L W H n m l)
                              idx)))
      by (apply IH; intros i Hi; apply Hidx; now right).
    destruct (analyzeMode a b L W H n m l) as [mode|] eqn:Em;
      [|exact Hrest].
    constructor; [|exact Hrest].
    eapply analyzeMode_spec; [|exact Em].
    apply modeIndices_le. apply Hidx. now left.
  - f_equal. f_equal. apply map_ext. intros [[n m] l].
    apply analyzeMode_symmetric.
Qed.

(** ** The passes as separate stages *)

Lemma generateEQPass1_spec room target options :
  let n := Z.of_nat (orDefault (StageOpt.numBands options) 20%nat) in
  let r1 := generateEQPass1 room target options in
  (len (bands (eqSettings r1)) <= Zceil (IZR n * 0.4) <= n)%Z
  /\ correctedResponse r1 = applyEQToResponse room (eqSettings r1).
Proof.
  cbv zeta. unfold generateEQPass1. cbv zeta.
  set (n := Z.of_nat _). set (M := Zceil (IZR n * 0.4)).
  assert (HM : (0 <= M <= n)%Z)
    by (apply Zceil_share; [unfold n; lia | lra]).
  set (p1 := generateEQPass room target M broad _ _ _ _ _ _ _).
  assert (H1 : (len p1 <= Z.max 0 M)%Z) by apply generateEQPass_len.
  destruct (Nat.ltb 0 _); cbn [eqSettings correctedResponse bands].
  - split; [|reflexivity].
    rewrite len_app.
    pose proof (generateCorrectiveBands_len
                  (analyzePostEQProblems
                     (applyEQToResponse room
                        {| bands := p1; enabled := true;
                           maxBoost := orDefault (StageOpt.maxBoost options) 12.0;
                           maxCut := orDefault (StageOpt.maxCut options) 18.0;
                           smoothing :=
                             orDefault (StageOpt.smoothing options) 0.02 |})
                     target p1
                     (orDefault (StageOpt.schroederFreq options) 200))
                  (M - len p1)).
    lia.
  - split; [lia | reflexivity].
Qed.

Lemma generateEQPass2_spec p1 original target options :
  let n := Z.of_nat (orDefault (StageOpt.numBands options) 20%nat) in
  let r2 := generateEQPass2 p1 original target options in
  (exists added,
      bands (eqSettings r2) = bands (eqSettings p1) ++ added
      /\ (len added <= Z.max 0 (n - len (bands (eqSettings p1))))%Z)
  /\ correctedResponse r2 = applyEQToResponse original (eqSettings r2).
Proof.
  cbv zeta. unfold generateEQPass2. cbv zeta.
  cbn [eqSettings correctedResponse bands].
  split; [|reflexivity]. eexists. split; [reflexivity|].
  etransitivity; [apply generateEQPass_len|]. lia.
Qed.

Lemma generateEQPass3_spec p2 original target options :
  let n := Z.of_nat (orDefault (StageOpt.numBands options) 20%nat) in
  let r3 := generateEQPass3 p2 original target options in
  ((n <= len (bands (eqSettings p2)))%Z -> r3 = p2)
  /\ ((len (bands (eqSettings p2)) < n)%Z ->
      (exists added,
          Permutation (bands (eqSettings r3))
                      (bands (eqSettings p2) ++ added)
          /\ (len added <= n - len (bands (eqSettings p2)))%Z)
      /\ StronglySorted (fun a b => frequency a <= frequency b)
                        (bands (eqSettings r3))
      /\ correctedResponse r3 = applyEQToResponse original (eqSettings r3)).
Proof.
  cbv zeta. unfold generateEQPass3. cbv zeta.
  set (n := Z.of_nat _).
  destruct (n - len (bands (eqSettings p2)) <=? 0)%Z eqn:E.
  - split; [reflexivity|]. lia.
  - split; [lia|]. intros Hlt.
    cbn [eqSettings correctedResponse bands].
    split; [|split; [|reflexivity]].
    + eexists. split; [apply sort_perm|].
      etransitivity; [apply generateEQPass_len|]. lia.
    + apply (sort_sorted frequency). reflexivity.
Qed.

(** X30 (generateEQPass1, generateEQPass2, generateEQPass3).  Run one
    after the other on the same responses and options, the three stages
    keep to the band budget: after the first stage there are at most
    ceil(0.4 * numBands) bands, after the second and after the third at
    most [numBands].  The second stage appends its bands to those of the
    first, the third only adds to and reorders those of the second, and at
    every stage the corrected response that is handed on is the original
    response with the EQ of that stage applied. *)
Theorem staged_passes_budget :
  forall (roomResponse targetResponse : list ModeResponse)
         (options : StageOpt.t),
    let numBands := orDefault (StageOpt.numBands options) 20%nat in
    let r1 := generateEQPass1 roomResponse targetResponse options in
    let r2 := generateEQPass2 r1 roomResponse targetResponse options in
    let r3 := generateEQPass3 r2 roomResponse targetResponse options in
    (len (bands (eqSettings r1)) <= Zceil (IZR (Z.of_nat numBands) * 0.4))%Z
    /\ (length (bands (eqSettings r1)) <= numBands)%nat
    /\ (length (bands (eqSettings r2)) <= numBands)%nat
    /\ (length (bands (eqSettings r3)) <= numBands)%nat
    /\ (exists added, bands (eqSettings r2) = bands (eqSettings r1) ++ added)
    /\ (exists added,
          Permutation (bands (eqSettings r3))
                      (bands (eqSettings r2) ++ added))
    /\ correctedResponse r1 = applyEQToResponse roomResponse (eqSettings r1)
    /\ correctedResponse r2 = applyEQToResponse roomResponse (eqSettings r2)
    /\ correctedResponse r3 = applyEQToResponse roomResponse (eqSettings r3).
Proof.
  intros room target options numBands r1 r2 r3.
  destruct (generateEQPass1_spec room target options) as [H1 C1].
  destruct (generateEQPass2_spec r1 room target options)
    as [[a2 [B2 L2]] C2].
  destruct (generateEQPass3_spec r2 room target options) as [S3 A3].
  fold numBands r1 in H1, C1, L2. fold r1 r2 in B2, C2.
  fold numBands r2 r3 in S3, A3.
  set (n := Z.of_nat numBands) in *.
  assert (E1 : (len (bands (eqSettings r1)) <= n)%Z) by lia.
  assert (E2 : (len (bands (eqSettings r2)) <= n)%Z).
  { rewrite B2, len_app. lia. }
  split; [lia|]. split; [unfold len, n in E1; lia|].
  split; [unfold len, n in E2; lia|].
  destruct (Z.eq_dec (len (bands (eqSettings r2))) n) as [Heq|Hne].
  - rewrite (S3 ltac:(lia)).
    split; [unfold len, n in E2; lia|].
    split; [now exists a2|].
    split; [exists []; now rewrite app_nil_r|].
    repeat split; assumption.
  - destruct A3 as ([a3 [P3 L3]] & _ & C3); [lia|].
    split.
    { apply Nat2Z.inj_le. rewrite (Permutation_length P3).
      fold (len (bands (eqSettings r2) ++ a3)). rewrite len_app.
      fold n. lia. }
    split; [now exists a2|].
    split; [now exists a3|].
    repeat split; assumption.
Qed.
